(** * A shallow embedding of the fetching engine (mget.c) and of the resolver
      (libwget/net.c), with the properties of the specification stated over it.

    Layout: the embedding comes first, one module per source area ([Iri],
    [Options], [CStr], [Net], [Persist], [Admission], [Sitemap], [Http],
    [Metalink]); the theorems follow, grouped the same way ([NetSpec],
    [PersistSpec], [AdmissionSpec], [SitemapSpec], [HttpSpec],
    [MetalinkSpec]).

    Conventions of the embedding:
    - a C [int], [long long] or [size_t] is a [Z]; where a value is stored back
      into a fixed-width object the wrap-around is written out;
    - a NUL-terminated [char *] is a [string], a nullable one an [option string];
    - a vector or a linked list is a [list]; a hashmap used as a set a [gset];
    - global mutable state is an explicit record threaded through the calls;
    - calls into the operating system or into libraries that are not part of
      the modelled sources are answered by an explicit environment value, and
      the observable actions are recorded in a trace of events. *)

From Stdlib Require Import ZArith Lia List Ascii String.
From stdpp Require Import base decidable option list gmap strings pretty.

Set Default Proof Using "Type".

(* ===================================================================== *)
(** * URLs as the fetching engine sees them *)
(* ===================================================================== *)

Module Iri.

Inductive iri_scheme := IRI_SCHEME_HTTP | IRI_SCHEME_HTTPS.

#[export] Instance iri_scheme_eq_dec : EqDecision iri_scheme.
Proof. solve_decision. Defined.

#[export] Instance iri_scheme_countable : Countable iri_scheme.
Proof.
  refine (inj_countable'
            (λ s, match s with IRI_SCHEME_HTTP => false | IRI_SCHEME_HTTPS => true end)
            (λ b : bool, if b then IRI_SCHEME_HTTPS else IRI_SCHEME_HTTP) _).
  by intros [].
Defined.

(** The fields of [MGET_IRI] that mget.c reads. [host] and [path] may be NULL. *)
Record IRI := mk_iri {
  uri : string;
  scheme : iri_scheme;
  host : option string;
  resolv_port : Z;
  path : option string;
  dirlen : Z
}.

#[export] Instance IRI_eq_dec : EqDecision IRI.
Proof. solve_decision. Defined.

(** The URL functions of libmget that mget.c calls. The library is not part
    of the modelled sources, so its functions are taken as given:
    - [mget_iri_parse url] and [mget_iri_parse_base base url] parse a URL
      (against a base), [None] being the NULL result for a URL that cannot be
      resolved;
    - [mget_iri_relative_to_abs base url] is the absolute form of [url];
    - [canonical iri] is the canonical serialization of a URL without its
      fragment, the key under which the blacklist stores it. *)
Record libmget := mk_libmget {
  mget_iri_parse : string → option IRI;
  mget_iri_parse_base : option IRI → string → option IRI;
  mget_iri_relative_to_abs : option IRI → string → option string;
  canonical : IRI → string
}.

End Iri.

(* ===================================================================== *)
(** * The options of a run *)
(* ===================================================================== *)

Module Options.

(** The fields of [struct config] that the modelled functions read; all of
    them are fixed once the command line has been parsed. ([config.domains],
    which [add_url_to_queue] extends, is part of the state of a run.) *)
Record config := mk_config {
  recursive : bool;
  span_hosts : bool;
  robots : bool;
  parent : bool;
  https_only : bool;
  trust_server_names : bool;
  max_redirect : Z;
  exclude_domains : gset string;
  output_document : option string;
  spider : bool;
  delete_after : bool;
  save_headers : bool;
  adjust_extension : bool;
  timestamping : bool;
  clobber : bool;
  directories : bool;
  quota : Z
}.

(** A plain run: no recursion, files are clobbered, no quota. *)
Definition default_config : config :=
  {| recursive := false; span_hosts := false; robots := false; parent := true;
     https_only := false; trust_server_names := false; max_redirect := 20;
     exclude_domains := ∅; output_document := None; spider := false;
     delete_after := false; save_headers := false; adjust_extension := false;
     timestamping := false; clobber := true; directories := true;
     quota := 0 |}.

End Options.

(* ===================================================================== *)
(** * The C library functions on strings that the sources call *)
(* ===================================================================== *)

Module CStr.

Local Open Scope Z_scope.

(** A [char] read as [unsigned char]. *)
Definition uchar (c : ascii) : Z := Z.of_nat (nat_of_ascii c).

(** tolower(3) in the C locale. *)
Definition tolower (c : ascii) : ascii :=
  if (65 <=? uchar c) && (uchar c <=? 90)
  then ascii_of_nat (nat_of_ascii c + 32)
  else c.

(** isspace(3) in the C locale: space, \t, \n, \v, \f, \r. *)
Definition isspace (c : ascii) : bool :=
  (uchar c =? 32) || ((9 <=? uchar c) && (uchar c <=? 13)).

Definition strlen (s : string) : Z := Z.of_nat (String.length s).

(** strcmp(3): the difference of the first bytes that differ, 0 when equal. *)
Fixpoint strcmp (s1 s2 : string) : Z :=
  match s1, s2 with
  | EmptyString, EmptyString => 0
  | EmptyString, String c2 _ => 0 - uchar c2
  | String c1 _, EmptyString => uchar c1
  | String c1 r1, String c2 r2 =>
      if uchar c1 =? uchar c2 then strcmp r1 r2 else uchar c1 - uchar c2
  end.

(** strcasecmp(3): [strcmp] on the lower-cased bytes. *)
Fixpoint strcasecmp (s1 s2 : string) : Z :=
  match s1, s2 with
  | EmptyString, EmptyString => 0
  | EmptyString, String c2 _ => 0 - uchar (tolower c2)
  | String c1 _, EmptyString => uchar (tolower c1)
  | String c1 r1, String c2 r2 =>
      if uchar (tolower c1) =? uchar (tolower c2)
      then strcasecmp r1 r2
      else uchar (tolower c1) - uchar (tolower c2)
  end.

(** strncmp(3) and strncasecmp(3): at most [n] bytes are compared. *)
Fixpoint strncmp (s1 s2 : string) (n : nat) {struct n} : Z :=
  match n with
  | O => 0
  | S n' =>
      match s1, s2 with
      | EmptyString, EmptyString => 0
      | EmptyString, String c2 _ => 0 - uchar c2
      | String c1 _, EmptyString => uchar c1
      | String c1 r1, String c2 r2 =>
          if uchar c1 =? uchar c2 then strncmp r1 r2 n' else uchar c1 - uchar c2
      end
  end.

Fixpoint strncasecmp (s1 s2 : string) (n : nat) {struct n} : Z :=
  match n with
  | O => 0
  | S n' =>
      match s1, s2 with
      | EmptyString, EmptyString => 0
      | EmptyString, String c2 _ => 0 - uchar (tolower c2)
      | String c1 _, EmptyString => uchar (tolower c1)
      | String c1 r1, String c2 r2 =>
          if uchar (tolower c1) =? uchar (tolower c2)
          then strncasecmp r1 r2 n'
          else uchar (tolower c1) - uchar (tolower c2)
      end
  end.

(** strrchr(3) for a byte other than NUL: the offset of the last occurrence. *)
Fixpoint strrchr (s : string) (c : ascii) : option nat :=
  match s with
  | EmptyString => None
  | String a r =>
      match strrchr r c with
      | Some i => Some (S i)
      | None => if Ascii.eqb a c then Some O else None
      end
  end.

(** [s[strlen(s) - 1]], when [s] is not empty. *)
Fixpoint last_char (s : string) : option ascii :=
  match s with
  | EmptyString => None
  | String a EmptyString => Some a
  | String _ r => last_char r
  end.

(** The first [n] bytes of [s], and [s] without them. *)
Fixpoint take (n : nat) (s : string) : string :=
  match n, s with
  | S n', String a r => String a (take n' r)
  | _, _ => EmptyString
  end.

Fixpoint drop (n : nat) (s : string) : string :=
  match n, s with
  | S n', String _ r => drop n' r
  | _, _ => s
  end.

End CStr.

(* ===================================================================== *)
(** * libwget/net.c: address ordering and name resolution *)
(* ===================================================================== *)

Module Net.

Local Open Scope Z_scope.

(** Values of <sys/socket.h> and <netdb.h> (Linux). *)
Definition AF_UNSPEC : Z := 0.
Definition AF_INET : Z := 2.
Definition AF_INET6 : Z := 10.
Definition EAI_AGAIN : Z := -3.

(** One node of a [struct addrinfo] list; the list itself is a Rocq list and
    the NULL pointer is [[]]. *)
Record addrinfo := mk_addrinfo { ai_family : Z; ai_addr : string }.

#[export] Instance addrinfo_eq_dec : EqDecision addrinfo.
Proof. solve_decision. Defined.

(** The body of the [for] loop of [_wget_sort_preferred]: every node is
    unlinked from the input and appended at the tail of one of two lists. *)
Fixpoint sort_preferred_loop (ai : list addrinfo) (preferred_family : Z)
    (preferred unpreferred : list addrinfo) : list addrinfo * list addrinfo :=
  match ai with
  | [] => (preferred, unpreferred)
  | a :: next =>
      if decide (ai_family a = preferred_family)
      then sort_preferred_loop next preferred_family (preferred ++ [a]) unpreferred
      else sort_preferred_loop next preferred_family preferred (unpreferred ++ [a])
  end.

Definition _wget_sort_preferred (ai : list addrinfo) (preferred_family : Z)
    : list addrinfo :=
  let '(preferred, unpreferred) :=
    sort_preferred_loop ai preferred_family [] [] in
  match preferred with
  | _ :: _ => preferred ++ unpreferred
  | [] => unpreferred
  end.

(** The fields of [struct wget_tcp_st] read by the resolver. *)
Record wget_tcp := mk_tcp {
  caching : bool;
  family : Z;
  preferred_family : Z
}.

(** What a resolver call does that another thread or the caller can observe. *)
Inductive event :=
  | EvCacheGet (hit : bool)
  | EvLock
  | EvUnlock
  | EvResolve (rc : Z)
  | EvSleep (ms : Z)
  | EvCacheAdd.

#[export] Instance event_eq_dec : EqDecision event.
Proof. solve_decision. Defined.

(** The environment of one call: the answer of getaddrinfo(3) to the
    [n]-th attempt, and the entry another thread may have put into the cache
    for the same key while this thread was waiting for [resolve_mutex] in
    the [n]-th attempt, or while it slept after it. *)
Record world := mk_world {
  getaddrinfo : nat -> Z * list addrinfo;
  concurrent_add : nat -> option (list addrinfo);
  asleep_add : nat -> option (list addrinfo)
}.

Record state := mk_state {
  dns_cache : gmap (string * Z) (list addrinfo);
  trace : list event
}.

Definition emit (e : event) (st : state) : state :=
  mk_state (dns_cache st) (trace st ++ [e]).

(** Modelled from the spec: [wget_dns_cache_get] is defined in the DNS cache
    source, which is not among the modelled files. The cache maps
    (host, port) to an address list; "get(host, port)" is the entry, or NULL. *)
Definition wget_dns_cache_get (host : string) (port : Z) (st : state)
    : option (list addrinfo) * state :=
  let r := dns_cache st !! (host, port) in
  (r, emit (EvCacheGet (bool_decide (is_Some r))) st).

(** Modelled from the spec: [wget_dns_cache_add] is defined in the DNS cache
    source, which is not among the modelled files. The cache "is append-only
    with value replacement on race (the first inserter wins and returns the
    existing value)". *)
Definition wget_dns_cache_add (host : string) (port : Z) (ai : list addrinfo)
    (st : state) : list addrinfo * state :=
  match dns_cache st !! (host, port) with
  | Some existing => (existing, emit EvCacheAdd st)
  | None =>
      (ai, emit EvCacheAdd
             (mk_state (<[(host, port) := ai]> (dns_cache st)) (trace st)))
  end.

(** An entry added by another thread shows up unless the key is taken. *)
Definition interfere (other : option (list addrinfo)) (host : string)
    (port : Z) (st : state) : state :=
  mk_state
    match other, dns_cache st !! (host, port) with
    | Some ai, None => <[(host, port) := ai]> (dns_cache st)
    | _, _ => dns_cache st
    end
    (trace st).

(** Taking [resolve_mutex]: what another thread added while this one waited
    is visible once the lock is held. *)
Definition wget_thread_mutex_lock (w : world) (host : string) (port : Z)
    (tries : nat) (st : state) : state :=
  emit EvLock (interfere (concurrent_add w tries) host port st).

Definition wget_millisleep (w : world) (host : string) (port : Z)
    (tries : nat) (ms : Z) (st : state) : state :=
  interfere (asleep_add w tries) host port (emit (EvSleep ms) st).

Definition _wget_tcp_resolve (w : world) (tries : nat) (st : state)
    : (Z * list addrinfo) * state :=
  let r := getaddrinfo w tries in
  (r, emit (EvResolve (fst r)) st).

(** How the [for] loop of [wget_tcp_resolve] is left. *)
Inductive loop_exit :=
  | Returned (ai : list addrinfo)            (* [return addrinfo] inside the loop *)
  | Fallthrough (rc : Z) (ai : list addrinfo). (* [break], or [tries == max] *)

(** [for (int tries = 0, max = 3; tries < max; tries++)], by recursion on
    [max - tries]; [rc] and [ai] are the locals [rc] and [addrinfo]. *)
Fixpoint resolve_loop (w : world) (tcp : wget_tcp) (host : string) (port : Z)
    (max : nat) (todo : nat) (rc : Z) (ai : list addrinfo) (st : state)
    : loop_exit * state :=
  match todo with
  | O => (Fallthrough rc ai, st)
  | S todo' =>
      let tries := (max - todo)%nat in
      let attempt (st : state) : loop_exit * state :=
        let '((rc, ai), st) := _wget_tcp_resolve w tries st in
        if bool_decide (rc = 0) || negb (bool_decide (rc = EAI_AGAIN))
        then (Fallthrough rc ai, st)
        else
          let st :=
            if bool_decide (tries < max - 1)%nat
            then wget_millisleep w host port tries 100
                   (if caching tcp then emit EvUnlock st else st)
            else st in
          resolve_loop w tcp host port max todo' rc ai st in
      if caching tcp then
        match wget_dns_cache_get host port st with
        | (Some hit, st) => (Returned hit, st)
        | (None, st) =>
            let st := wget_thread_mutex_lock w host port tries st in
            match wget_dns_cache_get host port st with
            | (Some hit, st) => (Returned hit, emit EvUnlock st)
            | (None, st) => attempt st
            end
        end
      else attempt st
  end.

(** [wget_tcp_resolve]; the result is [None] for a NULL return. The statistics
    callback and the debug output do not change the result and are left out. *)
Definition wget_tcp_resolve (w : world) (tcp : wget_tcp) (host : string)
    (port : Z) (st : state) : option (list addrinfo) * state :=
  match resolve_loop w tcp host port 3 3 0 [] st with
  | (Returned ai, st) => (Some ai, st)
  | (Fallthrough rc ai, st) =>
      if bool_decide (rc ≠ 0) then
        (None, if caching tcp then emit EvUnlock st else st)
      else
        let ai :=
          if bool_decide (family tcp = AF_UNSPEC)
             && negb (bool_decide (preferred_family tcp = AF_UNSPEC))
          then _wget_sort_preferred ai (preferred_family tcp)
          else ai in
        if caching tcp then
          let '(ai, st) := wget_dns_cache_add host port ai st in
          (Some ai, emit EvUnlock st)
        else (Some ai, st)
  end.

(** The number of getaddrinfo(3) calls recorded in a trace. *)
Definition is_resolve (e : event) : bool :=
  match e with EvResolve _ => true | _ => false end.

Definition resolve_calls (t : list event) : nat :=
  length (filter (fun e => is_resolve e = true) t).

End Net.
(* ===================================================================== *)
(** * mget.c: the download quota and the persistence of a response *)
(* ===================================================================== *)

Module Persist.
Import Options.

Local Open Scope Z_scope.

(** Values of <fcntl.h> and <errno.h> (Linux). *)
Definition O_WRONLY : Z := 1.
Definition O_CREAT : Z := 64.
Definition O_EXCL : Z := 128.
Definition O_TRUNC : Z := 512.
Definition O_APPEND : Z := 1024.
Definition EEXIST : Z := 17.
Definition EACCES : Z := 13.

(** The fields of [MGET_HTTP_RESPONSE] that [_save_file] reads. The header
    buffer is kept only when the response was read with KEEPHEADER. *)
Record HTTP_RESPONSE := mk_response {
  header : option string;
  body : string;
  content_type : option string;
  last_modified : Z
}.

(** The file system as [_save_file] sees it: regular files by name, the bytes
    sent to standard output, and the names that cannot be opened for writing.
    open(2) fails with [EEXIST] or [EACCES] only, and a write(2) or fwrite(3)
    that starts writes all its bytes. *)
Record file := mk_file { data : string; mtime : option Z }.

Record filesystem := mk_fs {
  files : gmap string file;
  stdout : string;
  unwritable : gset string
}.

Record descriptor := mk_fd { fd_name : string; fd_flags : Z; fd_offset : nat }.

(** The global state: the quota counter, the file system, the exit status,
    and the number of bytes written so far (which is not a variable of the C
    code: it counts what write(2) and fwrite(3) were given). *)
Record state := mk_state {
  quota_used : Z;
  fsys : filesystem;
  exit_status : Z;
  bytes_written : Z
}.

Definition set_fsys (f : filesystem) (st : state) : state :=
  mk_state (quota_used st) f (exit_status st) (bytes_written st).

(** A value stored into a [long long]. *)
Definition wrap64 (z : Z) : Z := (z + 2 ^ 63) mod 2 ^ 64 - 2 ^ 63.

(** A value stored into a [size_t]. *)
Definition to_size_t (z : Z) : Z := z mod 2 ^ 64.

Definition set_exit_status (status : Z) (st : state) : state :=
  mk_state (quota_used st) (fsys st)
    (if negb (exit_status st =? 0)
     then (if status <? exit_status st then status else exit_status st)
     else status)
    (bytes_written st).

(** [quota_modify_read]: add to the quota counter and return its old value,
    in one step under the mutex. *)
Definition quota_modify_read (nbytes : Z) (st : state) : Z * state :=
  let old_quota := to_size_t (quota_used st) in
  (wrap64 old_quota,
   mk_state (wrap64 (to_size_t (quota_used st) + nbytes)) (fsys st)
     (exit_status st) (bytes_written st)).

(** open(2) with [O_CREAT]: the descriptor, or the error number. *)
Definition open (name : string) (flags : Z) (f : filesystem)
    : (descriptor + Z) * filesystem :=
  if decide (name ∈ unwritable f) then (inr EACCES, f)
  else
    match files f !! name with
    | Some old =>
        if negb (Z.land flags O_EXCL =? 0) then (inr EEXIST, f)
        else if negb (Z.land flags O_TRUNC =? 0)
        then (inl (mk_fd name flags 0),
              mk_fs (<[name := mk_file "" (mtime old)]> (files f)) (stdout f)
                (unwritable f))
        else (inl (mk_fd name flags 0), f)
    | None =>
        (inl (mk_fd name flags 0),
         mk_fs (<[name := mk_file "" None]> (files f)) (stdout f) (unwritable f))
    end.

(** write(2): at the end of the file with [O_APPEND], at the offset of the
    descriptor otherwise. *)
Definition write (d : descriptor) (s : string) (st : state) : descriptor * state :=
  let f := fsys st in
  let old := default (mk_file "" None) (files f !! fd_name d) in
  let off :=
    if negb (Z.land (fd_flags d) O_APPEND =? 0)
    then String.length (data old) else fd_offset d in
  let new :=
    CStr.take off (data old) +:+ s
      +:+ CStr.drop (off + String.length s) (data old) in
  (mk_fd (fd_name d) (fd_flags d) (off + String.length s),
   mk_state (quota_used st)
     (mk_fs (<[fd_name d := mk_file new (mtime old)]> (files f)) (stdout f)
        (unwritable f))
     (exit_status st)
     (bytes_written st + CStr.strlen s)).

(** fwrite(3) to [stdout]. *)
Definition fwrite_stdout (s : string) (st : state) : state :=
  let f := fsys st in
  mk_state (quota_used st)
    (mk_fs (files f) (stdout f +:+ s) (unwritable f))
    (exit_status st)
    (bytes_written st + CStr.strlen s).

(** [set_file_mtime]: futimens(2) on the descriptor. *)
Definition set_file_mtime (d : descriptor) (modified : Z) (st : state) : state :=
  let f := fsys st in
  let old := default (mk_file "" None) (files f !! fd_name d) in
  set_fsys
    (mk_fs (<[fd_name d := mk_file (data old) (Some modified)]> (files f))
       (stdout f) (unwritable f))
    st.

(** The [fname] argument of [_save_file]: NULL, the pointer
    [config.output_document] itself, or another string. The C code compares
    the pointers, not the strings. *)
Inductive fname_arg :=
  | NoName
  | OutputDocument
  | Name (s : string).

#[export] Instance fname_arg_eq_dec : EqDecision fname_arg.
Proof. solve_decision. Defined.

Section Persist.

Context (cfg : config).

Definition fname_string (fname : fname_arg) : option string :=
  match fname with
  | NoName => None
  | OutputDocument => output_document cfg
  | Name s => Some s
  end.

(** The number of bytes a response reserves on the quota:
    [config.save_headers ? resp->header->length + resp->body->length
                         : resp->body->length].
    [None] when the header is read although it was not kept. *)
Definition reserved_length (resp : HTTP_RESPONSE) : option Z :=
  if save_headers cfg
  then h ← header resp; Some (to_size_t (CStr.strlen h + CStr.strlen (body resp)))
  else Some (CStr.strlen (body resp)).

(** The header (when headers are saved), then the body, to a descriptor. *)
Definition write_response (d : descriptor) (resp : HTTP_RESPONSE) (st : state)
    : option (descriptor * state) :=
  '(d, st) ←
    (if save_headers cfg
     then h ← header resp; Some (write d h st)
     else Some (d, st));
  Some (write d (body resp) st).

(** The loop [for (fnum = 0; fnum < 999;)] of [_save_file], by recursion on
    [999 - fnum]. *)
Fixpoint save_loop (todo : nat) (fnum : Z) (fname : string) (flag : Z)
    (multiple : bool) (resp : HTTP_RESPONSE) (fd : descriptor + Z) (st : state)
    : option ((descriptor + Z) * Z * state) :=
  match todo with
  | O => Some (fd, fnum, st)
  | S todo' =>
      match fd with
      | inl d =>
          '(d, st) ← write_response d resp st;
          let st :=
            if negb (Z.land flag (Z.lor O_TRUNC O_EXCL) =? 0)
               && negb (last_modified resp =? 0)
            then set_file_mtime d (last_modified resp) st
            else st in
          Some (inl d, fnum, st)                                 (* close, break *)
      | inr errno =>
          if multiple && (errno =? EEXIST) then
            let fnum := fnum + 1 in
            let unique := fname +:+ "." +:+ pretty fnum in
            let '(fd, f) :=
              open unique (Z.lor (Z.lor O_WRONLY flag) O_CREAT) (fsys st) in
            save_loop todo' fnum fname flag multiple resp fd (set_fsys f st)
          else Some (fd, fnum, st)                               (* break *)
      end
  end.

(** [_save_file]. The result is [None] for a call in which the C code reads
    outside an object: the byte before an empty file name, or the header of
    a response whose header was not kept. *)
Definition _save_file (resp : HTTP_RESPONSE) (fname : fname_arg) (flag : Z)
    (st : state) : option state :=
  let oflag := flag in
  match (if spider cfg then None else fname_string fname) with
  | None => Some st
  | Some name =>
      let fname_length := String.length name in
      (* do not save into directories *)
      c ← CStr.last_char name;
      if Ascii.eqb c "/" then Some st else
      '(exceeded, st) ←
        (if negb (quota cfg =? 0)
         then
           nbytes ← reserved_length resp;
           let '(old, st) := quota_modify_read nbytes st in
           Some (quota cfg <=? old, st)
         else Some (false, st));
      if (exceeded : bool) then Some st else
      let to_stdout :=
        bool_decide (fname = OutputDocument) && (CStr.strcmp name "-" =? 0) in
      if to_stdout then
        st ← (if save_headers cfg
              then h ← header resp; Some (fwrite_stdout h st)
              else Some st);
        Some (fwrite_stdout (body resp) st)
      else if bool_decide (fname = OutputDocument) && delete_after cfg then Some st
      else
        let flag := if bool_decide (fname = OutputDocument) then O_APPEND else flag in
        let ext :=
          if adjust_extension cfg then
            match content_type resp with
            | Some ct =>
                if CStr.strcasecmp ct "text/html" =? 0 then Some ".html"%string
                else if CStr.strcasecmp ct "text/css" =? 0 then Some ".css"%string
                else None
            | None => None
            end
          else None in
        let name :=
          match ext with
          | Some ext =>
              let ext_length := String.length ext in
              if bool_decide (ext_length ≤ fname_length)%nat
                 && negb (CStr.strcasecmp
                            (CStr.drop (fname_length - ext_length) name) ext =? 0)
              then name +:+ ext else name
          | None => name
          end in
        let '(flag, multiple) :=
          if timestamping cfg then
            (if oflag =? O_TRUNC then O_TRUNC else flag, false)
          else if negb (clobber cfg) || (recursive cfg && directories cfg) then
            (if (oflag =? O_TRUNC) && negb (recursive cfg && directories cfg)
             then O_EXCL else flag, false)
          else if negb (flag =? O_APPEND) then (O_EXCL, true)
          else (flag, false) in
        let '(fd, f) :=
          open name (Z.lor (Z.lor O_WRONLY flag) O_CREAT) (fsys st) in
        '(fd, fnum, st) ←
          save_loop 999 0 name flag multiple resp fd (set_fsys f st);
        match fd with
        | inl _ => Some st
        | inr errno =>
            if (errno =? EEXIST) && (fnum <? 999) then Some st
            else Some (set_exit_status 3 st)
        end
  end.

(** [save_file] and [append_file]. *)
Definition save_file (resp : HTTP_RESPONSE) (fname : fname_arg) (st : state)
    : option state :=
  _save_file resp fname O_TRUNC st.

Definition append_file (resp : HTTP_RESPONSE) (fname : fname_arg) (st : state)
    : option state :=
  _save_file resp fname O_APPEND st.

(** The responses of a run, persisted one after the other, each with the
    file name and the flag its caller chose. *)
Fixpoint save_all (rs : list (HTTP_RESPONSE * fname_arg * Z)) (st : state)
    : option state :=
  match rs with
  | [] => Some st
  | (resp, fname, flag) :: rs => st ← _save_file resp fname flag st; save_all rs st
  end.

End Persist.

End Persist.

(* ===================================================================== *)
(** * mget.c: admission of URLs to the job queue *)
(* ===================================================================== *)

Module Admission.
Import Iri Options.

Local Open Scope Z_scope.

Definition URL_FLG_REDIRECTION : Z := Z.shiftl 1 0.
Definition URL_FLG_SITEMAP : Z := Z.shiftl 1 1.

(** [flags & bit], as a test. *)
Definition has_flag (flags bit : Z) : bool := negb (Z.land flags bit =? 0).

(** A host is known by scheme, name and port. *)
Definition host_key : Type := iri_scheme * option string * Z.

Definition key_of (iri : IRI) : host_key := (scheme iri, host iri, resolv_port iri).

(** A [JOB]. Jobs live in the queue and are referred to by their position in
    it, which stands for the [JOB *] of the C code; [iri] is an option since
    [add_url] resets [job->iri] to NULL. [bound] is not a field of the C
    structure: it records the URL the job was enqueued for, which no
    assignment changes. *)
Record JOB := mk_job {
  bound : IRI;
  iri : option IRI;
  level : Z;
  redirection_level : Z;
  referer : option IRI;
  local_filename : option string;
  sitemap : bool;
  deferred : option (list IRI);
  job_host : option host_key
}.

Record ROBOTS_PATH := mk_robots_path { rpath : string; rlen : nat }.

Record HOST := mk_host {
  robot_job : option nat;
  host_robots : option (list ROBOTS_PATH)
}.

(** The global state that admission reads and writes under
    [downloader_mutex]: the blacklist, the job queue, the hosts, the accepted
    domains, the parents, and the number of signals sent to [worker_cond]. *)
Record state := mk_state {
  blacklist : gset string;
  queue : list JOB;
  hosts : gmap host_key HOST;
  domains : gset string;
  parents : list IRI;
  worker_signals : nat
}.

Definition initial_state : state := mk_state ∅ [] ∅ ∅ [] 0.

Definition set_blacklist (b : gset string) (st : state) : state :=
  mk_state b (queue st) (hosts st) (domains st) (parents st) (worker_signals st).
Definition set_queue (q : list JOB) (st : state) : state :=
  mk_state (blacklist st) q (hosts st) (domains st) (parents st) (worker_signals st).
Definition set_hosts (h : gmap host_key HOST) (st : state) : state :=
  mk_state (blacklist st) (queue st) h (domains st) (parents st) (worker_signals st).
Definition set_domains (d : gset string) (st : state) : state :=
  mk_state (blacklist st) (queue st) (hosts st) d (parents st) (worker_signals st).
Definition set_parents (p : list IRI) (st : state) : state :=
  mk_state (blacklist st) (queue st) (hosts st) (domains st) p (worker_signals st).
Definition mget_thread_cond_signal (st : state) : state :=
  mk_state (blacklist st) (queue st) (hosts st) (domains st) (parents st)
    (S (worker_signals st)).

(** Assignments through a [JOB *]. *)
Definition update_job (j : nat) (f : JOB → JOB) (st : state) : state :=
  set_queue (alter f j (queue st)) st.

Definition with_iri (v : option IRI) (b : JOB) : JOB :=
  mk_job (bound b) v (level b) (redirection_level b) (referer b) (local_filename b)
    (sitemap b) (deferred b) (job_host b).
Definition with_level (v : Z) (b : JOB) : JOB :=
  mk_job (bound b) (iri b) v (redirection_level b) (referer b) (local_filename b)
    (sitemap b) (deferred b) (job_host b).
Definition with_redirection_level (v : Z) (b : JOB) : JOB :=
  mk_job (bound b) (iri b) (level b) v (referer b) (local_filename b)
    (sitemap b) (deferred b) (job_host b).
Definition with_referer (v : option IRI) (b : JOB) : JOB :=
  mk_job (bound b) (iri b) (level b) (redirection_level b) v (local_filename b)
    (sitemap b) (deferred b) (job_host b).
Definition with_local_filename (v : option string) (b : JOB) : JOB :=
  mk_job (bound b) (iri b) (level b) (redirection_level b) (referer b) v
    (sitemap b) (deferred b) (job_host b).
Definition with_sitemap (v : bool) (b : JOB) : JOB :=
  mk_job (bound b) (iri b) (level b) (redirection_level b) (referer b) (local_filename b)
    v (deferred b) (job_host b).
Definition with_deferred (v : option (list IRI)) (b : JOB) : JOB :=
  mk_job (bound b) (iri b) (level b) (redirection_level b) (referer b) (local_filename b)
    (sitemap b) v (job_host b).
Definition with_job_host (v : option host_key) (b : JOB) : JOB :=
  mk_job (bound b) (iri b) (level b) (redirection_level b) (referer b) (local_filename b)
    (sitemap b) (deferred b) v.

Section Admission.

(** The URL library, the options, and [get_local_filename]. The latter is
    the function of mget.c that derives the file name of a URL; its result
    depends on the path functions of libmget and it creates directories,
    neither of which admission looks at, so it is taken as given. *)
Context (L : libmget) (cfg : config) (get_local_filename : IRI → option string).

(** Modelled from the spec: [blacklist_add] is defined in the blacklist source,
    which is not among the modelled files. "add(url) returning true on first
    insertion", keyed by the canonical form without the fragment; the C
    function returns its argument, or NULL when the URL was already there. *)
Definition blacklist_add (i : IRI) (st : state) : option IRI * state :=
  if decide (canonical L i ∈ blacklist st) then (None, st)
  else (Some i, set_blacklist ({[canonical L i]} ∪ blacklist st) st).

(** Modelled from the spec: [queue_add] is defined in the job source, which is
    not among the modelled files. It appends a fresh Job bound to the URL, at
    recursion depth 0, and returns it; for a NULL argument it returns NULL. *)
Definition queue_add (i : option IRI) (st : state) : option nat * state :=
  match i with
  | None => (None, st)
  | Some i =>
      (Some (length (queue st)),
       set_queue (queue st ++ [mk_job i (Some i) 0 0 None None false None None]) st)
  end.

(** Modelled from the spec: [hosts_add] is defined in the host source, which
    is not among the modelled files. "add(url) atomically inserts by
    (scheme, host, port)"; the C function returns the new entry, or NULL when
    the host was already known. *)
Definition hosts_add (i : IRI) (st : state) : option host_key * state :=
  match hosts st !! key_of i with
  | Some _ => (None, st)
  | None =>
      (Some (key_of i), set_hosts (<[key_of i := mk_host None None]> (hosts st)) st)
  end.

(** Modelled from the spec: [hosts_get] is defined in the host source, which
    is not among the modelled files. It is the entry of the host of a URL,
    by (scheme, host, port), or NULL. *)
Definition hosts_get (i : IRI) (st : state) : option HOST :=
  hosts st !! key_of i.

Definition set_robot_job (k : host_key) (j : option nat) (st : state) : state :=
  set_hosts (alter (λ h, mk_host j (host_robots h)) k (hosts st)) st.

(** [mget_vector_add_noalloc(job->deferred, iri)] through a job pointer; the
    result is [None] when the pointer or the vector is not valid. *)
Definition defer_on (j : nat) (i : IRI) (st : state) : option state :=
  b ← queue st !! j;
  d ← deferred b;
  Some (update_job j (with_deferred (Some (d ++ [i]))) st).

(** The robots.txt job of a new host, with the URL that caused it deferred:
    the four assignments that follow [hosts_add] in both admission functions. *)
Definition add_robot_job (k : host_key) (i : IRI) (st : state)
    : option (nat * state) :=
  match queue_add (mget_iri_parse_base L (Some i) "/robots.txt") st with
  | (None, _) => None (* job->host = host with job == NULL *)
  | (Some j, st) =>
      let st := update_job j (with_job_host (Some k)) st in
      let st := set_robot_job k (Some j) st in
      let st := update_job j (with_deferred (Some [])) st in
      st ← defer_on j i st;
      Some (j, st)
  end.

(** The length of the directory part of a path, the last '/' included. *)
Definition dir_length (p : option string) : Z :=
  match p with
  | None => 0
  | Some p =>
      match CStr.strrchr p "/"%char with
      | None => 0
      | Some i => Z.of_nat i + 1
      end
  end.

Definition with_dirlen (i : IRI) (n : Z) : IRI :=
  mk_iri (uri i) (scheme i) (host i) (resolv_port i) (path i) n.

(** [add_url_to_queue]: URLs given by the user. The result is the job
    returned and the new state; [None] stands for a run in which the C code
    dereferences NULL. *)
Definition add_url_to_queue (url : string) (base : option IRI) (st : state)
    : option (option nat * state) :=
  match mget_iri_parse_base L base url with
  | None => Some (None, st)
  | Some i =>
      match blacklist_add i st with
      | (None, st) => Some (None, st)
      | (Some _, st) =>
          '(job, st) ←
            (if recursive cfg then
               st ← (if negb (span_hosts cfg) then
                       h ← host i;
                       Some (if decide (h ∈ exclude_domains cfg) then st
                             else set_domains ({[h]} ∪ domains st) st)
                     else Some st);
               '(job, st) ←
                 (if robots cfg then
                    match hosts_add i st with
                    | (Some k, st) =>
                        '(j, st) ← add_robot_job k i st; Some (Some j, st)
                    | (None, st) =>
                        match hosts_get i st with
                        | Some h =>
                            match robot_job h with
                            | Some j => st ← defer_on j i st; Some (Some j, st)
                            | None => Some (None, st)
                            end
                        | None => Some (None, st)
                        end
                    end
                  else Some (None, st));
               let st :=
                 if negb (parent cfg)
                 then set_parents (parents st ++ [with_dirlen i (dir_length (path i))]) st
                 else st in
               Some (job, st)
             else Some (None, st));
          '(job, st) ←
            match job with
            | Some j => Some (j, st)
            | None =>
                match queue_add (Some i) st with
                | (Some j, st) => Some (j, st)
                | (None, _) => None
                end
            end;
          b ← queue st !! job;
          fname ←
            match deferred b with
            | None => Some (get_local_filename i)
            | Some _ => ji ← iri b; Some (get_local_filename ji)
            end;
          Some (Some job, update_job job (with_local_filename fname) st)
      end
  end.

(** "see if at least one parent matches": the loop over [parents] of
    [add_url]. The result is [None] when strcmp or strncmp is reached with a
    NULL argument. *)
Fixpoint parent_matches (ps : list IRI) (i : IRI) : option bool :=
  match ps with
  | [] => Some false
  | p :: rest =>
      ph ← host p; ih ← host i;
      if CStr.strcmp ph ih =? 0 then
        if dirlen p =? 0 then Some true
        else
          pp ← path p; ip ← path i;
          if CStr.strncmp pp ip (Z.to_nat (dirlen p)) =? 0 then Some true
          else parent_matches rest i
      else parent_matches rest i
  end.

(** The loop over [host->robots->paths]: is some disallowed path a prefix? *)
Fixpoint robots_disallowed (paths : list ROBOTS_PATH) (p : string) : bool :=
  match paths with
  | [] => false
  | r :: rest =>
      if CStr.strncmp (rpath r) p (rlen r) =? 0 then true
      else robots_disallowed rest p
  end.

(** Where the robots block of [add_url] leaves the function. *)
Inductive robots_flow :=
  | Leave (st : state)                      (* [return] *)
  | Proceed (new_job : option nat) (st : state).

(** The block guarded by [new_job || (new_job = queue_add(blacklist_add(iri)))],
    for the job [nj] that was enqueued. *)
Definition set_up_job (job : option nat) (flags : Z) (nj : nat) (st : state)
    : option state :=
  st ←
    (match output_document cfg with
     | None =>
         if negb (has_flag flags URL_FLG_REDIRECTION) || trust_server_names cfg
            || bool_decide (job = None)
         then
           nb ← queue st !! nj; ni ← iri nb;
           Some (update_job nj (with_local_filename (get_local_filename ni)) st)
         else
           j ← job; pj ← queue st !! j;
           Some (update_job nj (with_local_filename (local_filename pj)) st)
     | Some _ => Some st
     end);
  st ←
    (match job with
     | Some j =>
         pj ← queue st !! j;
         if has_flag flags URL_FLG_REDIRECTION then
           let st := update_job nj (with_redirection_level (redirection_level pj + 1)) st in
           Some (update_job nj (with_referer (referer pj)) st)
         else
           let st := update_job nj (with_level (level pj + 1)) st in
           let st := update_job nj (with_referer (iri pj)) st in
           Some (update_job j (with_iri None) st)
     | None => Some st
     end);
  let st :=
    if has_flag flags URL_FLG_SITEMAP then update_job nj (with_sitemap true) st
    else st in
  Some (mget_thread_cond_signal st).

(** [add_url]: URLs found in documents, in redirections and in robots.txt.
    [job] is the job whose response named the URL, or NULL. The result is
    [None] for a run in which the C code dereferences NULL. *)
Definition add_url (job : option nat) (url : string) (flags : Z) (st : state)
    : option state :=
  stop ←
    (if has_flag flags URL_FLG_REDIRECTION then
       match job with
       | Some j =>
           pj ← queue st !! j;
           Some (negb (max_redirect cfg =? 0)
                 && (max_redirect cfg <=? redirection_level pj))
       | None => Some false
       end
     else Some false);
  if (stop : bool) then Some st else
  match mget_iri_parse L url with
  | None => Some st
  | Some i =>
      if https_only cfg && negb (bool_decide (scheme i = IRI_SCHEME_HTTPS))
      then Some st
      else
        ok ← (if recursive cfg && negb (parent cfg)
              then parent_matches (parents st) i else Some true);
        if negb ok then Some st else
        if recursive cfg && negb (span_hosts cfg)
           && match host i with
              | None => true                               (* missing host *)
              | Some h =>
                  if decide (h ∈ domains st)
                  then bool_decide (h ∈ exclude_domains cfg)  (* excluded *)
                  else true                                  (* not spanning *)
              end
        then Some st
        else
          flow ←
            (if recursive cfg && robots cfg then
               match hosts_add i st with
               | (Some k, st) =>
                   '(j, st) ← add_robot_job k i st; Some (Proceed (Some j) st)
               | (None, st) =>
                   match hosts_get i st with
                   | Some h =>
                       match robot_job h with
                       | Some j => st ← defer_on j i st; Some (Leave st)
                       | None =>
                           match host_robots h, path i with
                           | Some paths, Some p =>
                               if robots_disallowed paths p
                               then Some (Leave st) else Some (Proceed None st)
                           | _, _ => Some (Proceed None st)
                           end
                       end
                   | None => Some (Proceed None st)
                   end
               end
             else Some (Proceed None st));
          match flow with
          | Leave st => Some st
          | Proceed (Some nj) st => set_up_job job flags nj st
          | Proceed None st =>
              let '(added, st) := blacklist_add i st in
              match queue_add added st with
              | (Some nj, st) => set_up_job job flags nj st
              | (None, st) => Some st
              end
          end
  end.

(** A run of admissions: the seeds go through [add_url_to_queue], what the
    workers find goes through [add_url]. *)
Inductive call :=
  | Seed (url : string) (base : option IRI)
  | Found (job : option nat) (url : string) (flags : Z).

Definition submit (c : call) (st : state) : option state :=
  match c with
  | Seed url base => snd <$> add_url_to_queue url base st
  | Found job url flags => add_url job url flags st
  end.

Fixpoint run (cs : list call) (st : state) : option state :=
  match cs with
  | [] => Some st
  | c :: cs => st ← submit c st; run cs st
  end.

End Admission.

(** The jobs of the queue that are not robots.txt jobs (those have a vector
    of deferred URLs), by the canonical form of the URL they were enqueued
    for. *)
Definition is_plain (b : JOB) : bool := bool_decide (deferred b = None).

Definition plain_urls (L : libmget) (q : list JOB) : list string :=
  canonical L ∘ bound <$> filter (λ b, is_plain b = true) q.

End Admission.
(* ===================================================================== *)
(** * mget.c: URLs found in sitemaps *)
(* ===================================================================== *)

Module Sitemap.
Import Iri.

Local Open Scope Z_scope.

(** One call of the callback that the XML parser of libmget makes: the flags,
    the path of the element, and the text ([val], of length [len]). *)
Record xml_event := mk_xml_event { xml_flags : Z; xml_dir : string; xml_val : string }.

(** [struct sitemap_context]: the URLs of sitemap indexes and of pages. *)
Record sitemap_context := mk_context {
  sitemap_urls : list string;
  urls : list string
}.

(** "skip leading spaces" and "skip trailing spaces". *)
Fixpoint skip_leading (s : string) : string :=
  match s with
  | String c r => if CStr.isspace c then skip_leading r else s
  | EmptyString => s
  end.

Fixpoint skip_trailing (s : string) : string :=
  match s with
  | EmptyString => EmptyString
  | String c r =>
      match skip_trailing r with
      | EmptyString => if CStr.isspace c then EmptyString else String c EmptyString
      | r' => String c r'
      end
  end.

Definition trim (s : string) : string := skip_trailing (skip_leading s).

(** The lines of a text as the loop of [sitemap_parse_text] visits them. *)
Fixpoint text_lines_from (s : string) (line : string) : list string :=
  match s with
  | EmptyString => [line]
  | String c r =>
      if Ascii.eqb c "010" then line :: text_lines_from r EmptyString
      else text_lines_from r (line +:+ String c EmptyString)
  end.

Definition text_lines (data : string) : list string :=
  match data with
  | EmptyString => []
  | _ => text_lines_from data EmptyString
  end.

Section Sitemap.

(** The XML parser of libmget with the value of its content flag, and the
    state [S] that [add_url job encoding url flags] works on. The job and the
    encoding are handed through to [add_url] unchanged and are left out. *)
Context (XML_FLG_CONTENT : Z) (mget_xml_parse_buffer : string → list xml_event).
Context {S : Type} (add_url : string → Z → S → S).

Definition _sitemap_get_url (ctx : sitemap_context) (e : xml_event)
    : sitemap_context :=
  if negb (Z.land (xml_flags e) XML_FLG_CONTENT =? 0)
     && negb (String.length (xml_val e) =? 0)%nat
  then
    let type :=
      if CStr.strcasecmp (xml_dir e) "/sitemapindex/sitemap/loc" =? 0 then 1
      else if CStr.strcasecmp (xml_dir e) "/urlset/url/loc" =? 0 then 2
      else 0 in
    if type =? 0 then ctx
    else
      let url := trim (xml_val e) in
      if type =? 1
      then mk_context (sitemap_urls ctx ++ [url]) (urls ctx)
      else mk_context (sitemap_urls ctx) (urls ctx ++ [url])
  else ctx.

Definition mget_sitemap_get_urls_inline (sitemap : string) : sitemap_context :=
  foldl _sitemap_get_url (mk_context [] []) (mget_xml_parse_buffer sitemap).

(** The length of the location of a sitemap: its URL up to the last '/'. *)
Definition base_length (base : option IRI) : nat :=
  match base with
  | Some b =>
      match CStr.strrchr (uri b) "/" with
      | Some p => (p + 1)%nat
      | None => String.length (uri b)
      end
  | None => 0%nat
  end.

(** The test that sends a URL of a sitemap to "not matching sitemap location":
    [baselen && (url->len <= baselen || !strncasecmp(url->p, base->uri, baselen))]. *)
Definition not_matching_location (base : option IRI) (url : string) : bool :=
  let baselen := base_length base in
  negb (baselen =? 0)%nat
  && ((String.length url <=? baselen)%nat
      || (CStr.strncasecmp url (from_option uri EmptyString base) baselen =? 0)).

(** The global set [known_urls] with the state of [add_url]. *)
Definition sitemap_state : Type := gset string * S.

(** [mget_hashmap_put_noalloc(known_urls, url, NULL)]: true when the URL was
    already known. *)
Definition known_put (url : string) (st : sitemap_state) : bool * sitemap_state :=
  if decide (url ∈ st.1) then (true, st) else (false, ({[url]} ∪ st.1, st.2)).

Definition page_url (base : option IRI) (st : sitemap_state) (url : string)
    : sitemap_state :=
  if not_matching_location base url then st
  else
    match known_put url st with
    | (true, st) => st
    | (false, st) => (st.1, add_url url 0 st.2)
    end.

Definition index_url (st : sitemap_state) (url : string) : sitemap_state :=
  match known_put url st with
  | (true, st) => st
  | (false, st) => (st.1, add_url url Admission.URL_FLG_SITEMAP st.2)
  end.

Definition sitemap_parse_xml (data : string) (base : option IRI)
    (st : sitemap_state) : sitemap_state :=
  let ctx := mget_sitemap_get_urls_inline data in
  let st := foldl (page_url base) st (urls ctx) in
  foldl index_url st (sitemap_urls ctx).

Definition text_line (base : option IRI) (st : sitemap_state) (line : string)
    : sitemap_state :=
  let url := trim line in
  if (String.length url =? 0)%nat then st
  else if not_matching_location base url then st
  else (st.1, add_url url 0 st.2).

Definition sitemap_parse_text (data : string) (base : option IRI)
    (st : sitemap_state) : sitemap_state :=
  foldl (text_line base) st (text_lines data).

End Sitemap.

End Sitemap.

(* ===================================================================== *)
(** * mget.c: one HTTP transaction of a worker *)
(* ===================================================================== *)

Module Http.
Import Iri.

Local Open Scope Z_scope.

(** A [PART] of a metalink job. *)
Record PART := mk_part {
  part_id : Z;
  position : Z;
  length : Z;
  done : bool;
  inuse : bool
}.

Record CHALLENGE := mk_challenge { auth_scheme : string; realm : string }.

(** What the model keeps of a request: the method, the URL, the challenge the
    Authorization header answers, and the Range of a part. The other headers
    (Range and If-Modified-Since of the local file, Accept, User-Agent,
    Connection, Pragma, Referer, Cookie) have no part in the control flow of
    [http_get] and are left out. *)
Record REQUEST := mk_request {
  method : string;
  req_iri : IRI;
  authorization : option CHALLENGE;
  range : option (Z * Z)
}.

Record RESPONSE := mk_response {
  code : Z;
  challenges : option (list CHALLENGE);
  location : option string;
  links : bool;      (* resp->links != NULL *)
  digests : bool;    (* resp->digests != NULL *)
  keep_alive : bool;
  body_length : option Z   (* resp->body->length, when there is a body *)
}.

Record CONNECTION := mk_connection {
  esc_host : option string;
  conn_scheme : iri_scheme;
  conn_port : Z
}.

(** The network: [http_open] gives the connection to the host of a URL, or
    NULL; [exchange n req] is the response to the [n]-th request of a call
    ([http_send_request] followed by [http_get_response]), or NULL. *)
Record network := mk_network {
  http_open : IRI → option CONNECTION;
  exchange : nat → REQUEST → option RESPONSE
}.

(** "Prefer 'Digest' over 'Basic'": the loop over the challenges of
    [http_get], with its [break]. *)
Fixpoint select_challenge_loop (cs : list CHALLENGE) (selected : option CHALLENGE)
    : option CHALLENGE :=
  match cs with
  | [] => selected
  | challenge :: rest =>
      if negb (CStr.strcasecmp (auth_scheme challenge) "digest" =? 0)
      then Some challenge                                            (* break *)
      else if negb (CStr.strcasecmp (auth_scheme challenge) "basic" =? 0)
      then select_challenge_loop rest
             (match selected with None => Some challenge | Some _ => selected end)
      else select_challenge_loop rest selected
  end.

Definition select_challenge (cs : list CHALLENGE) : option CHALLENGE :=
  select_challenge_loop cs None.

(** What [http_get] leaves behind: the response it returns (or NULL), the
    connection of the worker, the requests it sent, and the state of
    [add_url]. *)
Record outcome (S : Type) := mk_outcome {
  response : option RESPONSE;
  connection : option CONNECTION;
  requests : list REQUEST;
  admission : S
}.

Arguments mk_outcome {S}.
Arguments response {S}.
Arguments connection {S}.
Arguments requests {S}.
Arguments admission {S}.

Section Http.

Context (L : libmget) (net : network).
Context {S : Type} (add_url : string → Z → S → S).

Definition reusable (conn : option CONNECTION) (i : IRI) : bool :=
  match conn with
  | Some c =>
      bool_decide (esc_host c = host i) && bool_decide (conn_scheme c = scheme i)
      && (conn_port c =? resolv_port i)
  | None => false
  end.

Definition http_create_request (i : IRI) (method_get : bool)
    (challenges : option (list CHALLENGE)) (part : option PART) : REQUEST :=
  mk_request (if method_get then "GET" else "HEAD") i
    (match challenges with
     | Some cs => select_challenge cs
     | None => None
     end)
    (match part with
     | Some p => Some (position p, position p + length p - 1)
     | None => None
     end).

(** The loop [while (iri)] of [http_get]; [n] counts the requests sent. The
    loop has no bound of its own (a server may answer 3xx without Location
    for ever), so the model takes a number of turns and gives [None] when
    they do not suffice. *)
Fixpoint http_get_loop (turns : nat) (n : nat) (iri : option IRI)
    (challenges : option (list CHALLENGE)) (part : option PART)
    (method_get : bool) (conn : option CONNECTION) (reqs : list REQUEST) (s : S)
    : option (outcome S) :=
  match turns with
  | O => None
  | Datatypes.S turns =>
      match iri with
      | None => Some (mk_outcome None conn reqs s)
      | Some i =>
          let conn := if reusable conn i then conn else http_open net i in
          match conn with
          | None => Some (mk_outcome None None reqs s)
          | Some _ =>
              let req := http_create_request i method_get challenges part in
              let reqs := reqs ++ [req] in
              match exchange net n req with
              | None => Some (mk_outcome None None reqs s)
              | Some resp =>
                  let conn := if keep_alive resp then conn else None in
                  if (code resp =? 302) && links resp && digests resp
                  then Some (mk_outcome (Some resp) conn reqs s)
                  else if (code resp =? 401) && bool_decide (challenges = None)
                  then
                    match Http.challenges resp with
                    | Some cs =>           (* try again with credentials *)
                        http_get_loop turns (Datatypes.S n) iri (Some cs) part
                          method_get conn reqs s
                    | None => Some (mk_outcome (Some resp) conn reqs s)
                    end
                  else if (code resp / 100 =? 2) || (4 <=? code resp / 100)
                          || (code resp =? 304)
                  then Some (mk_outcome (Some resp) conn reqs s)
                  else
                    match location resp with
                    | Some loc =>
                        let uri_buf :=
                          default EmptyString
                            (mget_iri_relative_to_abs L (Some i) loc) in
                        match part with
                        | None =>
                            Some (mk_outcome (Some resp) conn reqs
                                    (add_url uri_buf Admission.URL_FLG_REDIRECTION s))
                        | Some _ =>        (* directly follow when using metalink *)
                            http_get_loop turns (Datatypes.S n)
                              (mget_iri_parse L uri_buf) challenges part
                              method_get conn reqs s
                        end
                    | None =>
                        http_get_loop turns (Datatypes.S n) iri challenges part
                          method_get conn reqs s
                    end
              end
          end
      end
  end.

Definition http_get (turns : nat) (iri : IRI) (part : option PART)
    (conn : option CONNECTION) (method_get : bool) (s : S) : option (outcome S) :=
  http_get_loop turns 0 (Some iri) None part method_get conn [] s.

End Http.

End Http.

(* ===================================================================== *)
(** * mget.c: the download of one part of a metalink job *)
(* ===================================================================== *)

Module Metalink.
Import Iri Http.

Local Open Scope Z_scope.

Record MIRROR := mk_mirror { mirror_iri : IRI }.

(** What a call of [download_part] does that others can observe. *)
Inductive event :=
  | EvTry (mirror_index : Z)          (* http_get on this mirror *)
  | EvPwrite (pos len : Z)            (* a pwrite that wrote all its bytes *)
  | EvLock
  | EvCheckParts (all_done : bool)    (* the outcome of the loop over job->parts *)
  | EvUnlock
  | EvValidate (ok : bool)            (* the answer of job_validate_file *)
  | EvQueueDel
  | EvSignalMain.

#[export] Instance event_eq_dec : EqDecision event.
Proof. solve_decision. Defined.

(** The job of a worker with the rest of the state the function touches:
    [parts] is [job->parts], [queued] tells whether the job is in the queue. *)
Record state := mk_state {
  parts : list PART;
  queued : bool;
  exit_status : Z;
  trace : list event
}.

Definition emit (e : event) (st : state) : state :=
  mk_state (parts st) (queued st) (exit_status st) (trace st ++ [e]).

Definition set_parts (ps : list PART) (st : state) : state :=
  mk_state ps (queued st) (exit_status st) (trace st).

Definition set_exit_status (status : Z) (st : state) : state :=
  mk_state (parts st) (queued st)
    (if negb (exit_status st =? 0)
     then (if status <? exit_status st then status else exit_status st)
     else status)
    (trace st).

(** Modelled from the spec: [queue_del] is defined in the job source, which is
    not among the modelled files; "remove(job) detaches" the job. *)
Definition queue_del (st : state) : state :=
  emit EvQueueDel (mk_state (parts st) false (exit_status st) (trace st)).

(** Modelled from the spec: [job_validate_file] is defined in the job source,
    which is not among the modelled files. It is "the full-file checksum",
    run on the file on disk; its answer is the environment's. *)
Definition job_validate_file (validates : bool) (st : state) : bool * state :=
  (validates, emit (EvValidate validates) st).

Definition with_done (v : bool) (p : PART) : PART :=
  mk_part (part_id p) (position p) (length p) v (inuse p).
Definition with_inuse (v : bool) (p : PART) : PART :=
  mk_part (part_id p) (position p) (length p) (done p) v.

(** The environment of one call. [http_get k mirror part] is the response to
    the [k]-th attempt (the function [http_get] of mget.c, run against the
    network); [open_ok k] and [pwrite_ok k] tell whether open(2) and pwrite(2)
    succeed in that attempt; [validates] tells whether the checksum of the
    file on disk is right once all parts are written. *)
Record world := mk_world {
  http_get : nat → MIRROR → PART → option RESPONSE;
  open_ok : nat → bool;
  pwrite_ok : nat → bool;
  validates : bool
}.

Section Metalink.

Context (w : world) (mirrors : list MIRROR).

(** The body of the loop behind [http_get]: does this attempt set
    [part->done]? And does it fail to open the file? *)
Definition attempt_writes (k : nat) (mirror : MIRROR) (part : PART) : bool :=
  match http_get w k mirror part with
  | Some msg =>
      ((code msg =? 200) || (code msg =? 206))
      && match body_length msg with
         | Some len => (len =? length part) && open_ok w k && pwrite_ok w k
         | None => false
         end
  | None => false
  end.

Definition attempt_open_fails (k : nat) (mirror : MIRROR) (part : PART) : bool :=
  match http_get w k mirror part with
  | Some msg =>
      ((code msg =? 200) || (code msg =? 206))
      && match body_length msg with
         | Some len => (len =? length part) && negb (open_ok w k)
         | None => false
         end
  | None => false
  end.

(** [for (tries = 0; tries < mget_vector_size(metalink->mirrors) && !part->done;
    tries++)], by recursion on the number of mirrors not tried yet. [pi] is
    the position of the part in [job->parts]. The result is [None] when the
    mirror or the part is not there. *)
Fixpoint mirror_loop (todo : nat) (tries : nat) (mirror_index : Z) (pi : nat)
    (st : state) : option state :=
  match todo with
  | O => Some st
  | S todo' =>
      part ← parts st !! pi;
      if done part then Some st
      else
        mirror ←
          (if mirror_index <? 0 then None
           else mirrors !! Z.to_nat mirror_index);
        let st := emit (EvTry mirror_index) st in
        let mirror_index :=
          Z.rem (mirror_index + 1) (Z.of_nat (List.length mirrors)) in
        let st :=
          if attempt_writes tries mirror part
          then emit (EvPwrite (position part) (length part))
                 (set_parts (alter (with_done true) pi (parts st)) st)
          else if attempt_open_fails tries mirror part
          then set_exit_status 3 st
          else st in
        mirror_loop todo' (S tries) mirror_index pi st
  end.

(** [download_part] for the worker [id] and the part at position [pi]. The
    result is [None] when there is no mirror (the C code divides by zero) or
    the part is not there. *)
Definition download_part (id : Z) (pi : nat) (st : state) : option state :=
  let n := Z.of_nat (List.length mirrors) in
  if n =? 0 then None else
  let mirror_index := Z.rem id n in
  st ← mirror_loop (List.length mirrors) 0 mirror_index pi st;
  part ← parts st !! pi;
  if done part then
    (* check if all parts are done *)
    let st := emit EvLock st in
    let all_done := forallb done (parts st) in
    let st := emit EvUnlock (emit (EvCheckParts all_done) st) in
    if all_done then
      (* check integrity of complete file *)
      let '(ok, st) := job_validate_file (validates w) st in
      if ok then Some (emit EvSignalMain (queue_del st))
      else Some st
    else Some st
  else
    Some (set_parts (alter (with_inuse false) pi (parts st)) st).

(** The mirrors tried, in order. *)
Definition tried (t : list event) : list Z :=
  omap (λ e, match e with EvTry i => Some i | _ => None end) t.

End Metalink.

End Metalink.


(* ===================================================================== *)
(** * mget.c: one turn of a worker *)
(* ===================================================================== *)

Module Worker.
Import Iri Options.

Local Open Scope Z_scope.

(** The relation of a Link header; the code asks for two values only. *)
Inductive link_rel := link_rel_describedby | link_rel_duplicate | link_rel_other.

#[export] Instance link_rel_eq_dec : EqDecision link_rel.
Proof. solve_decision. Defined.

Record HTTP_LINK := mk_link {
  rel : link_rel;
  link_type : option string;
  link_uri : string;
  pri : Z
}.

(** The fields of [MGET_HTTP_RESPONSE] that [downloader_thread] reads. *)
Record RESPONSE := mk_response {
  code : Z;
  content_type : option string;
  content_type_encoding : option string;
  content_filename : option string;
  content_length : Z;
  etag : option string;
  links : option (list HTTP_LINK);
  body : string
}.

(** A metalink description. The structures are those of libmget; the numbers
    are kept as the values assigned to them. *)
Record PIECE := mk_piece { piece_position : Z; piece_length : Z }.

Record METALINK := mk_metalink {
  size : Z;
  name : option string;
  pieces : list PIECE;
  mirrors : option (list Metalink.MIRROR)
}.

(** What the model keeps of a parsed robots.txt: the sitemaps it names. *)
Record ROBOTS := mk_robots { sitemaps : list string }.

(** The options that only [downloader_thread] reads. *)
Record worker_options := mk_worker_options {
  chunk_size : Z;                    (* size_t *)
  content_disposition : bool;
  config_level : Z;                  (* config.level *)
  page_requisites : Z;
  continue_download : bool;
  remote_encoding : option string
}.

(** The calls of a turn to functions whose work is done elsewhere: the
    transaction, admission, persistence and the scans of documents. The
    cookie store and the status output are not modelled. *)
Inductive call :=
  | CallHttpGet (method_get : bool)
  | CallAddUrl (url : string) (flags : Z)
  | CallSaveFile (fname : Persist.fname_arg)
  | CallAppendFile (fname : Persist.fname_arg)
  | CallHtmlParse (encoding : option string)
  | CallCssParse (encoding : option string)
  | CallSitemapParseXml
  | CallSitemapParseXmlGz
  | CallSitemapParseText
  | CallHtmlParseLocalfile (fname : option string) (encoding : option string)
  | CallCssParseLocalfile (fname : option string) (encoding : option string)
  | CallSignalWorker.                (* mget_thread_cond_signal(&worker_cond) *)

(** The state of a turn: the job in the queue with its parts, the exit status
    and what others can observe of it ([dl], shared with [download_part]);
    [job->metalink]; the global [etags]; [job->host->robots]; and the calls
    made so far. *)
Record state := mk_state {
  dl : Metalink.state;
  metalink : option METALINK;
  etags : gset string;
  host_robots : option ROBOTS;
  calls : list call
}.

Definition set_dl (d : Metalink.state) (st : state) : state :=
  mk_state d (metalink st) (etags st) (host_robots st) (calls st).
Definition set_metalink (m : option METALINK) (st : state) : state :=
  mk_state (dl st) m (etags st) (host_robots st) (calls st).
Definition set_etags (e : gset string) (st : state) : state :=
  mk_state (dl st) (metalink st) e (host_robots st) (calls st).
Definition set_host_robots (r : option ROBOTS) (st : state) : state :=
  mk_state (dl st) (metalink st) (etags st) r (calls st).
Definition emit (c : call) (st : state) : state :=
  mk_state (dl st) (metalink st) (etags st) (host_robots st) (calls st ++ [c]).

Definition set_exit_status (status : Z) (st : state) : state :=
  set_dl (Metalink.set_exit_status status (dl st)) st.

(** The environment of one turn. [http_get k method_get] is the response to
    the [k]-th call of [http_get] in this turn (the function of mget.c, run
    against the network), NULL when [None]; the parsers are those of libmget;
    [mget_metalink_sort_mirrors] sorts the mirrors of a description by
    priority. *)
Record world := mk_world {
  http_get : nat → bool → option RESPONSE;
  metalink4_parse : string → option METALINK;
  metalink3_parse : string → option METALINK;
  mget_robots_parse : string → option ROBOTS;
  mget_metalink_sort_mirrors : METALINK → METALINK
}.

(** A value stored into an [int]. *)
Definition to_int (z : Z) : Z := (z + 2 ^ 31) mod 2 ^ 32 - 2 ^ 31.

(** Where a block of the turn leaves it: at the label [ready], with the
    variable [job] still set or reset to NULL, or behind the block, after
    [k] calls of [http_get]. *)
Inductive flow :=
  | Ready (job : bool) (st : state)
  | Go (k : nat) (st : state).

(** Modelled from the spec: [queue_del] is defined in the job source, which is
    not among the modelled files; "remove(job) detaches" the job. The code
    passes NULL for a job that is to stay in the queue ("do not remove this
    job from queue yet"): then nothing is detached. *)
Definition queue_del (job : bool) (st : state) : state :=
  if job then set_dl (Metalink.queue_del (dl st)) st else st.

Section Worker.

Context (cfg : config) (opt : worker_options).
Context (w : world) (mw : Metalink.world).

(** The worker [id] and the job that [queue_get] handed out; the turn reads
    the fields of the job and assigns [job->metalink] and
    [job->host->robots] only, which are part of the state. *)
Context (id : Z) (job : Admission.JOB).

(** [for (int tries = 0; !resp && tries < 3; tries++) resp = http_get(...)],
    by recursion on the tries that are left. *)
Fixpoint get_loop (todo : nat) (k : nat) (method_get : bool) (st : state)
    : option RESPONSE * nat * state :=
  match todo with
  | O => (None, k, st)
  | S todo =>
      let st := emit (CallHttpGet method_get) st in
      match http_get w k method_get with
      | Some resp => (Some resp, S k, st)
      | None => get_loop todo (S k) method_get st
      end
  end.

(** "start or resume downloading": [job_validate_file], and when it fails,
    the mirrors sorted (after a description was loaded), the workers woken
    and [job] reset to NULL. The result tells whether [job] is still set. *)
Definition start_or_resume (sort : bool) (st : state) : bool * state :=
  let '(ok, d) := Metalink.job_validate_file (Metalink.validates mw) (dl st) in
  let st := set_dl d st in
  if negb ok then
    let st :=
      if sort
      then set_metalink (mget_metalink_sort_mirrors w <$> metalink st) st
      else st in
    (false, emit CallSignalWorker st)
  else (true, st).                   (* file already downloaded and checksum ok *)

(** "create metalink structure without hashing". *)
Definition chunked (resp : RESPONSE) (i : IRI) : METALINK :=
  let npieces :=
    to_int (((content_length resp + chunk_size opt - 1) mod 2 ^ 64)
            / chunk_size opt) in
  mk_metalink (content_length resp) (Admission.local_filename job)
    ((λ it : nat, mk_piece ((Z.of_nat it * chunk_size opt) mod 2 ^ 64) (chunk_size opt))
       <$> seq 0 (Z.to_nat npieces))
    (Some [Metalink.mk_mirror i]).

(** The block [if ((config.spider || config.chunk_size) && !job->deferred)]:
    "In spider mode, we first make a HEAD request." *)
Definition check_first (st : state) : option flow :=
  if (spider cfg || negb (chunk_size opt =? 0))
     && bool_decide (Admission.deferred job = None)
  then
    i ← Admission.iri job;           (* print_status reads job->iri->uri *)
    let '(resp, k, st) := get_loop 3 0 false st in
    match resp with
    | None => Some (Ready true st)
    | Some resp =>
        let st := if code resp =? 404 then set_exit_status 8 st else st in
        if spider cfg then
          match content_type resp with
          | Some ct =>
              if negb (code resp =? 200) then Some (Ready true st)
              else if negb (CStr.strcasecmp ct "text/html" =? 0)
                   && negb (CStr.strcasecmp ct "text/css" =? 0)
                   && negb (CStr.strcasecmp ct "application/xhtml+xml" =? 0)
                   && (negb (Admission.sitemap job)
                       || (CStr.strcasecmp ct "application/xml" =? 0))
                   && (negb (Admission.sitemap job)
                       || (CStr.strcasecmp ct "application/x-gzip" =? 0))
                   && (negb (Admission.sitemap job)
                       || (CStr.strcasecmp ct "text/plain" =? 0))
              then Some (Ready true st)
              else
                match etag resp with
                | Some e =>
                    let rc := bool_decide (e ∈ etags st) in
                    let st := set_etags ({[e]} ∪ etags st) st in
                    if rc then Some (Ready true st)   (* known ETag *)
                    else Some (Go k st)
                | None => Some (Go k st)
                end
          | None => Some (Ready true st)
          end
        else if negb (chunk_size opt =? 0) && (chunk_size opt <? content_length resp)
        then
          let st := set_metalink (Some (chunked resp i)) st in
          let '(job, st) := start_or_resume false st in
          Some (Ready job st)
        else Some (Go k st)
    end
  else Some (Go 0 st).

(** The loop over [resp->links]: the link to a metalink description, with
    its [break], and the duplicate of the highest priority. The result is
    [None] when the type of a link is read although it has none. *)
Fixpoint scan_links (ls : list HTTP_LINK) (top_link : option HTTP_LINK)
    : option (option HTTP_LINK * option HTTP_LINK) :=
  match ls with
  | [] => Some (None, top_link)
  | link :: rest =>
      if bool_decide (rel link = link_rel_describedby) then
        t ← link_type link;
        if (CStr.strcasecmp t "application/metalink4+xml" =? 0)
           || (CStr.strcasecmp t "application/metalink+xml" =? 0)
        then Some (Some link, top_link)                          (* break *)
        else scan_links rest top_link
      else if bool_decide (rel link = link_rel_duplicate) then
        scan_links rest
          (match top_link with
           | None => Some link
           | Some top => if pri link <? pri top then Some link else top_link
           end)
      else scan_links rest top_link
  end.

(** [resp->content_type_encoding ? resp->content_type_encoding
    : config.remote_encoding]. *)
Definition encoding_of (resp : RESPONSE) : option string :=
  match content_type_encoding resp with
  | Some e => Some e
  | None => remote_encoding opt
  end.

(** The file name handed to [save_file] and [append_file]. *)
Definition target (resp : RESPONSE) : Persist.fname_arg :=
  match (if content_disposition opt then content_filename resp else None) with
  | Some f => Persist.Name f
  | None =>
      match output_document cfg with
      | Some _ => Persist.OutputDocument
      | None =>
          match Admission.local_filename job with
          | Some f => Persist.Name f
          | None => Persist.NoName
          end
      end
  end.

(** [config.recursive && (!config.level || job->level < config.level +
    config.page_requisites)]. *)
Definition scans : bool :=
  recursive cfg
  && ((config_level opt =? 0)
      || (Admission.level job <? config_level opt + page_requisites opt)).

(** A file name from its last '.' on. *)
Definition extension (fname : string) : option string :=
  (λ p, CStr.drop p fname) <$> CStr.strrchr fname ".".

(** What is done with a response by its code, behind the metalink blocks. *)
Definition regular (resp : RESPONSE) (st : state) : option state :=
  if code resp =? 200 then
    let st := emit (CallSaveFile (target resp)) st in
    if scans then
      match content_type resp with
      | Some ct =>
          if CStr.strcasecmp ct "text/html" =? 0
          then Some (emit (CallHtmlParse (encoding_of resp)) st)
          else if CStr.strcasecmp ct "application/xhtml+xml" =? 0
          then Some st
          else if CStr.strcasecmp ct "text/css" =? 0
          then Some (emit (CallCssParse (encoding_of resp)) st)
          else if Admission.sitemap job then
            if CStr.strcasecmp ct "application/xml" =? 0
            then Some (emit CallSitemapParseXml st)
            else if CStr.strcasecmp ct "application/x-gzip" =? 0
            then Some (emit CallSitemapParseXmlGz st)
            else if CStr.strcasecmp ct "text/plain" =? 0
            then Some (emit CallSitemapParseText st)
            else Some st
          else if bool_decide (Admission.deferred job ≠ None)
                  && (CStr.strcasecmp ct "text/plain" =? 0)
          then
            _ ← Admission.job_host job;      (* job->host->robots is assigned *)
            let robots := mget_robots_parse w (body resp) in
            let st := set_host_robots robots st in
            match robots with
            | Some r =>
                (* add sitemaps to be downloaded *)
                Some (foldl (λ st sitemap,
                               emit (CallAddUrl sitemap Admission.URL_FLG_SITEMAP) st)
                        st (sitemaps r))
            | None => Some st
            end
          else Some st
      | None => Some st
      end
    else Some st
  else if (code resp =? 206) && continue_download opt then
    Some (emit (CallAppendFile (target resp)) st)
  else if (code resp =? 304) && timestamping cfg then
    if scans then
      fname ←
        match (if content_disposition opt then content_filename resp else None) with
        | Some f => Some f
        | None => Admission.local_filename job
        end;
      match extension fname with
      | Some ext =>
          if (CStr.strcasecmp ext ".html" =? 0) || (CStr.strcasecmp ext ".htm" =? 0)
          then Some (emit (CallHtmlParseLocalfile (Admission.local_filename job)
                             (encoding_of resp)) st)
          else if CStr.strcasecmp ext ".css" =? 0
          then Some (emit (CallCssParseLocalfile (Admission.local_filename job)
                             (encoding_of resp)) st)
          else Some st
      | None => Some st
      end
    else Some st
  else if code resp =? 404 then
    if bool_decide (Admission.deferred job = None)   (* ignore errors on robots.txt *)
    then Some (set_exit_status 8 st)
    else Some st
  else Some st.

(** The download of the job, from the second loop over [http_get] to the
    label [ready]: the result tells whether [job] is still set there. *)
Definition fetch (k : nat) (st : state) : option (bool * state) :=
  (* print_status reads job->local_filename, or job->iri->uri *)
  _ ← match Admission.local_filename job with
      | Some _ => Some tt
      | None => _ ← Admission.iri job; Some tt
      end;
  let '(resp, _, st) := get_loop 3 k true st in
  match resp with
  | None => Some (true, st)
  | Some resp =>
      found ←
        match links resp with
        | Some ls => scan_links ls None
        | None => Some (None, None)
        end;
      match found with
      | (Some link, _) | (None, Some link) =>
          (* found a link to a metalink description, or a duplicate: create
             a new job *)
          Some (true, emit (CallAddUrl (link_uri link) 0) st)
      | (None, None) =>
          let st :=
            match content_type resp with
            | Some ct =>
                if CStr.strcasecmp ct "application/metalink4+xml" =? 0
                then set_metalink (metalink4_parse w (body resp)) st
                else if CStr.strcasecmp ct "application/metalink+xml" =? 0
                then set_metalink (metalink3_parse w (body resp)) st
                else st
            | None => st
            end in
          match (if bool_decide (content_type resp = None) then None
                 else metalink st) with
          | Some m =>
              if size m <=? 0 then Some (true, st)           (* remove job *)
              else if bool_decide (mirrors m = None) then Some (true, st)
              else Some (start_or_resume true st)
          | None => st ← regular resp st; Some (true, st)
          end
      end
  end.

(** One turn of the loop [while (!terminate)] of [downloader_thread], for
    the job, and the part if there is one (by its position in [job->parts]),
    that [queue_get] handed out. The result is [None] for a turn in which
    the C code dereferences NULL or divides by zero. *)
Definition downloader_thread (part : option nat) (st : state) : option state :=
  match part with
  | Some pi =>
      (* download metalink part *)
      m ← metalink st;
      ms ← mirrors m;
      d ← Metalink.download_part mw ms id pi (dl st);
      Some (set_dl d st)
  | None =>
      first ← check_first st;
      '(job, st) ←
        match first with
        | Ready job st => Some (job, st)
        | Go k st => fetch k st
        end;
      (* ready: *)
      let st := queue_del job st in
      Some (set_dl (Metalink.emit Metalink.EvSignalMain (dl st)) st)
  end.

End Worker.

End Worker.

(* ===================================================================== *)
(** * libwget/net.c: the settings of a connection, binding, and writing *)
(* ===================================================================== *)

Module Tcp.

Local Open Scope Z_scope.

(** Values of <errno.h> (Linux). *)
Definition EAGAIN : Z := 11.
Definition EOPNOTSUPP : Z := 95.
Definition ENOTCONN : Z := 107.
Definition EINPROGRESS : Z := 115.

(** [struct wget_tcp_st], by the fields that net.c reads and writes. Address
    lists are as in [Net]; [ssl_session] tells whether the pointer is set;
    the one-bit fields are booleans. *)
Record wget_tcp_st := mk_tcp_st {
  sockfd : Z;
  dns_timeout : Z;
  connect_timeout : Z;
  timeout : Z;
  family : Z;
  preferred_family : Z;
  protocol : Z;
  ssl_hostname : option string;
  addrinfo : option (list Net.addrinfo);
  bind_addrinfo : option (list Net.addrinfo);
  connect_addrinfo : option Net.addrinfo;
  ip : option string;
  ssl_session : bool;
  addrinfo_allocated : bool;
  bind_addrinfo_allocated : bool;
  caching : bool;
  ssl : bool;
  tls_false_start : bool;
  tcp_fastopen : bool;
  first_send : bool
}.

(** Assignments to one field. *)
Definition with_sockfd (v : Z) (t : wget_tcp_st) : wget_tcp_st :=
  mk_tcp_st v (dns_timeout t) (connect_timeout t) (timeout t) (family t)
    (preferred_family t) (protocol t) (ssl_hostname t) (addrinfo t) (bind_addrinfo t)
    (connect_addrinfo t) (ip t) (ssl_session t) (addrinfo_allocated t)
    (bind_addrinfo_allocated t) (caching t) (ssl t) (tls_false_start t) (tcp_fastopen t)
    (first_send t).
Definition with_dns_timeout (v : Z) (t : wget_tcp_st) : wget_tcp_st :=
  mk_tcp_st (sockfd t) v (connect_timeout t) (timeout t) (family t) (preferred_family t)
    (protocol t) (ssl_hostname t) (addrinfo t) (bind_addrinfo t) (connect_addrinfo t)
    (ip t) (ssl_session t) (addrinfo_allocated t) (bind_addrinfo_allocated t)
    (caching t) (ssl t) (tls_false_start t) (tcp_fastopen t) (first_send t).
Definition with_connect_timeout (v : Z) (t : wget_tcp_st) : wget_tcp_st :=
  mk_tcp_st (sockfd t) (dns_timeout t) v (timeout t) (family t) (preferred_family t)
    (protocol t) (ssl_hostname t) (addrinfo t) (bind_addrinfo t) (connect_addrinfo t)
    (ip t) (ssl_session t) (addrinfo_allocated t) (bind_addrinfo_allocated t)
    (caching t) (ssl t) (tls_false_start t) (tcp_fastopen t) (first_send t).
Definition with_timeout (v : Z) (t : wget_tcp_st) : wget_tcp_st :=
  mk_tcp_st (sockfd t) (dns_timeout t) (connect_timeout t) v (family t)
    (preferred_family t) (protocol t) (ssl_hostname t) (addrinfo t) (bind_addrinfo t)
    (connect_addrinfo t) (ip t) (ssl_session t) (addrinfo_allocated t)
    (bind_addrinfo_allocated t) (caching t) (ssl t) (tls_false_start t) (tcp_fastopen t)
    (first_send t).
Definition with_family (v : Z) (t : wget_tcp_st) : wget_tcp_st :=
  mk_tcp_st (sockfd t) (dns_timeout t) (connect_timeout t) (timeout t) v
    (preferred_family t) (protocol t) (ssl_hostname t) (addrinfo t) (bind_addrinfo t)
    (connect_addrinfo t) (ip t) (ssl_session t) (addrinfo_allocated t)
    (bind_addrinfo_allocated t) (caching t) (ssl t) (tls_false_start t) (tcp_fastopen t)
    (first_send t).
Definition with_preferred_family (v : Z) (t : wget_tcp_st) : wget_tcp_st :=
  mk_tcp_st (sockfd t) (dns_timeout t) (connect_timeout t) (timeout t) (family t) v
    (protocol t) (ssl_hostname t) (addrinfo t) (bind_addrinfo t) (connect_addrinfo t)
    (ip t) (ssl_session t) (addrinfo_allocated t) (bind_addrinfo_allocated t)
    (caching t) (ssl t) (tls_false_start t) (tcp_fastopen t) (first_send t).
Definition with_protocol (v : Z) (t : wget_tcp_st) : wget_tcp_st :=
  mk_tcp_st (sockfd t) (dns_timeout t) (connect_timeout t) (timeout t) (family t)
    (preferred_family t) v (ssl_hostname t) (addrinfo t) (bind_addrinfo t)
    (connect_addrinfo t) (ip t) (ssl_session t) (addrinfo_allocated t)
    (bind_addrinfo_allocated t) (caching t) (ssl t) (tls_false_start t) (tcp_fastopen t)
    (first_send t).
Definition with_ssl_hostname (v : option string) (t : wget_tcp_st) : wget_tcp_st :=
  mk_tcp_st (sockfd t) (dns_timeout t) (connect_timeout t) (timeout t) (family t)
    (preferred_family t) (protocol t) v (addrinfo t) (bind_addrinfo t)
    (connect_addrinfo t) (ip t) (ssl_session t) (addrinfo_allocated t)
    (bind_addrinfo_allocated t) (caching t) (ssl t) (tls_false_start t) (tcp_fastopen t)
    (first_send t).
Definition with_addrinfo (v : option (list Net.addrinfo)) (t : wget_tcp_st) : wget_tcp_st :=
  mk_tcp_st (sockfd t) (dns_timeout t) (connect_timeout t) (timeout t) (family t)
    (preferred_family t) (protocol t) (ssl_hostname t) v (bind_addrinfo t)
    (connect_addrinfo t) (ip t) (ssl_session t) (addrinfo_allocated t)
    (bind_addrinfo_allocated t) (caching t) (ssl t) (tls_false_start t) (tcp_fastopen t)
    (first_send t).
Definition with_bind_addrinfo (v : option (list Net.addrinfo)) (t : wget_tcp_st) : wget_tcp_st :=
  mk_tcp_st (sockfd t) (dns_timeout t) (connect_timeout t) (timeout t) (family t)
    (preferred_family t) (protocol t) (ssl_hostname t) (addrinfo t) v
    (connect_addrinfo t) (ip t) (ssl_session t) (addrinfo_allocated t)
    (bind_addrinfo_allocated t) (caching t) (ssl t) (tls_false_start t) (tcp_fastopen t)
    (first_send t).
Definition with_connect_addrinfo (v : option Net.addrinfo) (t : wget_tcp_st) : wget_tcp_st :=
  mk_tcp_st (sockfd t) (dns_timeout t) (connect_timeout t) (timeout t) (family t)
    (preferred_family t) (protocol t) (ssl_hostname t) (addrinfo t) (bind_addrinfo t) v
    (ip t) (ssl_session t) (addrinfo_allocated t) (bind_addrinfo_allocated t)
    (caching t) (ssl t) (tls_false_start t) (tcp_fastopen t) (first_send t).
Definition with_ip (v : option string) (t : wget_tcp_st) : wget_tcp_st :=
  mk_tcp_st (sockfd t) (dns_timeout t) (connect_timeout t) (timeout t) (family t)
    (preferred_family t) (protocol t) (ssl_hostname t) (addrinfo t) (bind_addrinfo t)
    (connect_addrinfo t) v (ssl_session t) (addrinfo_allocated t)
    (bind_addrinfo_allocated t) (caching t) (ssl t) (tls_false_start t) (tcp_fastopen t)
    (first_send t).
Definition with_ssl_session (v : bool) (t : wget_tcp_st) : wget_tcp_st :=
  mk_tcp_st (sockfd t) (dns_timeout t) (connect_timeout t) (timeout t) (family t)
    (preferred_family t) (protocol t) (ssl_hostname t) (addrinfo t) (bind_addrinfo t)
    (connect_addrinfo t) (ip t) v (addrinfo_allocated t) (bind_addrinfo_allocated t)
    (caching t) (ssl t) (tls_false_start t) (tcp_fastopen t) (first_send t).
Definition with_addrinfo_allocated (v : bool) (t : wget_tcp_st) : wget_tcp_st :=
  mk_tcp_st (sockfd t) (dns_timeout t) (connect_timeout t) (timeout t) (family t)
    (preferred_family t) (protocol t) (ssl_hostname t) (addrinfo t) (bind_addrinfo t)
    (connect_addrinfo t) (ip t) (ssl_session t) v (bind_addrinfo_allocated t)
    (caching t) (ssl t) (tls_false_start t) (tcp_fastopen t) (first_send t).
Definition with_bind_addrinfo_allocated (v : bool) (t : wget_tcp_st) : wget_tcp_st :=
  mk_tcp_st (sockfd t) (dns_timeout t) (connect_timeout t) (timeout t) (family t)
    (preferred_family t) (protocol t) (ssl_hostname t) (addrinfo t) (bind_addrinfo t)
    (connect_addrinfo t) (ip t) (ssl_session t) (addrinfo_allocated t) v (caching t)
    (ssl t) (tls_false_start t) (tcp_fastopen t) (first_send t).
Definition with_caching (v : bool) (t : wget_tcp_st) : wget_tcp_st :=
  mk_tcp_st (sockfd t) (dns_timeout t) (connect_timeout t) (timeout t) (family t)
    (preferred_family t) (protocol t) (ssl_hostname t) (addrinfo t) (bind_addrinfo t)
    (connect_addrinfo t) (ip t) (ssl_session t) (addrinfo_allocated t)
    (bind_addrinfo_allocated t) v (ssl t) (tls_false_start t) (tcp_fastopen t)
    (first_send t).
Definition with_ssl (v : bool) (t : wget_tcp_st) : wget_tcp_st :=
  mk_tcp_st (sockfd t) (dns_timeout t) (connect_timeout t) (timeout t) (family t)
    (preferred_family t) (protocol t) (ssl_hostname t) (addrinfo t) (bind_addrinfo t)
    (connect_addrinfo t) (ip t) (ssl_session t) (addrinfo_allocated t)
    (bind_addrinfo_allocated t) (caching t) v (tls_false_start t) (tcp_fastopen t)
    (first_send t).
Definition with_tls_false_start (v : bool) (t : wget_tcp_st) : wget_tcp_st :=
  mk_tcp_st (sockfd t) (dns_timeout t) (connect_timeout t) (timeout t) (family t)
    (preferred_family t) (protocol t) (ssl_hostname t) (addrinfo t) (bind_addrinfo t)
    (connect_addrinfo t) (ip t) (ssl_session t) (addrinfo_allocated t)
    (bind_addrinfo_allocated t) (caching t) (ssl t) v (tcp_fastopen t) (first_send t).
Definition with_tcp_fastopen (v : bool) (t : wget_tcp_st) : wget_tcp_st :=
  mk_tcp_st (sockfd t) (dns_timeout t) (connect_timeout t) (timeout t) (family t)
    (preferred_family t) (protocol t) (ssl_hostname t) (addrinfo t) (bind_addrinfo t)
    (connect_addrinfo t) (ip t) (ssl_session t) (addrinfo_allocated t)
    (bind_addrinfo_allocated t) (caching t) (ssl t) (tls_false_start t) v
    (first_send t).
Definition with_first_send (v : bool) (t : wget_tcp_st) : wget_tcp_st :=
  mk_tcp_st (sockfd t) (dns_timeout t) (connect_timeout t) (timeout t) (family t)
    (preferred_family t) (protocol t) (ssl_hostname t) (addrinfo t) (bind_addrinfo t)
    (connect_addrinfo t) (ip t) (ssl_session t) (addrinfo_allocated t)
    (bind_addrinfo_allocated t) (caching t) (ssl t) (tls_false_start t) (tcp_fastopen t)
    v.

(** A [wget_tcp_t *]: NULL, or one of the structures made by [wget_tcp_init],
    which are known by a number. *)
Definition wget_tcp_t : Type := option nat.

(** The state of the library: the static [_global_tcp], the structures on the
    heap, and the state of the resolver. *)
Record state := mk_state {
  _global_tcp : wget_tcp_st;
  connections : gmap nat wget_tcp_st;
  resolver : Net.state
}.

(** [(tcp ? tcp : &_global_tcp)], read and written; [None] for a pointer to
    no structure. *)
Definition deref (tcp : wget_tcp_t) (st : state) : option wget_tcp_st :=
  match tcp with
  | None => Some (_global_tcp st)
  | Some p => connections st !! p
  end.

Definition assign (tcp : wget_tcp_t) (t : wget_tcp_st) (st : state) : state :=
  match tcp with
  | None => mk_state t (connections st) (resolver st)
  | Some p => mk_state (_global_tcp st) (<[p := t]> (connections st)) (resolver st)
  end.

Definition modify (tcp : wget_tcp_t) (f : wget_tcp_st → wget_tcp_st) (st : state)
    : option state :=
  t ← deref tcp st; Some (assign tcp (f t) st).

(** [!!x]. *)
Definition truth (x : Z) : bool := negb (x =? 0).

Section Tcp.

(** The values of [WGET_NET_FAMILY_ANY], [WGET_NET_FAMILY_IPV4] and
    [WGET_NET_FAMILY_IPV6], which <wget.h> defines, and whether the build has
    TCP Fast Open (on Linux: [TCP_FASTOPEN_LINUX] is defined). *)
Context (WGET_NET_FAMILY_ANY WGET_NET_FAMILY_IPV4 WGET_NET_FAMILY_IPV6 : Z).
Context (TCP_FASTOPEN_LINUX : bool).

(** The initializer of [_global_tcp]; the fields it does not name are zero. *)
Definition initial_global_tcp : wget_tcp_st :=
  {| sockfd := -1; dns_timeout := -1; connect_timeout := -1; timeout := -1;
     family := Net.AF_UNSPEC; preferred_family := 0; protocol := 0;
     ssl_hostname := None; addrinfo := None; bind_addrinfo := None;
     connect_addrinfo := None; ip := None; ssl_session := false;
     addrinfo_allocated := false; bind_addrinfo_allocated := false;
     caching := true; ssl := false; tls_false_start := false;
     tcp_fastopen := TCP_FASTOPEN_LINUX; first_send := TCP_FASTOPEN_LINUX |}.

Definition _value_to_family (value : Z) : Z :=
  if value =? WGET_NET_FAMILY_IPV4 then Net.AF_INET
  else if value =? WGET_NET_FAMILY_IPV6 then Net.AF_INET6
  else Net.AF_UNSPEC.

Definition _family_to_value (family : Z) : Z :=
  if family =? Net.AF_INET then WGET_NET_FAMILY_IPV4
  else if family =? Net.AF_INET6 then WGET_NET_FAMILY_IPV6
  else WGET_NET_FAMILY_ANY.

(** The setters and getters. A getter gives [None] for a pointer to no
    structure. *)
Definition wget_tcp_set_tcp_fastopen (tcp : wget_tcp_t) (tcp_fastopen : Z)
    (st : state) : option state :=
  if TCP_FASTOPEN_LINUX then modify tcp (with_tcp_fastopen (truth tcp_fastopen)) st
  else Some st.

Definition wget_tcp_get_tcp_fastopen (tcp : wget_tcp_t) (st : state) : option Z :=
  t ← deref tcp st; Some (Z.b2z (Tcp.tcp_fastopen t)).

Definition wget_tcp_set_tls_false_start (tcp : wget_tcp_t) (false_start : Z)
    (st : state) : option state :=
  modify tcp (with_tls_false_start (truth false_start)) st.

Definition wget_tcp_get_tls_false_start (tcp : wget_tcp_t) (st : state) : option Z :=
  t ← deref tcp st; Some (Z.b2z (tls_false_start t)).

Definition wget_tcp_set_dns_caching (tcp : wget_tcp_t) (caching : Z) (st : state)
    : option state :=
  modify tcp (with_caching (truth caching)) st.

Definition wget_tcp_get_dns_caching (tcp : wget_tcp_t) (st : state) : option Z :=
  t ← deref tcp st; Some (Z.b2z (Tcp.caching t)).

Definition wget_tcp_set_protocol (tcp : wget_tcp_t) (protocol : Z) (st : state)
    : option state :=
  modify tcp (with_protocol protocol) st.

Definition wget_tcp_get_protocol (tcp : wget_tcp_t) (st : state) : option Z :=
  t ← deref tcp st; Some (Tcp.protocol t).

Definition wget_tcp_set_preferred_family (tcp : wget_tcp_t) (family : Z)
    (st : state) : option state :=
  modify tcp (with_preferred_family (_value_to_family family)) st.

Definition wget_tcp_get_preferred_family (tcp : wget_tcp_t) (st : state) : option Z :=
  t ← deref tcp st; Some (_family_to_value (preferred_family t)).

Definition wget_tcp_set_family (tcp : wget_tcp_t) (family : Z) (st : state)
    : option state :=
  modify tcp (with_family (_value_to_family family)) st.

Definition wget_tcp_get_family (tcp : wget_tcp_t) (st : state) : option Z :=
  t ← deref tcp st; Some (_family_to_value (Tcp.family t)).

Definition wget_tcp_set_dns_timeout (tcp : wget_tcp_t) (timeout : Z) (st : state)
    : option state :=
  modify tcp (with_dns_timeout timeout) st.

Definition wget_tcp_set_connect_timeout (tcp : wget_tcp_t) (timeout : Z)
    (st : state) : option state :=
  modify tcp (with_connect_timeout timeout) st.

Definition wget_tcp_set_timeout (tcp : wget_tcp_t) (timeout : Z) (st : state)
    : option state :=
  modify tcp (with_timeout timeout) st.

Definition wget_tcp_get_timeout (tcp : wget_tcp_t) (st : state) : option Z :=
  t ← deref tcp st; Some (Tcp.timeout t).

Definition wget_tcp_set_ssl (tcp : wget_tcp_t) (ssl : Z) (st : state) : option state :=
  modify tcp (with_ssl (truth ssl)) st.

Definition wget_tcp_get_ssl (tcp : wget_tcp_t) (st : state) : option Z :=
  t ← deref tcp st; Some (Z.b2z (Tcp.ssl t)).

Definition wget_tcp_set_ssl_hostname (tcp : wget_tcp_t) (hostname : option string)
    (st : state) : option state :=
  modify tcp (with_ssl_hostname hostname) st.

Definition wget_tcp_get_ssl_hostname (tcp : wget_tcp_t) (st : state)
    : option (option string) :=
  t ← deref tcp st; Some (Tcp.ssl_hostname t).

(** [wget_tcp_init]: a copy of [_global_tcp] in a new structure. *)
Definition wget_tcp_init (st : state) : wget_tcp_t * state :=
  let p := fresh (dom (connections st)) in
  (Some p, mk_state (_global_tcp st) (<[p := _global_tcp st]> (connections st))
             (resolver st)).

(** ** [wget_tcp_set_bind_address] *)

(** The settings of a connection that the resolver reads. *)
Definition resolver_settings (t : wget_tcp_st) : Net.wget_tcp :=
  Net.mk_tcp (Tcp.caching t) (Tcp.family t) (preferred_family t).

(** [wget_tcp_resolve(tcp, host, port)], run by the resolver of [Net] in the
    environment [w]. *)
Definition wget_tcp_resolve (w : Net.world) (tcp : wget_tcp_t) (host : string)
    (port : Z) (st : state) : option (option (list Net.addrinfo) * state) :=
  t ← deref tcp st;
  let '(r, ns) :=
    Net.wget_tcp_resolve w (resolver_settings t) host port (resolver st) in
  Some (r, mk_state (_global_tcp st) (connections st) ns).

(** Is the pointer to an address list set? *)
Definition nonnull (ai : option (list Net.addrinfo)) : bool :=
  match ai with Some (_ :: _) => true | _ => false end.

(** c_isdigit, on the byte a pointer points to (NUL at the end of a string). *)
Definition c_isdigit (c : ascii) : bool :=
  (48 <=? CStr.uchar c) && (CStr.uchar c <=? 57).

Definition first_byte (s : string) : ascii :=
  match s with String c _ => c | EmptyString => "000"%char end.

(** atoi(3) on a string that starts with a digit: the value of the digits
    it starts with; [None] when the value does not fit an [int]. *)
Fixpoint atoi_digits (s : string) (acc : Z) : option Z :=
  match s with
  | String c r =>
      if c_isdigit c then
        let acc := 10 * acc + (CStr.uchar c - 48) in
        if 2 ^ 31 <=? acc then None else atoi_digits r acc
      else Some acc
  | EmptyString => Some acc
  end.

Definition atoi (s : string) : option Z := atoi_digits s 0.

(** The scan [while] the byte at [s] is neither NUL nor ':': the offset at
    which it stops. *)
Fixpoint scan_colon (s : string) : nat :=
  match s with
  | String c r => if Ascii.eqb c ":" then O else S (scan_colon r)
  | EmptyString => O
  end.

(** The first part of the function: where the host starts in [copy], and
    where [s] points to after the scan. *)
Definition bind_address_scan (copy : string) : nat * nat :=
  if Ascii.eqb (first_byte copy) "[" then
    (* IPv6 address within brackets *)
    match CStr.strrchr copy "]" with
    | Some p => (1%nat, S p)
    | None => (1%nat, String.length copy)   (* Something is broken *)
    end
  else (0%nat, scan_colon copy).

(** What the function asks the resolver for: nothing, or a host and a port.
    When [*s == ':'] the byte is overwritten by NUL, which ends the host;
    otherwise the host runs to the end of [copy]. *)
Definition bind_address_request (bind_address : string) : option (option (string * Z)) :=
  let '(host, s) := bind_address_scan bind_address in
  if Ascii.eqb (first_byte (CStr.drop s bind_address)) ":" then
    let hostname := CStr.take (s - host) (CStr.drop host bind_address) in
    let rest := CStr.drop (S s) bind_address in
    if c_isdigit (first_byte rest)
    then port ← atoi rest; Some (Some (hostname, port mod 2 ^ 16))
    else Some None
  else Some (Some (CStr.drop host bind_address, 0)).

Definition wget_tcp_set_bind_address (w : Net.world) (tcp : wget_tcp_t)
    (bind_address : option string) (st : state) : option state :=
  t ← deref tcp st;
  let t :=
    if bind_addrinfo_allocated t
    then with_bind_addrinfo None t          (* freeaddrinfo *)
    else t in
  let st := assign tcp t st in
  match bind_address with
  | None => Some st
  | Some bind_address =>
      request ← bind_address_request bind_address;
      '(t, st) ←
        match request with
        | Some (host, port) =>
            '(r, st) ← wget_tcp_resolve w tcp host port st;
            Some (with_bind_addrinfo r t, st)
        | None => Some (t, st)
        end;
      let t :=
        with_bind_addrinfo_allocated (negb (Tcp.caching t) && nonnull (bind_addrinfo t)) t in
      Some (assign tcp t st)
  end.

(** ** [wget_tcp_write] *)

(** The socket as the function sees it. The [k]-th transmission of a call is
    answered by [send] (or by [sendto], when it is made with MSG_FASTOPEN)
    with the return value and errno; [reconnect] is the answer of the
    connect(2) that follows a failed fast open, [wget_ready_2_write] the
    answer to the wait that follows the [k]-th transmission, and
    [wget_ssl_write_timeout] the answer of the TLS layer. *)
Record wire := mk_wire {
  send : nat → string → Z * Z;
  sendto : nat → string → Z * Z;
  reconnect : nat → Z * Z;
  wget_ready_2_write : nat → Z;
  wget_ssl_write_timeout : string → Z
}.

(** What a call gives: its return value, and the bytes that send(2) and
    sendto(2) took, in order ([sent] is not a variable of the C code). *)
Record written := mk_written {
  returned : Z;
  sent : string
}.

Definition transient (errno : Z) : bool :=
  (errno =? EAGAIN) || (errno =? ENOTCONN) || (errno =? EINPROGRESS).

(** The loop [while (count)]; [buf] holds the [count] bytes still to write.
    The loop has no bound of its own (a socket may take no byte for ever), so
    the model takes a number of turns and gives [None] when they do not
    suffice. *)
Fixpoint write_loop (x : wire) (turns : nat) (k : nat) (t : wget_tcp_st)
    (buf : string) (nwritten : Z) (sent : string) : option (written * wget_tcp_st) :=
  match turns with
  | O => None
  | S turns =>
      if (String.length buf =? 0)%nat then Some (mk_written 0 sent, t)
      else
        let transmission : (Z * Z * wget_tcp_st) + wget_tcp_st :=
          if TCP_FASTOPEN_LINUX && Tcp.tcp_fastopen t && first_send t then
            let '(n, errno) := sendto x k buf in
            let t := with_first_send false t in
            if (n <? 0) && (errno =? EOPNOTSUPP) then
              (* fallback from fastopen *)
              let t := with_tcp_fastopen false t in
              let '(rc, errno) := reconnect x k in
              if (rc <? 0) && negb (transient errno)
              then inr t                                       (* return -1 *)
              else inl (n, EAGAIN, t)
            else inl (n, errno, t)
          else
            let '(n, errno) := send x k buf in inl (n, errno, t) in
        match transmission with
        | inr t => Some (mk_written (-1) sent, t)
        | inl (n, errno, t) =>
            if 0 <=? n then
              let nwritten := nwritten + n in
              let sent := sent +:+ CStr.take (Z.to_nat n) buf in
              if CStr.strlen buf <=? n then Some (mk_written nwritten sent, t)
              else write_loop x turns (S k) t (CStr.drop (Z.to_nat n) buf) nwritten sent
            else if negb (transient errno) then Some (mk_written (-1) sent, t)
            else if negb (Tcp.timeout t =? 0) then
              let rc := wget_ready_2_write x k in
              if rc <=? 0 then Some (mk_written rc sent, t)
              else write_loop x turns (S k) t buf nwritten sent
            else write_loop x turns (S k) t buf nwritten sent
        end
  end.

(** [wget_tcp_write(tcp, buf, count)], for the structure [tcp] points to
    (NULL when [None]); [buf] is NULL, or the [count] bytes to write. The
    result has the structure as the call leaves it. *)
Definition wget_tcp_write (x : wire) (turns : nat) (tcp : option wget_tcp_st)
    (buf : option string) : option (written * option wget_tcp_st) :=
  match tcp, buf with
  | Some t, Some buf =>
      if ssl_session t
      then Some (mk_written (wget_ssl_write_timeout x buf) EmptyString, Some t)
      else '(r, t) ← write_loop x turns 0 t buf 0 EmptyString; Some (r, Some t)
  | _, _ => Some (mk_written (-1) EmptyString, tcp)
  end.

(** ** [wget_tcp_close] and [wget_tcp_connect] *)

(** The error codes of <wget.h> that [wget_tcp_connect] returns;
    [WGET_E_SUCCESS] is 0. *)
Context (WGET_E_UNKNOWN WGET_E_INVALID WGET_E_CONNECT WGET_E_CERTIFICATE : Z).

Definition WGET_E_SUCCESS : Z := 0.

(** The system calls on descriptors and address lists that can be seen from
    outside. *)
Inductive sys_event :=
  | EvSocket (fd : Z)                            (* socket(2) gave [fd] *)
  | EvClose (fd : Z)
  | EvFreeaddrinfo (ai : option (list Net.addrinfo)).

(** The network as [wget_tcp_connect] sees it, by the position [k] of the
    address in the list: the descriptor socket(2) gives (or -1), whether
    fcntl(2) works on it, and the answers of bind(2), connect(2) (with errno)
    and of the TLS handshake; and the numeric form getnameinfo(3) gives of an
    address. *)
Record network := mk_network {
  socket : nat → Z;
  fcntl_ok : nat → bool;
  bind : nat → Z;
  connect : nat → Z * Z;
  wget_ssl_open : nat → Z;
  getnameinfo : Net.addrinfo → option string
}.

(** [wget_tcp_close] on a structure: TLS is stopped ([wget_ssl_close], of the
    TLS layer, is taken to reset the session pointer it is given); the
    descriptor is closed; the address list is freed if it is the
    connection's own. *)
Definition wget_tcp_close (t : wget_tcp_st) : wget_tcp_st * list sys_event :=
  let t := with_ssl_session false t in
  let '(t, ev) :=
    if negb (sockfd t =? -1)
    then (with_sockfd (-1) t, [EvClose (sockfd t)])
    else (t, []) in
  let ev := if addrinfo_allocated t then ev ++ [EvFreeaddrinfo (addrinfo t)] else ev in
  (with_addrinfo None t, ev).

(** How a call ends: it returns, or [_set_async] ends the process. *)
Inductive ending := Return (ret : Z) | Exit.

(** The loop over the addresses; [k] is the position of [ai] in the list. *)
Fixpoint connect_loop (net : network) (k : nat) (ais : list Net.addrinfo)
    (t : wget_tcp_st) (ret : Z) (tr : list sys_event)
    : ending * wget_tcp_st * list sys_event :=
  match ais with
  | [] => (Return ret, t, tr)
  | ai :: rest =>
      let fd := socket net k in
      let tr := tr ++ [EvSocket fd] in
      if fd =? -1 then connect_loop net (S k) rest t ret tr
      else if negb (fcntl_ok net k) then (Exit, t, tr)
      else if nonnull (bind_addrinfo t) && negb (bind net k =? 0)
      then (Return WGET_E_UNKNOWN, t, tr ++ [EvClose fd])
      else
        let '(rc, errno, t) :=
          if Tcp.tcp_fastopen t
          then (0, 0, with_first_send true (with_connect_addrinfo (Some ai) t))
          else let '(rc, errno) := connect net k in (rc, errno, with_first_send false t) in
        if (rc <? 0) && negb (errno =? EAGAIN) && negb (errno =? EINPROGRESS)
        then connect_loop net (S k) rest t WGET_E_CONNECT (tr ++ [EvClose fd])
        else
          let t := with_sockfd fd t in
          let connected (t : wget_tcp_st) :=
            (Return WGET_E_SUCCESS,
             with_ip (Some (default "???"%string (getnameinfo net ai))) t, tr) in
          if Tcp.ssl t then
            let ret := wget_ssl_open net k in
            if negb (ret =? 0) then
              if ret =? WGET_E_CERTIFICATE then
                (* stop here - the server cert couldn't be validated *)
                let '(t, ev) := wget_tcp_close t in
                (Return ret, t, tr ++ ev)
              else
                (* do not free tcp->addrinfo when calling wget_tcp_close() *)
                let ai_tmp := addrinfo t in
                let '(t, ev) := wget_tcp_close (with_addrinfo None t) in
                connect_loop net (S k) rest (with_addrinfo ai_tmp t) ret (tr ++ ev)
            else connected (with_ssl_session true t)
          else connected t
  end.

(** [wget_tcp_connect(tcp, host, port)]. The result is [None] for a pointer
    to no structure. *)
Definition wget_tcp_connect (w : Net.world) (net : network) (tcp : wget_tcp_t)
    (host : string) (port : Z) (st : state)
    : option (ending * state * list sys_event) :=
  match tcp with
  | None => Some (Return WGET_E_INVALID, st, [])
  | Some p =>
      t ← connections st !! p;
      let tr := if addrinfo_allocated t then [EvFreeaddrinfo (addrinfo t)] else [] in
      '(r, st) ← wget_tcp_resolve w tcp host port st;
      let t := with_addrinfo_allocated (negb (Tcp.caching t)) (with_addrinfo r t) in
      let '(e, t, tr) := connect_loop net 0 (default [] r) t WGET_E_UNKNOWN tr in
      Some (e, assign tcp t st, tr)
  end.

End Tcp.

End Tcp.

(* ===================================================================== *)
(** * mget.c: local file names and the hash of a URL *)
(* ===================================================================== *)

Module FileName.
Import Iri Options.

Local Open Scope Z_scope.

(** Value of <errno.h> (Linux). *)
Definition EEXIST : Z := 17.

(** A value stored into a [char]. *)
Definition to_char (z : Z) : ascii := ascii_of_nat (Z.to_nat (z mod 256)).

(** [hash_url]: [hash = hash * 101 + (unsigned char)*url++] in an
    [unsigned int]. *)
Fixpoint hash_url_loop (url : string) (hash : Z) : Z :=
  match url with
  | EmptyString => hash
  | String c r => hash_url_loop r ((hash * 101 + CStr.uchar c) mod 2 ^ 32)
  end.

Definition hash_url (url : string) : Z := hash_url_loop url 0.

(** What [restrict_file_name] gives: the string behind the pointer it
    returns, whether that pointer is [esc] (and not [fname]), and the bytes
    of [fname] after the call (the case conversions work in place). *)
Record restricted := mk_restricted {
  result : string;
  is_esc : bool;
  fname_after : string
}.

(** The options that only [get_local_filename] reads. *)
Record name_options := mk_name_options {
  force_directories : Z;
  directory_prefix : option string;
  protocol_directories : bool;
  host_directories : bool;
  cut_directories : Z;
  restrict_file_names : Z
}.

(** Directories as [get_local_filename] sees them: those that exist, the
    paths on which mkdir(2) fails with an error (other than [EEXIST]), and
    the mkdir(2) calls made so far, in order ([made] is not a variable of
    the C code). *)
Record directories_state := mk_dirs {
  dirs : gset string;
  mkdir_error : string → option Z;
  made : list string
}.

(** mkdir(2): the return value and errno. *)
Definition mkdir (path : string) (fs : directories_state)
    : (Z * Z) * directories_state :=
  let fs' := mk_dirs (dirs fs) (mkdir_error fs) (made fs ++ [path]) in
  if decide (path ∈ dirs fs) then ((-1, EEXIST), fs')
  else
    match mkdir_error fs path with
    | Some errno => ((-1, errno), fs')
    | None => ((0, 0), mk_dirs ({[path]} ∪ dirs fs) (mkdir_error fs) (made fs ++ [path]))
    end.

(** How [get_local_filename] ends: [error_printf_exit] ends the process, or
    the function returns a name (NULL when [None]). *)
Inductive named :=
  | Exits
  | Named (fname : option string).

(** The offset of the first [c] in [s] at or after [off]. *)
Fixpoint strchr_from (s : string) (off : nat) (c : ascii) : option nat :=
  match s, off with
  | EmptyString, _ => None
  | String a r, O =>
      if Ascii.eqb a c then Some O else S <$> strchr_from r O c
  | String _ r, S off => S <$> strchr_from r off c
  end.

(** The byte at an offset; NUL at the end of the string. *)
Definition byte_at (s : string) (off : nat) : ascii :=
  match CStr.drop off s with String c _ => c | EmptyString => "000"%char end.

Section FileName.

(** The values of the restriction modes and the signedness of [char], which
    the platform fixes. *)
Context (RESTRICT_NAMES_WINDOWS RESTRICT_NAMES_NOCONTROL RESTRICT_NAMES_ASCII
         RESTRICT_NAMES_UPPERCASE RESTRICT_NAMES_LOWERCASE : Z).
Context (char_is_signed : bool).

(** A [char] read as [int]. *)
Definition schar (c : ascii) : Z :=
  if char_is_signed && (128 <=? CStr.uchar c) then CStr.uchar c - 256
  else CStr.uchar c.

(** [c >= 10 ? c + 'A' - 10 : c + '0']. *)
Definition hex_digit (c : Z) : ascii :=
  to_char (if 10 <=? c then c + 65 - 10 else c + 48).

(** The escaping loop of the modes "ascii" and "unix": [test] tells which
    bytes become [%XX]. The result is the contents of [esc] and the flag
    [escaped]. *)
Fixpoint escape_loop (test : ascii → bool) (s : string) (escaped : bool)
    : string * bool :=
  match s with
  | EmptyString => (EmptyString, escaped)
  | String c r =>
      if test c then
        let '(dst, escaped) := escape_loop test r true in
        (String "%" (String (hex_digit (Z.shiftr (CStr.uchar c) 4))
                       (String (hex_digit (Z.land (schar c) 15)) dst)),
         escaped)
      else
        let '(dst, escaped) := escape_loop test r escaped in
        (String c dst, escaped)
  end.

(** The loops of the modes "uppercase" and "lowercase". *)
Fixpoint uppercase_loop (s : string) : string :=
  match s with
  | EmptyString => EmptyString
  | String c r =>
      String (if (97 <=? schar c) && (schar c <=? 122)
              then to_char (Z.land (schar c) (Z.lnot 32)) else c)
        (uppercase_loop r)
  end.

Fixpoint lowercase_loop (s : string) : string :=
  match s with
  | EmptyString => EmptyString
  | String c r =>
      String (if (65 <=? schar c) && (schar c <=? 90)
              then to_char (Z.lor (schar c) 32) else c)
        (lowercase_loop r)
  end.

Definition restrict_file_name (mode : Z) (fname : string) : restricted :=
  let escaping (test : ascii → bool) :=
    let '(esc, escaped) := escape_loop test fname false in
    if escaped then mk_restricted esc true fname
    else mk_restricted fname false fname in
  if mode =? RESTRICT_NAMES_WINDOWS then mk_restricted fname false fname
  else if mode =? RESTRICT_NAMES_NOCONTROL then mk_restricted fname false fname
  else if mode =? RESTRICT_NAMES_ASCII then escaping (λ c, schar c <? 32)
  else if mode =? RESTRICT_NAMES_UPPERCASE then
    mk_restricted (uppercase_loop fname) false (uppercase_loop fname)
  else if mode =? RESTRICT_NAMES_LOWERCASE then
    mk_restricted (lowercase_loop fname) false (lowercase_loop fname)
  else (* RESTRICT_NAMES_UNIX, default *)
    escaping (λ c, (1 <=? schar c) && (schar c <=? 31)).

(** The options, and the path functions of libmget. The library is not part
    of the modelled sources, so its functions are taken as given: each gets
    the URL and the buffer, and what it gives here is the buffer when it
    returns (for the two that return a file name, the name is the data of
    the buffer). [scheme_name] is the string behind [iri->scheme]. *)
Context (cfg : config) (opt : name_options).
Context (scheme_name : iri_scheme → string).
Context (mget_iri_get_path : IRI → string → string).
Context (mget_iri_get_query_as_filename : IRI → string → string).
Context (mget_iri_get_filename : IRI → string → string).

(** The loop that cuts directories: [p] is an offset into the path, or NULL. *)
Fixpoint cut_loop (todo : nat) (path : string) (p : option nat) : option nat :=
  match todo, p with
  | S todo, Some off =>
      cut_loop todo path
        (strchr_from path (if Ascii.eqb (byte_at path off) "/" then S off else off) "/")
  | _, _ => p
  end.

(** "create the complete path": the loop over the directory parts of
    [fname]. [before] is what precedes the current part, the '/' that ends
    it included; [part] is what was read of the current part; [rest] is what
    was not read yet. The result is [None] when the loop comes to its end,
    and otherwise how the function ends inside the loop. *)
Fixpoint create_path (fname before part rest : string) (fs : directories_state)
    : option named * directories_state :=
  match rest with
  | EmptyString => (None, fs)
  | String c r =>
      if Ascii.eqb c "/" then
        (* relative paths should have been normalized earlier *)
        if Ascii.eqb (byte_at part 0) "." && Ascii.eqb (byte_at part 1) "."
        then (Some Exits, fs)
        else
          let '((rc, errno), fs) := mkdir (before +:+ part) fs in
          if negb (rc =? 0) && negb (errno =? EEXIST)
          then (Some (Named (Some fname)), fs)
          else create_path fname (before +:+ part +:+ "/") EmptyString r fs
      else create_path fname before (part +:+ String c EmptyString) r fs
  end.

Definition get_local_filename (i : IRI) (fs : directories_state)
    : named * directories_state :=
  if spider cfg || bool_decide (is_Some (output_document cfg)) then (Named None, fs)
  else
    let use_directories := recursive cfg in
    let use_directories := if negb (directories cfg) then false else use_directories in
    let use_directories :=
      if force_directories opt =? 1 then true else use_directories in
    let buf :=
      match directory_prefix opt with
      | Some prefix =>
          if negb (String.length prefix =? 0)%nat then prefix +:+ "/" else EmptyString
      | None => EmptyString
      end in
    let fname :=
      if use_directories then
        let buf :=
          if protocol_directories opt
             && negb (String.length (scheme_name (scheme i)) =? 0)%nat
          then buf +:+ scheme_name (scheme i) +:+ "/" else buf in
        let buf :=
          match host i with
          | Some h =>
              if host_directories opt && negb (String.length h =? 0)%nat
              then buf +:+ h else buf
          | None => buf
          end in
        let buf :=
          if negb (cut_directories opt =? 0) then
            (* cut directories *)
            let path := mget_iri_get_path i EmptyString in
            match cut_loop (Z.to_nat (cut_directories opt)) path (Some O) with
            | Some _ => buf
            | None =>
                (* we can't strip this many path elements *)
                match CStr.strrchr path "/" with
                | Some _ => buf
                | None =>
                    (if negb (Ascii.eqb (byte_at path 0) "/") then buf +:+ "/" else buf)
                    +:+ path
                end
            end
          else mget_iri_get_path i buf in
        mget_iri_get_query_as_filename i buf
      else mget_iri_get_filename i buf in
    (* do the filename escaping here *)
    let fname :=
      if negb (restrict_file_names opt =? 0)
      then result (restrict_file_name (restrict_file_names opt) fname)
      else fname in
    (* create the complete path *)
    match create_path fname EmptyString EmptyString fname fs with
    | (Some ending, fs) => (ending, fs)
    | (None, fs) =>
        if delete_after cfg then (Named None, fs) else (Named (Some fname), fs)
    end.

End FileName.

End FileName.

(* ===================================================================== *)
(** * Properties of the resolver (libwget/net.c) *)
(* ===================================================================== *)

Module NetSpec.
Import Net.

Local Open Scope Z_scope.

#[local] Arguments wget_dns_cache_get : simpl never.
#[local] Arguments wget_dns_cache_add : simpl never.
#[local] Arguments wget_thread_mutex_lock : simpl never.
#[local] Arguments wget_millisleep : simpl never.
#[local] Arguments _wget_tcp_resolve : simpl never.
#[local] Arguments emit : simpl never.

(** ** Ordering by preferred family *)

Definition is_preferred (pf : Z) (a : addrinfo) : Prop := ai_family a = pf.

#[local] Instance is_preferred_dec pf a : Decision (is_preferred pf a).
Proof. unfold is_preferred. apply _. Defined.

#[local] Instance not_preferred_dec pf a : Decision (¬ is_preferred pf a).
Proof. apply _. Defined.

(** The loop distributes the input over its two accumulators, in order. *)
Lemma sort_preferred_loop_filter ai pf p u :
  sort_preferred_loop ai pf p u =
    (p ++ filter (is_preferred pf) ai, u ++ filter (λ a, ¬ is_preferred pf a) ai).
Proof.
  revert p u. induction ai as [|a next IH]; intros p u; simpl.
  - by rewrite !app_nil_r.
  - destruct (decide (ai_family a = pf)) as [Hf|Hf].
    + rewrite IH, filter_cons_True, filter_cons_False by (unfold is_preferred; tauto).
      by rewrite <- app_assoc.
    + rewrite IH, filter_cons_False, filter_cons_True by (unfold is_preferred; tauto).
      by rewrite <- app_assoc.
Qed.

Lemma sort_preferred_filter ai pf :
  _wget_sort_preferred ai pf =
    filter (is_preferred pf) ai ++ filter (λ a, ¬ is_preferred pf a) ai.
Proof.
  unfold _wget_sort_preferred. rewrite sort_preferred_loop_filter. simpl.
  by destruct (filter (is_preferred pf) ai).
Qed.

Lemma filter_split_perm (P : addrinfo → Prop) `{!∀ a, Decision (P a)} l :
  filter P l ++ filter (λ a, ¬ P a) l ≡ₚ l.
Proof.
  induction l as [|a l IH]; [done|].
  destruct (decide (P a)) as [Ha|Ha].
  - rewrite filter_cons_True, filter_cons_False by tauto. simpl. by f_equiv.
  - rewrite filter_cons_False, filter_cons_True by tauto.
    rewrite <- Permutation_middle. by f_equiv.
Qed.

(** What "preferred addresses first, order kept inside each group" means for
    an output [r] of an input [l]. *)
Definition preferred_first (pf : Z) (l r : list addrinfo) : Prop :=
  r ≡ₚ l ∧
  ∃ p u, r = p ++ u ∧
    Forall (is_preferred pf) p ∧ Forall (λ a, ¬ is_preferred pf a) u ∧
    p = filter (is_preferred pf) l ∧ u = filter (λ a, ¬ is_preferred pf a) l ∧
    sublist p l ∧ sublist u l.

Lemma sort_preferred_preferred_first ai pf :
  preferred_first pf ai (_wget_sort_preferred ai pf).
Proof.
  rewrite sort_preferred_filter. split; [apply filter_split_perm|].
  eexists _, _. split; [done|].
  split; [apply Forall_forall; intros a Ha; by apply list_elem_of_filter in Ha as [? _]|].
  split; [apply Forall_forall; intros a Ha; by apply list_elem_of_filter in Ha as [? _]|].
  do 2 (split; [done|]). split; apply sublist_filter.
Qed.

(** One turn of the loop, as an equation. *)
Lemma resolve_loop_S w tcp host port max todo rc ai st :
  resolve_loop w tcp host port max (S todo) rc ai st =
    let tries := (max - S todo)%nat in
    let attempt (st : state) : loop_exit * state :=
      let '((rc, ai), st) := _wget_tcp_resolve w tries st in
      if bool_decide (rc = 0) || negb (bool_decide (rc = EAI_AGAIN))
      then (Fallthrough rc ai, st)
      else
        resolve_loop w tcp host port max todo rc ai
          (if bool_decide (tries < max - 1)%nat
           then wget_millisleep w host port tries 100
                  (if caching tcp then emit EvUnlock st else st)
           else st) in
    if caching tcp then
      match wget_dns_cache_get host port st with
      | (Some hit, st) => (Returned hit, st)
      | (None, st) =>
          match wget_dns_cache_get host port
                  (wget_thread_mutex_lock w host port tries st) with
          | (Some hit, st) => (Returned hit, emit EvUnlock st)
          | (None, st) => attempt st
          end
      end
    else attempt st.
Proof. reflexivity. Qed.

(** The locals of the loop when it is left without a [return]: they are the
    initial ones, or the answer of one getaddrinfo(3) call; and a successful
    answer is obtained while the key is absent from the cache. *)
Lemma resolve_loop_fallthrough w tcp host port max todo rc0 ai0 st rc ai st' :
  resolve_loop w tcp host port max todo rc0 ai0 st = (Fallthrough rc ai, st') →
  (todo = 0%nat ∧ rc = rc0 ∧ ai = ai0) ∨
  (∃ n, getaddrinfo w n = (rc, ai) ∧
        (rc = 0 → caching tcp = true → dns_cache st' !! (host, port) = None)).
Proof.
  revert rc0 ai0 st. induction todo as [|todo IH]; intros rc0 ai0 st.
  - intros [= -> -> ->]. by left.
  - intros H. right. revert H. rewrite resolve_loop_S. cbv zeta.
    set (tries := (max - S todo)%nat).
    assert (Hattempt : ∀ s,
      (caching tcp = true → dns_cache s !! (host, port) = None) →
      (let '(rc1, ai1, s1) := _wget_tcp_resolve w tries s in
       if bool_decide (rc1 = 0) || negb (bool_decide (rc1 = EAI_AGAIN))
       then (Fallthrough rc1 ai1, s1)
       else resolve_loop w tcp host port max todo rc1 ai1
              (if bool_decide (tries < max - 1)%nat
               then wget_millisleep w host port tries 100
                      (if caching tcp then emit EvUnlock s1 else s1)
               else s1)) = (Fallthrough rc ai, st') →
      ∃ n, getaddrinfo w n = (rc, ai) ∧
           (rc = 0 → caching tcp = true → dns_cache st' !! (host, port) = None)).
    { intros s Hs. unfold _wget_tcp_resolve.
      destruct (getaddrinfo w tries) as [rc1 ai1] eqn:Hg. cbn [fst].
      destruct (bool_decide (rc1 = 0) || negb (bool_decide (rc1 = EAI_AGAIN))) eqn:Hb.
      - intros [= -> -> <-]. exists tries. split; [done|]. intros _. exact Hs.
      - intros Hloop. apply IH in Hloop as [(_ & -> & ->)|Hloop]; [|done].
        exists tries. split; [done|].
        intros ->. by rewrite bool_decide_eq_true_2 in Hb. }
    destruct (caching tcp) eqn:Hc.
    + destruct (wget_dns_cache_get host port st) as [[hit|] s1]; [intros [=]|].
      destruct (wget_dns_cache_get host port _) as [[hit|] s2] eqn:Hget; [intros [=]|].
      apply Hattempt. intros _.
      unfold wget_dns_cache_get in Hget. by injection Hget as Hl <-.
    + apply Hattempt. done.
Qed.

(** The trace only grows, by the events of each primitive. *)
Lemma trace_emit e s : trace (emit e s) = trace s ++ [e].
Proof. done. Qed.

Lemma trace_interfere o host port s : trace (interfere o host port s) = trace s.
Proof. done. Qed.

Lemma trace_lock w host port n s :
  trace (wget_thread_mutex_lock w host port n s) = trace s ++ [EvLock].
Proof. unfold wget_thread_mutex_lock. by rewrite trace_emit, trace_interfere. Qed.

Lemma trace_sleep w host port n ms s :
  trace (wget_millisleep w host port n ms s) = trace s ++ [EvSleep ms].
Proof. unfold wget_millisleep. by rewrite trace_interfere, trace_emit. Qed.

Lemma not_elem_of_snoc (e x : event) t : (e ∉ t ++ [x]) ↔ (e ∉ t) ∧ e ≠ x.
Proof. rewrite not_elem_of_app, not_elem_of_cons. pose proof (not_elem_of_nil e). tauto. Qed.

(** A [return] inside the loop happens only with caching, and the loop itself
    never adds to the cache. *)
Lemma resolve_loop_returned w tcp host port max todo rc0 ai0 st hit st' :
  resolve_loop w tcp host port max todo rc0 ai0 st = (Returned hit, st') →
  caching tcp = true ∧ (EvCacheAdd ∉ trace st → EvCacheAdd ∉ trace st').
Proof.
  revert rc0 ai0 st. induction todo as [|todo IH]; intros rc0 ai0 st; [intros [=]|].
  rewrite resolve_loop_S. cbv zeta.
  set (tries := (max - S todo)%nat).
  assert (Hattempt : ∀ s, (EvCacheAdd ∉ trace st → EvCacheAdd ∉ trace s) →
    (let '(rc1, ai1, s1) := _wget_tcp_resolve w tries s in
     if bool_decide (rc1 = 0) || negb (bool_decide (rc1 = EAI_AGAIN))
     then (Fallthrough rc1 ai1, s1)
     else resolve_loop w tcp host port max todo rc1 ai1
            (if bool_decide (tries < max - 1)%nat
             then wget_millisleep w host port tries 100
                    (if caching tcp then emit EvUnlock s1 else s1)
             else s1)) = (Returned hit, st') →
    caching tcp = true ∧ (EvCacheAdd ∉ trace st → EvCacheAdd ∉ trace st')).
  { intros s Hs. unfold _wget_tcp_resolve.
    destruct (getaddrinfo w tries) as [rc1 ai1]. cbn [fst].
    destruct (_ || _); [intros [=]|].
    intros Hloop. apply IH in Hloop as [Hc Hloop]. split; [done|].
    intros Hst. apply Hloop. specialize (Hs Hst). rewrite Hc.
    case_bool_decide;
      rewrite ?trace_sleep, ?trace_emit, ?not_elem_of_snoc; intuition discriminate. }
  destruct (caching tcp) eqn:Hc; [|apply Hattempt; done].
  unfold wget_dns_cache_get at 1.
  destruct (dns_cache st !! (host, port)) as [h|].
  { intros [= <- <-]. split; [done|]. rewrite trace_emit, not_elem_of_snoc. intuition discriminate. }
  unfold wget_dns_cache_get at 1.
  destruct (dns_cache (wget_thread_mutex_lock _ _ _ _ _) !! _) as [h|].
  { intros [= <- <-]. split; [done|].
    rewrite !trace_emit, trace_lock, trace_emit, !not_elem_of_snoc. intuition discriminate. }
  apply Hattempt.
  rewrite !trace_emit, trace_lock, trace_emit, !not_elem_of_snoc. intuition discriminate.
Qed.

(** C9. Ordering of a resolved address list. A call that returns a list [r]
    which it resolved itself (caching is off, or the call added its answer to
    the DNS cache; a call answered from the cache returns the cached list
    as it is) returns a successful getaddrinfo(3) answer [l], reordered or
    not: when the family is [AF_UNSPEC] and a preferred family is set, [r] is
    a permutation of [l] with the addresses of the preferred family first and
    the order of [l] kept inside both groups; when the family is fixed or no
    family is preferred, [r] is [l] itself. *)
Theorem wget_tcp_resolve_preferred_order w tcp host port cache r st' :
  wget_tcp_resolve w tcp host port (mk_state cache []) = (Some r, st') →
  caching tcp = false ∨ EvCacheAdd ∈ trace st' →
  ∃ n l, getaddrinfo w n = (0, l) ∧
     (family tcp = AF_UNSPEC → preferred_family tcp ≠ AF_UNSPEC →
        r = _wget_sort_preferred l (preferred_family tcp) ∧
        preferred_first (preferred_family tcp) l r) ∧
     (family tcp ≠ AF_UNSPEC ∨ preferred_family tcp = AF_UNSPEC → r = l).
Proof.
  unfold wget_tcp_resolve.
  destruct (resolve_loop _ _ _ _ _ _ _ _ _) as [[hit|rc ai] st1] eqn:Hloop.
  - intros [= <- <-] Hresolved. exfalso.
    apply resolve_loop_returned in Hloop as [Hc Hloop].
    destruct Hresolved as [Hoff|Hadd]; [congruence|].
    revert Hadd. apply Hloop. simpl. apply not_elem_of_nil.
  - case_bool_decide as Hrc; [intros [=]|].
    assert (rc = 0) as -> by lia.
    apply resolve_loop_fallthrough in Hloop as [[[=] _]|(n & Hn & Hcache)].
    intros Hret _. exists n, ai. split; [done|].
    assert (r = if bool_decide (family tcp = AF_UNSPEC)
                   && negb (bool_decide (preferred_family tcp = AF_UNSPEC))
                then _wget_sort_preferred ai (preferred_family tcp) else ai) as Hr.
    { destruct (caching tcp) eqn:Hc; [|by injection Hret as <- _].
      unfold wget_dns_cache_add in Hret. rewrite Hcache in Hret by done.
      by injection Hret as <- _. }
    split.
    + intros Hf Hp. rewrite !bool_decide_eq_true_2, bool_decide_eq_false_2 in Hr by done.
      simpl in Hr. subst r. split; [done|]. apply sort_preferred_preferred_first.
    + intros [Hf|Hp].
      * by rewrite (bool_decide_eq_false_2 _ Hf) in Hr.
      * rewrite (bool_decide_eq_true_2 _ Hp), andb_false_r in Hr. done.
Qed.

(** A concrete call, with caching on and an empty cache: four addresses of
    mixed families, IPv4 preferred. *)
Definition mixed_world : world :=
  mk_world
    (λ _, (0, [mk_addrinfo AF_INET6 "::1"; mk_addrinfo AF_INET "10.0.0.1";
               mk_addrinfo AF_INET6 "::2"; mk_addrinfo AF_INET "10.0.0.2"]))
    (λ _, None) (λ _, None).

Definition mixed_sorted : list addrinfo :=
  [mk_addrinfo AF_INET "10.0.0.1"; mk_addrinfo AF_INET "10.0.0.2";
   mk_addrinfo AF_INET6 "::1"; mk_addrinfo AF_INET6 "::2"].

Definition mixed_trace : list event :=
  [EvCacheGet false; EvLock; EvCacheGet false; EvResolve 0; EvCacheAdd; EvUnlock].

Lemma wget_tcp_resolve_preferred_order_witness :
  wget_tcp_resolve mixed_world (mk_tcp true AF_UNSPEC AF_INET) "h" 80 (mk_state ∅ [])
    = (Some mixed_sorted, mk_state {[ ("h", 80) := mixed_sorted ]} mixed_trace) ∧
  ∃ n l, getaddrinfo mixed_world n = (0, l) ∧
    (family (mk_tcp true AF_UNSPEC AF_INET) = AF_UNSPEC →
     preferred_family (mk_tcp true AF_UNSPEC AF_INET) ≠ AF_UNSPEC →
       mixed_sorted = _wget_sort_preferred l AF_INET ∧
       preferred_first AF_INET l mixed_sorted) ∧
    (family (mk_tcp true AF_UNSPEC AF_INET) ≠ AF_UNSPEC
     ∨ preferred_family (mk_tcp true AF_UNSPEC AF_INET) = AF_UNSPEC →
       mixed_sorted = l).
Proof.
  split; [reflexivity|].
  apply (wget_tcp_resolve_preferred_order mixed_world
           (mk_tcp true AF_UNSPEC AF_INET) "h" 80 ∅ _
           (mk_state {[ ("h", 80) := mixed_sorted ]} mixed_trace)).
  - reflexivity.
  - right. simpl. unfold mixed_trace. rewrite !elem_of_cons. tauto.
Defined.

(** ** The resolve loop *)

(** The loop makes at most one getaddrinfo(3) call per turn. *)
Lemma resolve_calls_snoc t e :
  resolve_calls (t ++ [e]) = (resolve_calls t + (if is_resolve e then 1 else 0))%nat.
Proof.
  unfold resolve_calls. rewrite filter_app, length_app. f_equal.
  destruct e; reflexivity.
Qed.

Lemma resolve_loop_calls w tcp host port max todo rc0 ai0 st :
  (resolve_calls (trace (snd (resolve_loop w tcp host port max todo rc0 ai0 st)))
     ≤ resolve_calls (trace st) + todo)%nat.
Proof.
  revert rc0 ai0 st. induction todo as [|todo IH]; intros rc0 ai0 st; [simpl; lia|].
  rewrite resolve_loop_S. cbv zeta.
  set (tries := (max - S todo)%nat).
  assert (Hattempt : ∀ s, resolve_calls (trace s) = resolve_calls (trace st) →
    (resolve_calls (trace (snd
      (let '(rc1, ai1, s1) := _wget_tcp_resolve w tries s in
       if bool_decide (rc1 = 0%Z) || negb (bool_decide (rc1 = EAI_AGAIN))
       then (Fallthrough rc1 ai1, s1)
       else resolve_loop w tcp host port max todo rc1 ai1
              (if bool_decide (tries < max - 1)%nat
               then wget_millisleep w host port tries 100%Z
                      (if caching tcp then emit EvUnlock s1 else s1)
               else s1)))) ≤ resolve_calls (trace st) + S todo)%nat).
  { intros s Hs. unfold _wget_tcp_resolve.
    destruct (getaddrinfo w tries) as [rc1 ai1]. cbn [fst].
    destruct (_ || _).
    - cbn [snd]. rewrite trace_emit, resolve_calls_snoc. simpl. lia.
    - etrans; [apply IH|].
      destruct (bool_decide _), (caching tcp);
        rewrite ?trace_sleep, ?trace_emit, ?resolve_calls_snoc; simpl; lia. }
  destruct (caching tcp) eqn:Hc; [|by apply Hattempt].
  unfold wget_dns_cache_get at 1.
  destruct (dns_cache st !! (host, port)) as [h|].
  { cbn [snd]. rewrite trace_emit, resolve_calls_snoc. simpl. lia. }
  unfold wget_dns_cache_get at 1.
  destruct (dns_cache (wget_thread_mutex_lock _ _ _ _ _) !! _) as [h|].
  { cbn [snd]. rewrite !trace_emit, trace_lock, trace_emit, !resolve_calls_snoc.
    simpl. lia. }
  apply Hattempt.
  rewrite !trace_emit, trace_lock, trace_emit, !resolve_calls_snoc. simpl. lia.
Qed.

Lemma wget_tcp_resolve_calls w tcp host port st :
  (resolve_calls (trace (snd (wget_tcp_resolve w tcp host port st)))
     ≤ resolve_calls (trace st) + 3)%nat.
Proof.
  pose proof (resolve_loop_calls w tcp host port 3 3 0%Z [] st) as Hloop.
  unfold wget_tcp_resolve.
  destruct (resolve_loop _ _ _ _ _ _ _ _ _) as [[ai|rc ai] st1]; [done|].
  cbn [snd] in Hloop.
  destruct (bool_decide _), (caching tcp); cbn [snd];
    unfold wget_dns_cache_add; repeat case_match; simplify_eq; cbn [snd];
    rewrite ?trace_emit, ?resolve_calls_snoc; simpl; lia.
Qed.

(** The shape of the trace of one call with caching, from turn [n] of the
    loop on: a hit in the cache, a hit at the recheck under the lock, a final
    answer of getaddrinfo(3), or a transient failure followed, after the
    unlock and a sleep of 100 ms, by the next turn. Turn 2 is the last. *)
Inductive cached_call : nat → list event → Prop :=
  | call_hit n :
      cached_call n [EvCacheGet true]
  | call_recheck_hit n :
      cached_call n [EvCacheGet false; EvLock; EvCacheGet true; EvUnlock]
  | call_resolved n :
      cached_call n [EvCacheGet false; EvLock; EvCacheGet false; EvResolve 0;
                     EvCacheAdd; EvUnlock]
  | call_failed n rc :
      rc ≠ 0 → rc ≠ EAI_AGAIN →
      cached_call n [EvCacheGet false; EvLock; EvCacheGet false; EvResolve rc;
                     EvUnlock]
  | call_gave_up :
      cached_call 2 [EvCacheGet false; EvLock; EvCacheGet false;
                     EvResolve EAI_AGAIN; EvUnlock]
  | call_retry n t :
      (n < 2)%nat → cached_call (S n) t →
      cached_call n ([EvCacheGet false; EvLock; EvCacheGet false;
                      EvResolve EAI_AGAIN; EvUnlock; EvSleep 100] ++ t).

(** The number of times the resolution is tried again after the first try. *)
Definition retries (t : list event) : nat := (resolve_calls t - 1)%nat.

(** A resolver that always reports a transient failure. *)
Definition always_again : world :=
  mk_world (λ _, (EAI_AGAIN, [])) (λ _, None) (λ _, None).

(** The primitives on an explicit state, for the symbolic execution of a call. *)
Lemma cache_get_hit host port c t hit :
  c !! (host, port) = Some hit →
  wget_dns_cache_get host port (mk_state c t)
    = (Some hit, mk_state c (t ++ [EvCacheGet true])).
Proof. unfold wget_dns_cache_get, emit. simpl. by intros ->. Qed.

Lemma cache_get_miss host port c t :
  c !! (host, port) = None →
  wget_dns_cache_get host port (mk_state c t)
    = (None, mk_state c (t ++ [EvCacheGet false])).
Proof. unfold wget_dns_cache_get, emit. simpl. by intros ->. Qed.

Lemma lock_state w host port n c t :
  ∃ c', wget_thread_mutex_lock w host port n (mk_state c t)
          = mk_state c' (t ++ [EvLock]).
Proof. by eexists. Qed.

Lemma sleep_state w host port n ms c t :
  ∃ c', wget_millisleep w host port n ms (mk_state c t)
          = mk_state c' (t ++ [EvSleep ms]).
Proof. by eexists. Qed.

Lemma cache_add_state host port ai c t :
  ∃ r c', wget_dns_cache_add host port ai (mk_state c t)
            = (r, mk_state c' (t ++ [EvCacheAdd])).
Proof. unfold wget_dns_cache_add. case_match; by eexists _, _. Qed.

(** One step: unfold a turn of the loop, or run the primitive that comes next
    and split on its answer. *)
Ltac run_resolve_step :=
  first
    [ rewrite resolve_loop_S; cbv zeta; cbn [caching Nat.sub]
    | match goal with
      | |- context [wget_dns_cache_get ?h ?p (mk_state ?c ?t)] =>
          let E := fresh "Hget" in
          destruct (c !! (h, p)) eqn:E;
          [ rewrite (cache_get_hit h p c t _ E)
          | rewrite (cache_get_miss h p c t E) ]
      | |- context [wget_thread_mutex_lock ?w ?h ?p ?n (mk_state ?c ?t)] =>
          let c' := fresh "cache" in
          destruct (lock_state w h p n c t) as [c' ->]
      | |- context [wget_millisleep ?w ?h ?p ?n ?ms (mk_state ?c ?t)] =>
          let c' := fresh "cache" in
          destruct (sleep_state w h p n ms c t) as [c' ->]
      | |- context [wget_dns_cache_add ?h ?p ?ai (mk_state ?c ?t)] =>
          let c' := fresh "cache" in let r := fresh "res" in
          destruct (cache_add_state h p ai c t) as (r & c' & ->)
      | |- context [_wget_tcp_resolve ?w ?n (mk_state ?c ?t)] =>
          let rc := fresh "rc" in let ai := fresh "ai" in
          unfold _wget_tcp_resolve; destruct (getaddrinfo w n) as [rc ai];
          destruct (decide (rc = 0)) as [->|?];
            [|destruct (decide (rc = EAI_AGAIN)) as [->|?]];
          rewrite ?bool_decide_eq_true_2, ?bool_decide_eq_false_2 by done;
          cbn [orb negb fst]
      end
    | progress (unfold emit; cbn [dns_cache trace app])
    | case_bool_decide; [try (exfalso; lia) | try (exfalso; lia)] ].

Ltac run_resolve := unfold wget_tcp_resolve; repeat run_resolve_step.

(** C8, as the code has it. With caching, a call first consults the cache and returns
    a hit without resolving; on a miss it takes the resolve lock and rechecks
    the cache before it resolves; getaddrinfo(3) is called at most three times
    in all (so it is tried again at most twice), only after a transient
    [EAI_AGAIN] answer and after a sleep of 100 ms; any other answer ends the
    loop at once. *)
Theorem wget_tcp_resolve_attempts w tcp host port cache :
  caching tcp = true →
  let '(r, st') := wget_tcp_resolve w tcp host port (mk_state cache []) in
  cached_call 0 (trace st') ∧
  (resolve_calls (trace st') ≤ 3)%nat ∧
  (∀ hit, cache !! (host, port) = Some hit →
     r = Some hit ∧ trace st' = [EvCacheGet true]) ∧
  (cache !! (host, port) = None →
     ∃ b rest, trace st' = EvCacheGet false :: EvLock :: EvCacheGet b :: rest ∧
       (b = true → rest = [EvUnlock] ∧ is_Some r)).
Proof.
  intros Hc.
  pose proof (wget_tcp_resolve_calls w tcp host port (mk_state cache [])) as Hcalls.
  destruct (wget_tcp_resolve _ _ _ _ _) as [r st'] eqn:Hrun.
  cbn [snd trace] in Hcalls. change (resolve_calls []) with 0%nat in Hcalls.
  cut (cached_call 0 (trace st') ∧
       (∀ hit, cache !! (host, port) = Some hit →
          r = Some hit ∧ trace st' = [EvCacheGet true]) ∧
       (cache !! (host, port) = None →
          ∃ b rest, trace st' = EvCacheGet false :: EvLock :: EvCacheGet b :: rest ∧
            (b = true → rest = [EvUnlock] ∧ is_Some r))).
  { intros (? & ? & ?). auto. }
  clear Hcalls. revert Hrun. destruct tcp as [c f pf]. simpl in Hc. subst c.
  run_resolve.
  all: intros [= <- <-]; cbn [trace].
  all: split;
    [ repeat first
        [ apply call_hit | apply call_recheck_hit | apply call_resolved
        | apply call_gave_up | apply call_failed; [done|done]
        | apply call_retry; [lia|] ]
    | split;
      [ by intros ? [= <-]
      | intros Hmiss; first
          [ discriminate Hmiss
          | eexists _, _; split; [reflexivity|];
            intros [=]; (split; [reflexivity|by eexists]) ] ] ].
Qed.

(** C8, as the specification states it: "retried up to three additional times" would
    make four calls of getaddrinfo(3) when every answer is transient. The
    loop makes three, that is two retries. *)
Lemma wget_tcp_resolve_retries_counterexample :
  let st' := snd (wget_tcp_resolve always_again (mk_tcp true AF_UNSPEC AF_UNSPEC)
                    "h" 80 (mk_state ∅ [])) in
  resolve_calls (trace st') = 3%nat ∧ retries (trace st') ≠ 3%nat.
Proof. vm_compute. split; [reflexivity|discriminate]. Qed.

Lemma wget_tcp_resolve_attempts_witness :
  caching (mk_tcp true AF_UNSPEC AF_UNSPEC) = true ∧
  let '(r, st') := wget_tcp_resolve always_again (mk_tcp true AF_UNSPEC AF_UNSPEC)
                     "h" 80 (mk_state ∅ []) in
  cached_call 0 (trace st') ∧
  (resolve_calls (trace st') ≤ 3)%nat ∧
  (∀ hit, (∅ : gmap (string * Z) (list addrinfo)) !! ("h", 80) = Some hit →
     r = Some hit ∧ trace st' = [EvCacheGet true]) ∧
  ((∅ : gmap (string * Z) (list addrinfo)) !! ("h", 80) = None →
     ∃ b rest, trace st' = EvCacheGet false :: EvLock :: EvCacheGet b :: rest ∧
       (b = true → rest = [EvUnlock] ∧ is_Some r)).
Proof.
  split; [reflexivity|].
  apply (wget_tcp_resolve_attempts always_again (mk_tcp true AF_UNSPEC AF_UNSPEC)
           "h" 80 ∅).
  reflexivity.
Defined.


End NetSpec.

(* ===================================================================== *)
(** * Properties of the quota and of persistence (mget.c) *)
(* ===================================================================== *)

Module PersistSpec.
Import Options Persist.

Local Open Scope Z_scope.

Section Quota.

Context (cfg : config).

(** The number of bytes of a response that [_save_file] writes: the header
    when headers are saved, and the body. *)
Definition response_length (resp : HTTP_RESPONSE) : Z :=
  (if save_headers cfg then from_option CStr.strlen 0 (header resp) else 0)
  + CStr.strlen (body resp).

Lemma strlen_nonneg s : 0 ≤ CStr.strlen s.
Proof. unfold CStr.strlen. lia. Qed.

Lemma response_length_nonneg resp : 0 ≤ response_length resp.
Proof.
  unfold response_length.
  pose proof (strlen_nonneg (body resp)).
  destruct (save_headers cfg), (header resp) as [h|]; simpl;
    try pose proof (strlen_nonneg h); lia.
Qed.

Lemma reserved_length_spec resp n :
  reserved_length cfg resp = Some n →
  n = (if save_headers cfg then to_size_t (response_length resp)
       else response_length resp).
Proof.
  unfold reserved_length, response_length.
  destruct (save_headers cfg); [|by intros [= <-]].
  destruct (header resp) as [h|]; [|done]. by intros [= <-].
Qed.

(** ** What writing does to the counters *)

Lemma write_counters d s st :
  quota_used (write d s st).2 = quota_used st ∧
  exit_status (write d s st).2 = exit_status st ∧
  bytes_written (write d s st).2 = bytes_written st + CStr.strlen s.
Proof. done. Qed.

Lemma write_response_counters d resp st d' st' :
  write_response cfg d resp st = Some (d', st') →
  quota_used st' = quota_used st ∧
  exit_status st' = exit_status st ∧
  bytes_written st' = bytes_written st + response_length resp.
Proof.
  unfold write_response, response_length. intros H.
  apply bind_Some in H as ([d1 st1] & H1 & [= _ <-]).
  destruct (save_headers cfg).
  - apply bind_Some in H1 as (h & -> & [= _ <-]). simpl. repeat split; lia.
  - injection H1 as _ <-. simpl. repeat split; lia.
Qed.

Lemma save_loop_counters todo fnum name flag multiple resp fd st fd' fnum' st' :
  save_loop cfg todo fnum name flag multiple resp fd st = Some (fd', fnum', st') →
  quota_used st' = quota_used st ∧
  exit_status st' = exit_status st ∧
  (bytes_written st' = bytes_written st ∨
   bytes_written st' = bytes_written st + response_length resp).
Proof.
  revert fnum fd st. induction todo as [|todo IH]; intros fnum fd st; simpl.
  - intros [= _ _ <-]. auto.
  - destruct fd as [d|errno].
    + intros H. apply bind_Some in H as ([d1 st1] & Hw & [= _ _ <-]).
      apply write_response_counters in Hw as (Hq & He & Hb).
      destruct (_ && _); simpl; auto.
    + destruct (multiple && (errno =? EEXIST)); [|intros [= _ _ <-]; auto].
      destruct (open _ _ _) as [fd1 f1]. intros H%IH. exact H.
Qed.

(** ** One call of [_save_file] *)

(** The part of [_save_file] behind the quota check keeps the quota counter
    and writes the response, or nothing. *)
Definition attempted (resp : HTTP_RESPONSE) (st1 st' : state) : Prop :=
  quota_used st' = quota_used st1 ∧
  (bytes_written st' = bytes_written st1 ∨
   bytes_written st' = bytes_written st1 + response_length resp).

(** The three ways a call ends: it returns before the quota is looked at; or
    it reserves [n] bytes and returns because the counter had reached the
    quota before; or it goes on to write, after the reservation if a quota is
    configured. *)
Definition skipped (st st' : state) : Prop := st' = st.

Definition refused (resp : HTTP_RESPONSE) (st st' : state) : Prop :=
  quota cfg ≠ 0 ∧
  ∃ n, reserved_length cfg resp = Some n ∧
       quota cfg ≤ (quota_modify_read n st).1 ∧
       st' = (quota_modify_read n st).2.

Definition passed (resp : HTTP_RESPONSE) (st st' : state) : Prop :=
  (quota cfg = 0 ∧ attempted resp st st') ∨
  (quota cfg ≠ 0 ∧
   ∃ n, reserved_length cfg resp = Some n ∧
        (quota_modify_read n st).1 < quota cfg ∧
        attempted resp (quota_modify_read n st).2 st').

Lemma attempted_refl resp st : attempted resp st st.
Proof. split; auto. Qed.

Lemma attempted_exit_status resp st st' :
  attempted resp st st' → attempted resp st (set_exit_status 3 st').
Proof. done. Qed.

(** Does a call get as far as the quota check? It does unless the run is in
    spider mode, there is no file name, or the name ends in '/'. *)
Definition reaches_quota (fname : fname_arg) : bool :=
  negb (spider cfg) &&
  match fname_string cfg fname with
  | Some name =>
      match CStr.last_char name with
      | Some c => negb (Ascii.eqb c "/")
      | None => false
      end
  | None => false
  end.

Lemma save_file_unreached resp fname flag st st' :
  reaches_quota fname = false →
  _save_file cfg resp fname flag st = Some st' →
  st' = st.
Proof.
  unfold reaches_quota, _save_file. intros Hr.
  destruct (spider cfg); [by intros [= <-]|]. cbn [negb andb] in Hr.
  destruct (fname_string cfg fname) as [name|]; [|by intros [= <-]].
  intros H. apply bind_Some in H as (c & Hc & H). rewrite Hc in Hr.
  destruct (Ascii.eqb c "/"); [by injection H as <-|done].
Qed.

Lemma save_file_reached resp fname flag st st' :
  reaches_quota fname = true →
  _save_file cfg resp fname flag st = Some st' →
  refused resp st st' ∨ passed resp st st'.
Proof.
  unfold reaches_quota, _save_file. intros Hr.
  destruct (spider cfg); [done|]. cbn [negb andb] in Hr.
  destruct (fname_string cfg fname) as [name|]; [|done].
  intros H. apply bind_Some in H as (c & Hc & H). rewrite Hc in Hr.
  destruct (Ascii.eqb c "/"); [done|]. clear Hr.
  apply bind_Some in H as ([exceeded st1] & Hq & H).
  assert (attempted resp st1 st' → ¬ exceeded → passed resp st st') as Hpass.
  { intros Hatt Hex. destruct (quota cfg =? 0) eqn:Hz; simpl in Hq.
    - simplify_eq. left. split; [lia|done].
    - apply bind_Some in Hq as (n & Hn & Hq). right. split; [lia|].
      exists n. split; [done|].
      unfold quota_modify_read in Hq |- *. cbv zeta in Hq |- *. cbn [fst snd]. simplify_eq.
      split; [|exact Hatt]. apply Is_true_false, Z.leb_gt in Hex. exact Hex. }
  destruct exceeded.
  { injection H as <-. left.
    destruct (quota cfg =? 0) eqn:Hz; simpl in Hq; [done|].
    apply bind_Some in Hq as (n & Hn & Hq). split; [lia|]. exists n.
    split; [done|]. unfold quota_modify_read in Hq |- *. cbv zeta in Hq |- *. cbn [fst snd].
    simplify_eq. split; [lia|done]. }
  right. apply Hpass; [|intros []]. clear Hpass Hq.
  destruct (_ && _).
  { apply bind_Some in H as (st2 & H2 & [= <-]).
    destruct (save_headers cfg) eqn:Hs.
    - apply bind_Some in H2 as (h & Hh & [= <-]).
      split; [done|right]. unfold response_length. rewrite Hs, Hh. simpl. lia.
    - injection H2 as <-.
      split; [done|right]. unfold response_length. rewrite Hs. simpl. lia. }
  destruct (_ && _); [injection H as <-; apply attempted_refl|].
  repeat match type of H with
         | context [let '(_, _) := ?x in _] => destruct x
         end.
  apply bind_Some in H as ([[fd' fnum'] st2] & Hloop & H).
  apply save_loop_counters in Hloop as (Hq & He & Hb).
  assert (attempted resp st1 st2) as Hatt by done.
  destruct fd' as [d'|errno]; [by injection H as <-|].
  destruct (_ && _); injection H as <-; [done|by apply attempted_exit_status].
Qed.

(** ** The quota counter over a run *)

Definition total_length (rs : list (HTTP_RESPONSE * fname_arg * Z)) : Z :=
  foldr (λ r acc, response_length r.1.1 + acc) 0 rs.

Definition max_length (rs : list (HTTP_RESPONSE * fname_arg * Z)) : Z :=
  foldr (λ r acc, Z.max (response_length r.1.1) acc) 0 rs.

(** The bytes reserved in a run: the lengths of the responses of the calls
    that get as far as the quota check. *)
Definition reserved_total (rs : list (HTTP_RESPONSE * fname_arg * Z)) : Z :=
  foldr (λ r acc, (if reaches_quota r.1.2 then response_length r.1.1 else 0) + acc)
    0 rs.

Lemma total_length_nonneg rs : 0 ≤ total_length rs.
Proof.
  induction rs as [|r rs IH]; simpl; [lia|].
  pose proof (response_length_nonneg r.1.1). lia.
Qed.

Lemma max_length_nonneg rs : 0 ≤ max_length rs.
Proof. induction rs as [|r rs IH]; simpl; lia. Qed.

(** Without overflow the counter is read and advanced as a number. *)
Lemma quota_read q : 0 ≤ q < 2 ^ 63 → wrap64 (to_size_t q) = q.
Proof.
  intros Hq. unfold wrap64, to_size_t.
  rewrite (Z.mod_small q) by lia.
  rewrite Z.mod_small by lia. lia.
Qed.

Lemma quota_advance resp q n :
  0 ≤ q → q + response_length resp < 2 ^ 63 →
  reserved_length cfg resp = Some n →
  wrap64 (to_size_t q + n) = q + response_length resp.
Proof.
  intros Hq Hsum Hn. pose proof (response_length_nonneg resp) as Hl.
  apply reserved_length_spec in Hn.
  assert (n = response_length resp) as ->.
  { destruct (save_headers cfg); [|done]. subst n. unfold to_size_t.
    apply Z.mod_small. lia. }
  unfold wrap64, to_size_t.
  rewrite (Z.mod_small q) by lia.
  rewrite Z.mod_small by lia. lia.
Qed.

(** One call that gets as far as the quota check, read on the counter as a
    number: it reserves the length of the response, whatever follows; when
    the counter had reached the quota before, it leaves the files, the
    exit status and the bytes written as they were; when the counter was
    below the quota, it goes on to write the response, or fails to open the
    file. *)
Definition reserved (resp : HTTP_RESPONSE) (st st' : state) : Prop :=
  quota_used st' = quota_used st + response_length resp ∧
  (quota cfg ≤ quota_used st →
   fsys st' = fsys st ∧ bytes_written st' = bytes_written st ∧
   exit_status st' = exit_status st) ∧
  (quota_used st < quota cfg →
   bytes_written st' = bytes_written st ∨
   bytes_written st' = bytes_written st + response_length resp).

(** One call: it reserves, or it returns before the quota is looked at and
    changes nothing. *)
Definition call_outcome (resp : HTTP_RESPONSE) (fname : fname_arg)
    (st st' : state) : Prop :=
  if reaches_quota fname then reserved resp st st' else st' = st.

Lemma save_file_call_outcome resp fname flag st st' :
  0 < quota cfg →
  0 ≤ quota_used st → quota_used st + response_length resp < 2 ^ 63 →
  _save_file cfg resp fname flag st = Some st' →
  call_outcome resp fname st st'.
Proof.
  intros Hcfg Hq Hsum Hcall. pose proof (response_length_nonneg resp) as Hl.
  unfold call_outcome. destruct (reaches_quota fname) eqn:Hr;
    [|by eapply save_file_unreached].
  apply (save_file_reached _ _ _ _ _ Hr) in Hcall
    as [(_ & n & Hn & Hle & ->)|[[Hz _]|(_ & n & Hn & Hlt & Hq' & Hb)]]; [|lia|].
  - unfold quota_modify_read in *. cbv zeta in *. cbn [fst snd] in *.
    rewrite quota_read in Hle by lia.
    cbn [quota_used fsys bytes_written exit_status].
    rewrite (quota_advance resp) by done.
    split; [done|]. split; [done|lia].
  - unfold quota_modify_read in *. cbv zeta in *. cbn [fst snd] in *.
    rewrite quota_read in Hlt by lia.
    cbn [quota_used bytes_written] in *.
    rewrite (quota_advance resp) in Hq' by done.
    split; [done|]. split; [lia|]. intros _. exact Hb.
Qed.

Lemma reserved_total_bounds rs : 0 ≤ reserved_total rs ≤ total_length rs.
Proof.
  induction rs as [|r rs IH]; simpl; [lia|].
  pose proof (response_length_nonneg r.1.1). destruct (reaches_quota r.1.2); lia.
Qed.

Lemma save_all_quota rs st st' :
  0 < quota cfg →
  0 ≤ bytes_written st ≤ quota_used st →
  quota_used st + total_length rs < 2 ^ 63 →
  save_all cfg rs st = Some st' →
  quota_used st' = quota_used st + reserved_total rs ∧
  bytes_written st' ≤ quota_used st' ∧
  (bytes_written st' = bytes_written st ∨
   bytes_written st' < quota cfg + max_length rs).
Proof.
  intros Hcfg. revert st. induction rs as [|[[resp fname] flag] rs IH]; intros st Hst Hsum.
  - simpl. intros [= <-]. split; [lia|]. split; [lia|by left].
  - simpl in Hsum |- *. intros H. apply bind_Some in H as (st1 & Hcall & Hrest).
    pose proof (response_length_nonneg resp) as Hl.
    pose proof (total_length_nonneg rs) as Ht.
    pose proof (max_length_nonneg rs) as Hm.
    apply save_file_call_outcome in Hcall; [|lia..].
    assert (0 ≤ bytes_written st1 ≤ quota_used st1 ∧
            quota_used st1 =
              quota_used st
              + (if reaches_quota fname then response_length resp else 0) ∧
            (bytes_written st1 = bytes_written st ∨
             bytes_written st1 < quota cfg + response_length resp))
      as (Hst1 & Hq1 & Hb1).
    { unfold call_outcome in Hcall. destruct (reaches_quota fname).
      - destruct Hcall as (Hres & Hfull & Hfree).
        destruct (Z.le_gt_cases (quota cfg) (quota_used st)) as [Hle|Hlt].
        + destruct (Hfull Hle) as (_ & Hb & _). lia.
        + destruct (Hfree ltac:(lia)) as [Hb|Hb]; lia.
      - subst st1. lia. }
    apply IH in Hrest as (Hres & Hbound & Hwritten);
      [|lia|destruct (reaches_quota fname); lia].
    split; [lia|]. split; [lia|]. lia.
Qed.


(** C10. A call in spider mode, without a file name, or with a file name that
    ends in '/' returns the state as it was: nothing is written and nothing
    is reserved on the quota counter. *)
Theorem save_file_skips (resp : HTTP_RESPONSE) (fname : fname_arg) (flag : Z)
    (st : state) :
  spider cfg = true ∨
  fname_string cfg fname = None ∨
  (∃ name, fname_string cfg fname = Some name ∧
           CStr.last_char name = Some "/"%char) →
  _save_file cfg resp fname flag st = Some st.
Proof.
  unfold _save_file. intros [->|[->|(name & -> & Hlast)]]; [done|by destruct (spider cfg)|].
  destruct (spider cfg); [done|]. by rewrite Hlast.
Qed.

End Quota.

(** ** A run with a quota of 1000 bytes and two bodies of 700 bytes *)

Definition quota_config : config :=
  {| recursive := false; span_hosts := false; robots := false; parent := true;
     https_only := false; trust_server_names := false; max_redirect := 20;
     exclude_domains := ∅; output_document := None; spider := false;
     delete_after := false; save_headers := false; adjust_extension := false;
     timestamping := false; clobber := true; directories := true;
     quota := 1000 |}.

Fixpoint bytes (n : nat) : string :=
  match n with
  | O => EmptyString
  | S n => String "x"%char (bytes n)
  end.

Definition body_700 : HTTP_RESPONSE := mk_response None (bytes 700) None 0.

Definition two_bodies : list (HTTP_RESPONSE * fname_arg * Z) :=
  [(body_700, Name "a", O_TRUNC); (body_700, Name "b", O_TRUNC)].

Definition empty_state : state := mk_state 0 (mk_fs ∅ "" ∅) 0 0.



Lemma save_file_skips_witness :
  (spider quota_config = true ∨
   fname_string quota_config (Name "dir/") = None ∨
   (∃ name, fname_string quota_config (Name "dir/") = Some name ∧
            CStr.last_char name = Some "/"%char)) ∧
  _save_file quota_config body_700 (Name "dir/") O_TRUNC empty_state = Some empty_state.
Proof.
  assert (spider quota_config = true ∨
          fname_string quota_config (Name "dir/") = None ∨
          (∃ name, fname_string quota_config (Name "dir/") = Some name ∧
                   CStr.last_char name = Some "/"%char)) as H.
  { right; right. exists "dir/"%string. split; reflexivity. }
  split; [exact H|].
  exact (save_file_skips quota_config body_700 (Name "dir/") O_TRUNC empty_state H).
Defined.

End PersistSpec.

(* ===================================================================== *)
(** * Properties of admission (mget.c) *)
(* ===================================================================== *)

Module AdmissionSpec.
Import Iri Options Admission.

Local Open Scope Z_scope.

(** A stand-in for the URL library in the examples: every URL is an http URL
    on port 80 of the host "h", its path is what follows "http://h", a
    relative URL is appended to "http://h", and the canonical form is the URL
    as written. *)
Definition toy_parse (url : string) : option IRI :=
  Some (mk_iri url IRI_SCHEME_HTTP (Some "h"%string) 80
          (Some (CStr.drop 8 url)) 0).

Definition toy_libmget : libmget :=
  mk_libmget toy_parse
    (λ base url,
       if String.prefix "/" url then toy_parse ("http://h" +:+ url) else toy_parse url)
    (λ _ url, Some url)
    uri.

Definition toy_filename (i : IRI) : option string := path i.

Section Invariant.

Context (L : libmget) (cfg : config) (get_local_filename : IRI → option string).

Abbreviation plain_urls := (plain_urls L).

(** ** Assignments through job pointers keep the URLs of the plain jobs *)

Lemma plain_urls_app q1 q2 : plain_urls (q1 ++ q2) = plain_urls q1 ++ plain_urls q2.
Proof. unfold Admission.plain_urls. by rewrite filter_app, fmap_app. Qed.

Lemma plain_urls_alter (f : JOB → JOB) j q :
  (∀ b, q !! j = Some b → is_plain (f b) = is_plain b ∧ bound (f b) = bound b) →
  plain_urls (alter f j q) = plain_urls q.
Proof.
  revert j. induction q as [|b q IH]; intros j Hf; [done|].
  destruct j as [|j].
  - change (alter f 0%nat (b :: q)) with (f b :: q).
    destruct (Hf b eq_refl) as [Hp Hb].
    unfold Admission.plain_urls. rewrite !filter_cons, Hp.
    destruct (decide _); simpl; by rewrite ?Hb.
  - change (alter f (S j) (b :: q)) with (b :: alter f j q).
    specialize (IH j (λ b' Hb', Hf b' Hb')).
    unfold Admission.plain_urls in *. rewrite !filter_cons.
    destruct (decide _); [rewrite !fmap_cons; f_equal|]; exact IH.
Qed.

(** A step that leaves the blacklist and the plain jobs alone. *)
Definition quiet (st st' : state) : Prop :=
  blacklist st' = blacklist st ∧ plain_urls (queue st') = plain_urls (queue st).

Lemma quiet_refl st : quiet st st.
Proof. done. Qed.

Lemma quiet_trans st1 st2 st3 : quiet st1 st2 → quiet st2 st3 → quiet st1 st3.
Proof. intros [? ?] [? ?]. split; congruence. Qed.

Lemma quiet_update_job j f st :
  (∀ b, is_plain (f b) = is_plain b ∧ bound (f b) = bound b) →
  quiet st (update_job j f st).
Proof. intros Hf. split; [done|]. simpl. apply plain_urls_alter. auto. Qed.

Lemma quiet_defer_on j i st st' : defer_on j i st = Some st' → quiet st st'.
Proof.
  unfold defer_on. intros Hd.
  destruct (queue st !! j) as [b|] eqn:Hb; [|done]. simpl in Hd.
  destruct (deferred b) as [d|] eqn:Hdef; [|done]. simpl in Hd.
  injection Hd as <-. split; [done|]. simpl. apply plain_urls_alter.
  intros b' Hb'. assert (b' = b) as -> by congruence.
  unfold is_plain. simpl. rewrite Hdef. done.
Qed.

Lemma alter_snoc (f : JOB → JOB) q b : alter f (length q) (q ++ [b]) = q ++ [f b].
Proof. induction q as [|a q IH]; [done|]. simpl. f_equal. exact IH. Qed.

Lemma lookup_snoc (q : list JOB) b : (q ++ [b]) !! length q = Some b.
Proof. induction q; [done|]. simpl. assumption. Qed.

Lemma plain_urls_snoc q b :
  plain_urls (q ++ [b]) =
    plain_urls q ++ (if is_plain b then [canonical L (bound b)] else []).
Proof.
  rewrite plain_urls_app. f_equal. unfold Admission.plain_urls.
  rewrite filter_cons. destruct (is_plain b); by destruct (decide _).
Qed.

(** The robots.txt job of a new host is enqueued without touching the
    blacklist or the plain jobs. *)
Lemma quiet_add_robot_job k i st j st' :
  add_robot_job L k i st = Some (j, st') → quiet st st'.
Proof.
  unfold add_robot_job, queue_add.
  destruct (mget_iri_parse_base L (Some i) "/robots.txt") as [r|]; [|done].
  unfold defer_on. cbn [queue update_job set_robot_job set_queue set_hosts].
  rewrite !alter_snoc, lookup_snoc. cbn. intros [= <- <-].
  split; [done|]. cbn [queue update_job set_robot_job set_queue set_hosts].
  by rewrite !alter_snoc, plain_urls_snoc, app_nil_r.
Qed.

(** A step that only assigns to fields of jobs: the blacklist is kept, and
    so are the jobs of the queue, their URLs and their kind. *)
Definition marks (q : list JOB) : list (bool * IRI) :=
  (λ b, (is_plain b, bound b)) <$> q.

Definition still (st st' : state) : Prop :=
  blacklist st' = blacklist st ∧ marks (queue st') = marks (queue st).

Lemma plain_urls_marks q :
  plain_urls q = canonical L ∘ snd <$> filter (λ m, fst m = true) (marks q).
Proof.
  unfold Admission.plain_urls, marks. induction q as [|b q IH]; [done|].
  rewrite fmap_cons, !filter_cons. cbn [fst].
  destruct (decide (is_plain b = true)); [rewrite !fmap_cons; f_equal|]; exact IH.
Qed.

Lemma marks_alter (f : JOB → JOB) j q :
  (∀ b, is_plain (f b) = is_plain b ∧ bound (f b) = bound b) →
  marks (alter f j q) = marks q.
Proof.
  intros Hf. unfold marks. revert j. induction q as [|b q IH]; intros j; [done|].
  destruct j as [|j].
  - change (alter f 0%nat (b :: q)) with (f b :: q).
    rewrite !fmap_cons. by destruct (Hf b) as [-> ->].
  - change (alter f (S j) (b :: q)) with (b :: alter f j q).
    rewrite !fmap_cons. f_equal. apply IH.
Qed.

Lemma still_refl st : still st st.
Proof. done. Qed.

Lemma still_trans st1 st2 st3 : still st1 st2 → still st2 st3 → still st1 st3.
Proof. intros [? ?] [? ?]. split; congruence. Qed.

Lemma still_quiet st st' : still st st' → quiet st st'.
Proof. intros [Hb Hm]. split; [done|]. by rewrite !plain_urls_marks, Hm. Qed.

Lemma still_update_job j f st :
  (∀ b, is_plain (f b) = is_plain b ∧ bound (f b) = bound b) →
  still st (update_job j f st).
Proof. intros Hf. split; [done|]. by apply marks_alter. Qed.

Lemma still_set_up_job job flags nj st st' :
  set_up_job cfg get_local_filename job flags nj st = Some st' → still st st'.
Proof.
  unfold set_up_job. intros H.
  apply bind_Some in H as (st1 & H1 & H).
  apply bind_Some in H as (st2 & H2 & H).
  injection H as <-.
  assert (still st st1) as Q1.
  { destruct (output_document cfg); [by simplify_eq|].
    destruct (_ || _); simplify_option_eq; by apply still_update_job. }
  assert (still st1 st2) as Q2.
  { destruct job as [j|]; [|by simplify_eq]. simplify_option_eq.
    destruct (has_flag _ _); simplify_eq;
      repeat (eapply still_trans; [|by apply still_update_job]); apply still_refl. }
  eapply still_trans; [exact Q1|]. eapply still_trans; [exact Q2|].
  destruct (has_flag flags URL_FLG_SITEMAP); [|done].
  by destruct (still_update_job nj (with_sitemap true) st2).
Qed.

Lemma quiet_set_up_job job flags nj st st' :
  set_up_job cfg get_local_filename job flags nj st = Some st' → quiet st st'.
Proof. intros H. by eapply still_quiet, still_set_up_job. Qed.

(** ** What one admission does to the blacklist and to the plain jobs *)

(** A step keeps the blacklist and the plain jobs, or it blacklists a URL
    that was not blacklisted; only in the second case may it enqueue a plain
    job, and then for that URL. *)
Definition grows (st st' : state) : Prop :=
  blacklist st ⊆ blacklist st' ∧
  (plain_urls (queue st') = plain_urls (queue st) ∨
   ∃ u, (u ∉ blacklist st) ∧ (u ∈ blacklist st') ∧
        plain_urls (queue st') = plain_urls (queue st) ++ [u]).

Lemma grows_quiet st st' : quiet st st' → grows st st'.
Proof. intros [Hb Hq]. split; [by rewrite Hb|by left]. Qed.

(** The robots block of both functions, for a host that is already known. *)
Lemma quiet_known_host (i : IRI) st job st' :
  match hosts_get i st with
  | Some h =>
      match robot_job h with
      | Some j => st ← defer_on j i st; Some (Some j, st)
      | None => Some (None, st)
      end
  | None => Some (None, st)
  end = Some (job, st') →
  quiet st st'.
Proof.
  destruct (hosts_get i st) as [h|]; [|by intros [= _ <-]].
  destruct (robot_job h) as [j|]; [|by intros [= _ <-]].
  intros H. apply bind_Some in H as (st1 & Hd & [= _ <-]).
  by eapply quiet_defer_on.
Qed.

Lemma hosts_add_quiet (i : IRI) st r st' : hosts_add i st = (r, st') → quiet st st'.
Proof.
  unfold hosts_add. destruct (hosts st !! key_of i); by intros [= _ <-].
Qed.

Lemma add_url_to_queue_grows url base st r st' :
  add_url_to_queue L cfg get_local_filename url base st = Some (r, st') →
  grows st st'.
Proof.
  unfold add_url_to_queue.
  destruct (mget_iri_parse_base L base url) as [i|];
    [|intros [= _ <-]; apply grows_quiet, quiet_refl].
  unfold blacklist_add.
  destruct (decide (canonical L i ∈ blacklist st)) as [Hin|Hnotin];
    [intros [= _ <-]; apply grows_quiet, quiet_refl|].
  set (st1 := set_blacklist _ st).
  intros H. apply bind_Some in H as ([job st2] & Hblock & H).
  assert (quiet st1 st2) as [Hb2 Hq2].
  { destruct (recursive cfg); [|injection Hblock as _ <-; apply quiet_refl].
    apply bind_Some in Hblock as (sta & Hdom & Hblock).
    assert (quiet st1 sta) as Qa.
    { destruct (negb (span_hosts cfg)); [|injection Hdom as <-; apply quiet_refl].
      apply bind_Some in Hdom as (h & _ & Hdom).
      destruct (decide _); injection Hdom as <-; done. }
    apply bind_Some in Hblock as ([job' stb] & Hrob & Hblock).
    assert (quiet sta stb) as Qb.
    { destruct (robots cfg); [|injection Hrob as _ <-; apply quiet_refl].
      destruct (hosts_add i sta) as [[k|] stc] eqn:Hadd.
      - apply bind_Some in Hrob as ([j std] & Hrj & [= _ <-]).
        eapply quiet_trans; [by eapply hosts_add_quiet|by eapply quiet_add_robot_job].
      - eapply quiet_trans; [by eapply hosts_add_quiet|by eapply quiet_known_host]. }
    injection Hblock as _ <-.
    eapply quiet_trans; [exact Qa|]. eapply quiet_trans; [exact Qb|].
    by destruct (negb (parent cfg)). }
  apply bind_Some in H as ([j st3] & Hjob & H).
  apply bind_Some in H as (b & Hb & H).
  apply bind_Some in H as (fname & _ & [= _ <-]).
  assert (blacklist st3 = blacklist st2 ∧
          (plain_urls (queue st3) = plain_urls (queue st2) ∨
           plain_urls (queue st3) = plain_urls (queue st2) ++ [canonical L i]))
    as [Hb3 Hq3].
  { destruct job as [j'|]; [injection Hjob as _ <-; auto|].
    unfold queue_add in Hjob. injection Hjob as _ <-.
    split; [done|right]. cbn [queue set_queue]. by rewrite plain_urls_snoc. }
  split.
  - cbn [blacklist update_job set_queue]. rewrite Hb3, Hb2. subst st1.
    cbn [blacklist set_blacklist]. apply union_subseteq_r.
  - cbn [queue update_job set_queue].
    rewrite plain_urls_alter by done.
    destruct Hq3 as [->| ->]; rewrite Hq2; [by left|right].
    exists (canonical L i). split; [done|]. split; [|done].
    cbn [blacklist update_job set_queue]. rewrite Hb3, Hb2. subst st1.
    cbn [blacklist set_blacklist]. by apply elem_of_union_l, elem_of_singleton.
Qed.

(** A step that blacklists [u] and enqueues a plain job for it. *)
Definition enqueues (u : string) (st st' : state) : Prop :=
  (u ∉ blacklist st) ∧ blacklist st' = {[u]} ∪ blacklist st ∧
  plain_urls (queue st') = plain_urls (queue st) ++ [u].

Lemma enqueues_grows u st st' : enqueues u st st' → grows st st'.
Proof.
  intros (Hn & Hb & Hq). split; [rewrite Hb; apply union_subseteq_r|].
  right. exists u. split; [done|]. split; [|done].
  rewrite Hb. by apply elem_of_union_l, elem_of_singleton.
Qed.

Lemma enqueues_quiet_l u st1 st2 st3 :
  quiet st1 st2 → enqueues u st2 st3 → enqueues u st1 st3.
Proof. intros [Hb Hq] H. unfold enqueues in *. by rewrite Hb, Hq in H. Qed.

Lemma enqueues_quiet_r u st1 st2 st3 :
  enqueues u st1 st2 → quiet st2 st3 → enqueues u st1 st3.
Proof. intros H [Hb Hq]. unfold enqueues in *. by rewrite Hb, Hq. Qed.

(** [add_url] keeps the blacklist and the plain jobs, or blacklists the URL
    it was given and enqueues one plain job for it. *)
Lemma add_url_step job url flags st st' :
  add_url L cfg get_local_filename job url flags st = Some st' →
  quiet st st' ∨
  ∃ i, mget_iri_parse L url = Some i ∧ enqueues (canonical L i) st st'.
Proof.
  unfold add_url. intros H.
  apply bind_Some in H as (stop & _ & H).
  destruct stop; [injection H as <-; left; apply quiet_refl|].
  destruct (mget_iri_parse L url) as [i|];
    [|injection H as <-; left; apply quiet_refl].
  destruct (_ && _); [injection H as <-; left; apply quiet_refl|].
  apply bind_Some in H as (ok & _ & H).
  destruct (negb ok); [injection H as <-; left; apply quiet_refl|].
  destruct (_ && _); [injection H as <-; left; apply quiet_refl|].
  apply bind_Some in H as (flow & Hflow & H).
  assert (match flow with Leave s | Proceed _ s => quiet st s end) as Qflow.
  { destruct (_ && _); [|by injection Hflow as <-].
    destruct (hosts_add i st) as [[k|] st1] eqn:Hadd.
    - apply bind_Some in Hflow as ([j st2] & Hrj & [= <-]).
      eapply quiet_trans; [by eapply hosts_add_quiet|by eapply quiet_add_robot_job].
    - apply hosts_add_quiet in Hadd.
      destruct (hosts_get i st1) as [h|]; [|by injection Hflow as <-].
      destruct (robot_job h) as [j|].
      + apply bind_Some in Hflow as (st2 & Hd & [= <-]).
        eapply quiet_trans; [done|by eapply quiet_defer_on].
      + destruct (host_robots h) as [paths|], (path i) as [p|];
          try destruct (robots_disallowed paths p); by injection Hflow as <-. }
  destruct flow as [s|[nj|] s].
  - injection H as <-. by left.
  - left. eapply quiet_trans; [exact Qflow|]. by eapply quiet_set_up_job.
  - revert H. unfold blacklist_add.
    destruct (decide (canonical L i ∈ blacklist s)) as [Hin|Hnotin]; cbn [queue_add].
    { intros [= <-]. by left. }
    intros H. right. exists i. split; [done|].
    eapply enqueues_quiet_l; [exact Qflow|].
    eapply enqueues_quiet_r; [|by eapply quiet_set_up_job].
    split; [done|]. split; [done|].
    cbn [queue set_queue set_blacklist]. by rewrite plain_urls_snoc.
Qed.

Lemma add_url_grows job url flags st st' :
  add_url L cfg get_local_filename job url flags st = Some st' →
  grows st st'.
Proof.
  intros [Q|(i & _ & E)]%add_url_step; [by apply grows_quiet|by eapply enqueues_grows].
Qed.

(** ** The invariant of a run *)

Definition once (st : state) : Prop :=
  NoDup (plain_urls (queue st)) ∧
  ∀ u, u ∈ plain_urls (queue st) → u ∈ blacklist st.

Lemma once_initial : once initial_state.
Proof. split; [constructor|]. intros u Hu. by apply elem_of_nil in Hu. Qed.

Lemma once_grows st st' : once st → grows st st' → once st'.
Proof.
  intros [Hnd Hsub] [Hb [Hq|(u & Hu & Hu' & Hq)]]; unfold once; rewrite Hq.
  - split; [done|]. intros u Hu. by apply Hb, Hsub.
  - split.
    + apply NoDup_app. split; [done|]. split; [|apply NoDup_singleton].
      intros x Hx Hx'. apply list_elem_of_singleton in Hx' as ->.
      by apply Hu, Hsub.
    + intros x [Hx|Hx]%elem_of_app; [by apply Hb, Hsub|].
      by apply list_elem_of_singleton in Hx as ->.
Qed.

Lemma submit_grows c st st' :
  submit L cfg get_local_filename c st = Some st' → grows st st'.
Proof.
  destruct c as [url base|job url flags]; simpl.
  - intros H. apply fmap_Some in H as ([r s] & H & ->).
    by eapply add_url_to_queue_grows.
  - apply add_url_grows.
Qed.

Lemma once_run calls st st' :
  once st → run L cfg get_local_filename calls st = Some st' → once st'.
Proof.
  revert st. induction calls as [|c calls IH]; intros st Hst; simpl.
  - by intros [= <-].
  - intros H. apply bind_Some in H as (st1 & Hc & H).
    eapply IH; [|exact H]. eapply once_grows; [exact Hst|by eapply submit_grows].
Qed.

(** ** Attempts for a URL that is, or is not yet, blacklisted *)

(** A step that blacklists the URL [i] and appends one plain job for it. *)
Definition enqueues_job (i : IRI) (st st' : state) : Prop :=
  blacklist st' = {[canonical L i]} ∪ blacklist st ∧
  marks (queue st') = marks (queue st) ++ [(true, i)].

Lemma seed_blacklisted url base i st :
  mget_iri_parse_base L base url = Some i → canonical L i ∈ blacklist st →
  add_url_to_queue L cfg get_local_filename url base st = Some (None, st).
Proof.
  intros Hp Hin. unfold add_url_to_queue, blacklist_add.
  by rewrite Hp, decide_True.
Qed.

Lemma found_blacklisted job url flags i st st' :
  mget_iri_parse L url = Some i → canonical L i ∈ blacklist st →
  add_url L cfg get_local_filename job url flags st = Some st' →
  quiet st st'.
Proof.
  intros Hp Hin [Q|(i' & Hp' & Hn & _)]%add_url_step; [done|].
  congruence.
Qed.

Lemma seed_first url base i st r st' :
  recursive cfg && robots cfg = false →
  mget_iri_parse_base L base url = Some i → canonical L i ∉ blacklist st →
  add_url_to_queue L cfg get_local_filename url base st = Some (r, st') →
  r = Some (length (queue st)) ∧ enqueues_job i st st'.
Proof.
  intros Hmode Hp Hn. unfold add_url_to_queue, blacklist_add.
  rewrite Hp, decide_False by done.
  set (st1 := set_blacklist _ st).
  intros H. apply bind_Some in H as ([job st2] & Hblock & H).
  assert (job = None ∧ queue st2 = queue st1 ∧ blacklist st2 = blacklist st1)
    as (-> & Hq2 & Hb2).
  { destruct (recursive cfg); [|by simplify_eq].
    simpl in Hmode. rewrite Hmode in Hblock.
    apply bind_Some in Hblock as (sta & Hdom & Hblock).
    simpl in Hblock.
    assert (queue sta = queue st1 ∧ blacklist sta = blacklist st1) as [Hqa Hba].
    { destruct (negb (span_hosts cfg)); [|by injection Hdom as <-].
      apply bind_Some in Hdom as (h & _ & Hdom).
      destruct (decide _); by injection Hdom as <-. }
    destruct (negb (parent cfg)); by simplify_eq. }
  cbn [queue_add] in H. cbn in H.
  rewrite lookup_snoc in H. cbn in H.
  injection H as <- <-.
  split; [by rewrite Hq2|]. split.
  - cbn. by rewrite Hb2.
  - cbn [queue update_job set_queue]. rewrite alter_snoc, Hq2.
    unfold marks. by rewrite fmap_app.
Qed.

Lemma found_first job url flags i st st' :
  recursive cfg && robots cfg = false →
  mget_iri_parse L url = Some i →
  add_url L cfg get_local_filename job url flags st = Some st' →
  (canonical L i ∈ blacklist st → st' = st) ∧
  (canonical L i ∉ blacklist st → st' = st ∨ enqueues_job i st st').
Proof.
  intros Hmode Hp. unfold add_url. rewrite Hp, Hmode. intros H.
  apply bind_Some in H as (stop & _ & H).
  destruct stop; [by injection H as <-; auto|].
  destruct (https_only cfg && _); [by injection H as <-; auto|].
  apply bind_Some in H as (ok & _ & H).
  destruct (negb ok); [by injection H as <-; auto|].
  destruct (recursive cfg && negb (span_hosts cfg) && _);
    [by injection H as <-; auto|].
  cbn in H. revert H. unfold blacklist_add.
  destruct (decide (canonical L i ∈ blacklist st)) as [Hin|Hnotin]; cbn [queue_add].
  { intros [= <-]. auto. }
  intros [Hb Hm]%still_set_up_job. split; [done|]. intros _. right.
  split; [done|]. rewrite Hm. cbn [queue set_queue set_blacklist].
  unfold marks. by rewrite fmap_app.
Qed.

(** ** URLs that wait for robots.txt *)

(** What the robots.txt handling looks at in a job: the URLs deferred on it
    (a robots.txt job has such a list, a plain job has none) and the URL it
    was enqueued for. *)
Definition outline (q : list JOB) : list (option (list IRI) * IRI) :=
  (λ b, (deferred b, bound b)) <$> q.

(** A step that keeps the blacklist, the hosts and the outline of the queue. *)
Definition kept (st st' : state) : Prop :=
  blacklist st' = blacklist st ∧ hosts st' = hosts st ∧
  outline (queue st') = outline (queue st).

Lemma outline_alter (f : JOB → JOB) j q :
  (∀ b, deferred (f b) = deferred b ∧ bound (f b) = bound b) →
  outline (alter f j q) = outline q.
Proof.
  intros Hf. unfold outline. revert j. induction q as [|b q IH]; intros j; [done|].
  destruct j as [|j].
  - change (alter f 0%nat (b :: q)) with (f b :: q).
    rewrite !fmap_cons. by destruct (Hf b) as [-> ->].
  - change (alter f (S j) (b :: q)) with (b :: alter f j q).
    rewrite !fmap_cons. f_equal. apply IH.
Qed.

Lemma plain_urls_outline q1 q2 :
  outline q1 = outline q2 → plain_urls q1 = plain_urls q2.
Proof.
  revert q2. induction q1 as [|b1 q1 IH]; intros [|b2 q2]; try done.
  unfold outline. rewrite !fmap_cons. intros [= Hd Hb Hrest].
  unfold Admission.plain_urls. rewrite !filter_cons.
  assert (is_plain b1 = is_plain b2) as -> by (unfold is_plain; by rewrite Hd).
  specialize (IH q2 Hrest). unfold Admission.plain_urls in IH.
  destruct (decide (is_plain b2 = true)); [|exact IH].
  rewrite !fmap_cons. cbn [compose]. by rewrite Hb, IH.
Qed.

Lemma kept_refl st : kept st st.
Proof. done. Qed.

Lemma kept_trans st1 st2 st3 : kept st1 st2 → kept st2 st3 → kept st1 st3.
Proof. intros (? & ? & ?) (? & ? & ?). repeat split; congruence. Qed.

Lemma kept_update_job j f st :
  (∀ b, deferred (f b) = deferred b ∧ bound (f b) = bound b) →
  kept st (update_job j f st).
Proof. intros Hf. split; [done|]. split; [done|]. by apply outline_alter. Qed.

Lemma kept_set_up_job job flags nj st st' :
  set_up_job cfg get_local_filename job flags nj st = Some st' → kept st st'.
Proof.
  unfold set_up_job. intros H.
  apply bind_Some in H as (st1 & H1 & H).
  apply bind_Some in H as (st2 & H2 & H).
  injection H as <-.
  assert (kept st st1) as Q1.
  { destruct (output_document cfg); [by simplify_eq|].
    destruct (_ || _); simplify_option_eq; by apply kept_update_job. }
  assert (kept st1 st2) as Q2.
  { destruct job as [j|]; [|by simplify_eq]. simplify_option_eq.
    destruct (has_flag _ _); simplify_eq;
      repeat (eapply kept_trans; [|by apply kept_update_job]); apply kept_refl. }
  eapply kept_trans; [exact Q1|]. eapply kept_trans; [exact Q2|].
  destruct (has_flag flags URL_FLG_SITEMAP); [|done].
  by destruct (kept_update_job nj (with_sitemap true) st2) as (? & ? & ?).
Qed.

(** The URL [i] is deferred on the robots.txt job [j], and gets no job of its
    own. For a new host the robots.txt job is appended to the queue, with [i]
    as the only URL deferred on it, and becomes the robots.txt job of the
    host; for a host whose robots.txt job [j] is pending, [i] is appended to
    the URLs deferred on [j] and the queue keeps its jobs. *)
Definition deferred_on (j : nat) (i : IRI) (st st' : state) : Prop :=
  plain_urls (queue st') = plain_urls (queue st) ∧
  match hosts st !! key_of i with
  | None =>
      ∃ r, mget_iri_parse_base L (Some i) "/robots.txt" = Some r ∧
           j = length (queue st) ∧
           outline (queue st') = outline (queue st) ++ [(Some [i], r)] ∧
           hosts st' = <[key_of i := mk_host (Some j) None]> (hosts st)
  | Some h =>
      ∃ d r, robot_job h = Some j ∧
             outline (queue st) !! j = Some (Some d, r) ∧
             outline (queue st') = <[j := (Some (d ++ [i]), r)]> (outline (queue st)) ∧
             hosts st' = hosts st
  end.

Lemma deferred_on_l j i st0 st st' :
  hosts st0 = hosts st → queue st0 = queue st →
  deferred_on j i st st' → deferred_on j i st0 st'.
Proof. unfold deferred_on. by intros -> ->. Qed.

Lemma deferred_on_r j i st st1 st2 :
  hosts st2 = hosts st1 → outline (queue st2) = outline (queue st1) →
  deferred_on j i st st1 → deferred_on j i st st2.
Proof.
  unfold deferred_on. intros Hh Ho [Hp H].
  rewrite Hh, Ho, (plain_urls_outline _ _ Ho). done.
Qed.

Lemma outline_insert_deferred j q b d i :
  q !! j = Some b →
  outline (alter (with_deferred (Some (d ++ [i]))) j q)
    = <[j := (Some (d ++ [i]), bound b)]> (outline q).
Proof.
  revert j. induction q as [|a q IH]; intros [|j]; try done.
  - intros [= ->]. done.
  - intros Hb. change (alter ?f (S j) (a :: q)) with (a :: alter f j q).
    unfold outline in *. rewrite !fmap_cons. cbn [insert list_insert].
    f_equal. by apply IH.
Qed.

(** The robots.txt job of a new host. *)
Lemma deferred_new_host (i : IRI) st j st' :
  hosts st !! key_of i = None →
  add_robot_job L (key_of i) i
    (set_hosts (<[key_of i := mk_host None None]> (hosts st)) st) = Some (j, st') →
  blacklist st' = blacklist st ∧ deferred_on j i st st'.
Proof.
  intros Hnew. unfold add_robot_job, queue_add.
  destruct (mget_iri_parse_base L (Some i) "/robots.txt") as [r|] eqn:Hr; [|done].
  unfold defer_on. cbn [queue update_job set_robot_job set_queue set_hosts hosts].
  rewrite !alter_snoc, lookup_snoc. cbn. intros [= <- <-].
  split; [done|]. unfold deferred_on.
  cbn [queue hosts update_job set_robot_job set_queue set_hosts].
  rewrite Hnew, !alter_snoc. split.
  - rewrite plain_urls_snoc. cbn. by rewrite app_nil_r.
  - exists r. split; [done|]. split; [done|]. split.
    + unfold outline. by rewrite fmap_app.
    + rewrite alter_insert_eq. done.
Qed.

(** A host whose robots.txt job is pending. *)
Lemma deferred_pending (i : IRI) st h j st' :
  hosts st !! key_of i = Some h → robot_job h = Some j →
  defer_on j i st = Some st' →
  blacklist st' = blacklist st ∧ deferred_on j i st st'.
Proof.
  intros Hh Hj. unfold defer_on. intros H.
  apply bind_Some in H as (b & Hb & H).
  apply bind_Some in H as (d & Hd & [= <-]).
  split; [done|]. unfold deferred_on. rewrite Hh.
  cbn [queue hosts update_job set_queue]. split.
  - apply plain_urls_alter. intros b' Hb'. assert (b' = b) as -> by congruence.
    unfold is_plain. cbn. by rewrite Hd.
  - exists d, (bound b). split; [done|]. split.
    + unfold outline. rewrite list_lookup_fmap, Hb. cbn. by rewrite Hd.
    + split; [|done]. by apply outline_insert_deferred.
Qed.

(** The robots block of both functions, for a URL of a new host or of a host
    whose robots.txt job is pending. *)
Lemma seed_deferred url base i st r st' :
  recursive cfg && robots cfg = true →
  mget_iri_parse_base L base url = Some i → canonical L i ∉ blacklist st →
  (∀ h, hosts st !! key_of i = Some h → is_Some (robot_job h)) →
  add_url_to_queue L cfg get_local_filename url base st = Some (r, st') →
  blacklist st' = {[canonical L i]} ∪ blacklist st ∧
  ∃ j, r = Some j ∧ deferred_on j i st st'.
Proof.
  intros [Hrec Hrob]%andb_true_iff Hp Hn Hhost.
  unfold add_url_to_queue, blacklist_add.
  rewrite Hp, decide_False by done.
  set (st1 := set_blacklist _ st). rewrite Hrec, Hrob.
  intros H. apply bind_Some in H as ([job st2] & Hblock & H).
  apply bind_Some in Hblock as (sta & Hdom & Hblock).
  assert (queue sta = queue st ∧ hosts sta = hosts st ∧ blacklist sta = blacklist st1)
    as (Hqa & Hha & Hba).
  { destruct (negb (span_hosts cfg)); [|by injection Hdom as <-].
    apply bind_Some in Hdom as (h & _ & Hdom).
    destruct (decide _); by injection Hdom as <-. }
  apply bind_Some in Hblock as ([job' stb] & Hpark & Hblock).
  assert (blacklist stb = blacklist sta ∧ ∃ j, job' = Some j ∧ deferred_on j i sta stb)
    as (Hbb & j & -> & Hdef).
  { unfold hosts_add, hosts_get in Hpark.
    destruct (hosts sta !! key_of i) as [h|] eqn:Hh.
    - cbv beta iota in Hpark. rewrite Hh in Hpark.
      destruct (Hhost h) as [j Hj]; [by rewrite <- Hha|]. rewrite Hj in Hpark.
      apply bind_Some in Hpark as (std & Hd & [= <- <-]).
      destruct (deferred_pending i sta h j std Hh Hj Hd) as [Hb Hdef].
      split; [done|]. by exists j.
    - apply bind_Some in Hpark as ([j std] & Hrj & [= <- <-]).
      destruct (deferred_new_host i sta j std Hh Hrj) as [Hb Hdef].
      split; [done|]. by exists j. }
  assert (job = Some j ∧ blacklist st2 = blacklist stb ∧ hosts st2 = hosts stb ∧
          queue st2 = queue stb) as (-> & Hb2 & Hh2 & Hq2).
  { destruct (negb (parent cfg)); by injection Hblock as <- <-. }
  cbn [mbind option_bind] in H.
  apply bind_Some in H as (b & Hb & H).
  apply bind_Some in H as (fname & _ & [= <- <-]).
  split.
  - cbn [blacklist update_job set_queue]. rewrite Hb2, Hbb, Hba. done.
  - exists j. split; [done|].
    apply (deferred_on_l j i st sta); [done|done|].
    apply (deferred_on_r j i sta stb); [done| |done].
    cbn [queue update_job set_queue]. rewrite Hq2. by apply outline_alter.
Qed.

Lemma found_deferred job url flags i st st' :
  recursive cfg && robots cfg = true →
  mget_iri_parse L url = Some i →
  (∀ h, hosts st !! key_of i = Some h → is_Some (robot_job h)) →
  add_url L cfg get_local_filename job url flags st = Some st' →
  st' = st ∨ (blacklist st' = blacklist st ∧ ∃ j, deferred_on j i st st').
Proof.
  intros Hmode Hp Hhost. unfold add_url. rewrite Hp, Hmode. intros H.
  apply bind_Some in H as (stop & _ & H).
  destruct stop; [by injection H as <-; auto|].
  destruct (https_only cfg && _); [by injection H as <-; auto|].
  apply bind_Some in H as (ok & _ & H).
  destruct (negb ok); [by injection H as <-; auto|].
  destruct (recursive cfg && negb (span_hosts cfg) && _);
    [by injection H as <-; auto|].
  apply bind_Some in H as (flow & Hflow & H). right.
  unfold hosts_add, hosts_get in Hflow.
  destruct (hosts st !! key_of i) as [h|] eqn:Hh.
  - cbv beta iota in Hflow. rewrite Hh in Hflow.
    destruct (Hhost h eq_refl) as [j Hj]. rewrite Hj in Hflow.
    apply bind_Some in Hflow as (std & Hd & [= <-]). injection H as <-.
    destruct (deferred_pending i st h j std Hh Hj Hd) as [Hb Hdef].
    split; [done|]. by exists j.
  - apply bind_Some in Hflow as ([j std] & Hrj & [= <-]).
    destruct (deferred_new_host i st j std Hh Hrj) as [Hb Hdef].
    apply kept_set_up_job in H as (Hb' & Hh' & Ho').
    split; [congruence|]. exists j.
    by apply (deferred_on_r j i st std).
Qed.

(** C2, as the code has it. In every state that a run of admissions reaches:
    - the jobs other than robots.txt jobs were enqueued for pairwise distinct
      URLs (by canonical form), all of them blacklisted;
    - an attempt for a URL that is already blacklisted enqueues no such job:
      through [add_url_to_queue] it changes nothing at all, through [add_url]
      it keeps the blacklist and the plain jobs, and changes nothing at all
      unless robots.txt handling is on ([recursive] and [robots]);
    - without robots.txt handling, the first attempt for a URL through
      [add_url_to_queue] blacklists it and appends one job for it, and the
      first attempt through [add_url] does the same or, when the URL is
      rejected, changes nothing;
    - with robots.txt handling, a URL of a new host, or of a host whose
      robots.txt job is pending, gets no job of its own: it is deferred on
      that robots.txt job, which for a new host is appended to the queue.
      Through [add_url_to_queue] this happens for a URL that was not
      blacklisted, which is blacklisted then; through [add_url] it happens
      for every URL that is not rejected, blacklisted or not, and the
      blacklist is kept. *)
Theorem admission_at_most_once (calls : list call) (st : state) :
  run L cfg get_local_filename calls initial_state = Some st →
  NoDup (plain_urls (queue st)) ∧
  (∀ u, u ∈ plain_urls (queue st) → u ∈ blacklist st) ∧
  (∀ url base i,
     mget_iri_parse_base L base url = Some i → canonical L i ∈ blacklist st →
     add_url_to_queue L cfg get_local_filename url base st = Some (None, st)) ∧
  (∀ job url flags i st',
     mget_iri_parse L url = Some i → canonical L i ∈ blacklist st →
     add_url L cfg get_local_filename job url flags st = Some st' →
     blacklist st' = blacklist st ∧
     plain_urls (queue st') = plain_urls (queue st) ∧
     (recursive cfg && robots cfg = false → st' = st)) ∧
  (recursive cfg && robots cfg = false →
     (∀ url base i r st',
        mget_iri_parse_base L base url = Some i → canonical L i ∉ blacklist st →
        add_url_to_queue L cfg get_local_filename url base st = Some (r, st') →
        r = Some (length (queue st)) ∧ enqueues_job i st st') ∧
     (∀ job url flags i st',
        mget_iri_parse L url = Some i → canonical L i ∉ blacklist st →
        add_url L cfg get_local_filename job url flags st = Some st' →
        st' = st ∨ enqueues_job i st st')) ∧
  (recursive cfg && robots cfg = true →
     (∀ url base i r st',
        mget_iri_parse_base L base url = Some i → canonical L i ∉ blacklist st →
        (∀ h, hosts st !! key_of i = Some h → is_Some (robot_job h)) →
        add_url_to_queue L cfg get_local_filename url base st = Some (r, st') →
        blacklist st' = {[canonical L i]} ∪ blacklist st ∧
        ∃ j, r = Some j ∧ deferred_on j i st st') ∧
     (∀ job url flags i st',
        mget_iri_parse L url = Some i →
        (∀ h, hosts st !! key_of i = Some h → is_Some (robot_job h)) →
        add_url L cfg get_local_filename job url flags st = Some st' →
        st' = st ∨ (blacklist st' = blacklist st ∧ ∃ j, deferred_on j i st st'))).
Proof.
  intros Hrun. destruct (once_run _ _ _ once_initial Hrun) as [Hnd Hsub].
  split; [done|]. split; [done|].
  split; [intros url base i Hp Hin; by apply (seed_blacklisted url base i)|].
  split; [|split].
  - intros job url flags i st' Hp Hin Hadd.
    destruct (found_blacklisted _ _ _ _ _ _ Hp Hin Hadd) as [Hb Hq].
    do 2 (split; [done|]). intros Hmode.
    destruct (found_first _ _ _ _ _ _ Hmode Hp Hadd) as [Hsame _]. auto.
  - intros Hmode. split.
    + intros url base i r st' Hp Hn Hadd. exact (seed_first _ _ _ _ _ _ Hmode Hp Hn Hadd).
    + intros job url flags i st' Hp Hn Hadd.
      destruct (found_first _ _ _ _ _ _ Hmode Hp Hadd) as [_ Hfirst]. auto.
  - intros Hmode. split.
    + intros url base i r st' Hp Hn Hhost Hadd.
      exact (seed_deferred _ _ _ _ _ _ Hmode Hp Hn Hhost Hadd).
    + intros job url flags i st' Hp Hhost Hadd.
      exact (found_deferred _ _ _ _ _ _ Hmode Hp Hhost Hadd).
Qed.

End Invariant.

(** ** A run with robots.txt handling *)

Definition robots_config : config :=
  {| recursive := true; span_hosts := true; robots := true; parent := true;
     https_only := false; trust_server_names := false; max_redirect := 20;
     exclude_domains := ∅; output_document := None; spider := false;
     delete_after := false; save_headers := false; adjust_extension := false;
     timestamping := false; clobber := true; directories := true;
     quota := 0 |}.

(** The state after the seed http://h/a: the robots.txt job of "h" is the
    only job, and http://h/a waits on it. *)
Definition after_first_seed : state :=
  default initial_state
    (run toy_libmget robots_config toy_filename
       [Seed "http://h/a" None] initial_state).

(** The specification, for the seeds: a URL that is not blacklisted yet is
    blacklisted and gets a job of its own. *)
Definition first_admission_enqueues (L : libmget) (cfg : config)
    (get_local_filename : IRI → option string) (st : state) : Prop :=
  ∀ url base i,
    mget_iri_parse_base L base url = Some i → canonical L i ∉ blacklist st →
    ∃ r st',
      add_url_to_queue L cfg get_local_filename url base st = Some (r, st') ∧
      enqueues_job L i st st'.

Definition seed_a : IRI :=
  mk_iri "http://h/a" IRI_SCHEME_HTTP (Some "h"%string) 80 (Some "/a"%string) 0.

Definition seed_b : IRI :=
  mk_iri "http://h/b" IRI_SCHEME_HTTP (Some "h"%string) 80 (Some "/b"%string) 0.

(** The URLs deferred on the job at position [j]. *)
Definition waiting (j : nat) (st : state) : option (list IRI) :=
  b ← queue st !! j; deferred b.

(** C2, as the specification states it, with robots.txt handling. The second
    seed of a host is blacklisted but no job is enqueued for it (it is
    deferred on the robots.txt job). And an attempt through [add_url] for a
    URL that is blacklisted already is no no-op: the URL is deferred on the
    robots.txt job once more. *)
Lemma admission_robots_counterexample :
  ¬ first_admission_enqueues toy_libmget robots_config toy_filename after_first_seed ∧
  canonical toy_libmget seed_a ∈ blacklist after_first_seed ∧
  waiting 0 after_first_seed = Some [seed_a] ∧
  waiting 0 <$> add_url toy_libmget robots_config toy_filename None "http://h/a" 0
                  after_first_seed
    = Some (Some [seed_a; seed_a]) ∧
  add_url toy_libmget robots_config toy_filename None "http://h/a" 0 after_first_seed
    ≠ Some after_first_seed.
Proof.
  split.
  { intros H.
    destruct (H "http://h/b"%string None _ eq_refl) as (r & st' & Hadd & _ & Hm).
    { apply (bool_decide_eq_false_1 (_ ∈ _)). by vm_compute. }
    vm_compute in Hadd. injection Hadd as _ <-.
    vm_compute in Hm. discriminate Hm. }
  split; [apply (bool_decide_eq_true_1 (_ ∈ _)); by vm_compute|].
  split; [by vm_compute|]. split; [by vm_compute|].
  intros H. apply (f_equal (fmap (waiting 0))) in H.
  vm_compute in H. discriminate H.
Qed.

(** A run without robots.txt handling: a seed, a link found in its document,
    and the seed once more. *)
Definition plain_calls : list call :=
  [Seed "http://h/a" None; Found (Some 0%nat) "http://h/b" 0; Seed "http://h/a" None].

(** The run without robots.txt handling; and, with robots.txt handling, the
    second seed of the host "h" after the first. *)
Lemma admission_at_most_once_witness :
  let st := default initial_state
              (run toy_libmget default_config toy_filename plain_calls initial_state) in
  let st' := default after_first_seed
               (snd <$> add_url_to_queue toy_libmget robots_config toy_filename
                          "http://h/b" None after_first_seed) in
  run toy_libmget default_config toy_filename plain_calls initial_state = Some st ∧
  NoDup (plain_urls toy_libmget (queue st)) ∧
  plain_urls toy_libmget (queue st) = ["http://h/a"; "http://h/b"]%string ∧
  run toy_libmget robots_config toy_filename [Seed "http://h/a" None] initial_state
    = Some after_first_seed ∧
  add_url_to_queue toy_libmget robots_config toy_filename "http://h/b" None
    after_first_seed = Some (Some 0%nat, st') ∧
  deferred_on toy_libmget 0 seed_b after_first_seed st' ∧
  waiting 0 st' = Some [seed_a; seed_b] ∧
  plain_urls toy_libmget (queue st') = [].
Proof.
  intros st st'.
  split; [by vm_compute|]. split; [|split; [by vm_compute|]].
  { refine (proj1 (admission_at_most_once toy_libmget default_config toy_filename
                     plain_calls _ _)).
    by vm_compute. }
  assert (run toy_libmget robots_config toy_filename [Seed "http://h/a" None]
            initial_state = Some after_first_seed) as Hrun by (by vm_compute).
  split; [exact Hrun|].
  assert (add_url_to_queue toy_libmget robots_config toy_filename "http://h/b" None
            after_first_seed = Some (Some 0%nat, st')) as Hadd by (by vm_compute).
  split; [exact Hadd|].
  destruct (admission_at_most_once toy_libmget robots_config toy_filename
              [Seed "http://h/a" None] after_first_seed Hrun)
    as (_ & _ & _ & _ & _ & Hrobots).
  destruct (Hrobots eq_refl) as [Hseed _].
  destruct (Hseed "http://h/b"%string None seed_b (Some 0%nat) st' eq_refl)
    as (_ & j & [= <-] & Hdef).
  { apply (bool_decide_eq_false_1 (_ ∈ _)). by vm_compute. }
  { intros h Hh. vm_compute in Hh. injection Hh as <-. by eexists. }
  { exact Hadd. }
  split; [exact Hdef|]. split; by vm_compute.
Defined.

(** ** Recursion depth and redirection depth *)

(** A queue that holds one job, fetched at recursion depth [n] after [r]
    redirections. *)
Definition parent_at (n r : Z) : state :=
  let p := mk_iri "http://h/p" IRI_SCHEME_HTTP (Some "h"%string) 80 (Some "/p"%string) 0 in
  mk_state {["http://h/p"%string]}
    [mk_job p (Some p) n r None (Some "/p"%string) false None None] ∅ ∅ [] 0.

(** The recursion depth and the redirection depth of the job at position [j]. *)
Definition depths (j : nat) (st : state) : option (Z * Z) :=
  (λ b, (level b, redirection_level b)) <$> queue st !! j.

(** C5, on an input where the code departs from the specification. A job at
    recursion depth [n], reached after [r] redirections, is answered by a
    redirection. With [max_redirect] at its default of 20, the target is
    rejected and the state left as it is when [20 <= r]; otherwise the job
    enqueued for the target has redirection depth [r + 1], and recursion
    depth 0 whatever [n] is, since the redirection branch of [add_url] does
    not assign [level]. For a link found in the document of the same job the
    recursion depth is [n + 1], and for a seed it is 0. *)
Theorem add_url_redirection_level (n r : Z) :
  depths 1 <$> add_url toy_libmget default_config toy_filename (Some 0%nat)
                 "http://h/q" URL_FLG_REDIRECTION (parent_at n r)
    = Some (if 20 <=? r then None else Some (0, r + 1)) ∧
  add_url toy_libmget default_config toy_filename (Some 0%nat)
    "http://h/q" URL_FLG_REDIRECTION (parent_at n 20) = Some (parent_at n 20) ∧
  depths 1 <$> add_url toy_libmget default_config toy_filename (Some 0%nat)
                 "http://h/q" 0 (parent_at n r)
    = Some (Some (n + 1, 0)) ∧
  (depths 1 ∘ snd) <$> add_url_to_queue toy_libmget default_config toy_filename
                         "http://h/s" None (parent_at n r)
    = Some (Some (0, 0)).
Proof.
  split; [|split; [|split]]; try reflexivity.
  unfold add_url, parent_at. simpl.
  destruct (20 <=? r); reflexivity.
Qed.

End AdmissionSpec.

(* ===================================================================== *)
(** * Properties of the sitemap scan (mget.c) *)
(* ===================================================================== *)

Module SitemapSpec.
Import Iri Sitemap.

Local Open Scope Z_scope.

(** [add_url] as a recorder of its calls. *)
Definition record_add_url (url : string) (flags : Z) (calls : list (string * Z))
    : list (string * Z) :=
  calls ++ [(url, flags)].

(** A sitemap at http://h/p/sm.xml that lists a page inside its location and
    a page of another host. *)
Definition sm_base : option IRI :=
  Some (mk_iri "http://h/p/sm.xml" IRI_SCHEME_HTTP (Some "h"%string) 80
          (Some "/p/sm.xml"%string) 0).

Definition sm_events (_ : string) : list xml_event :=
  [mk_xml_event 16 "/urlset/url/loc" "http://h/p/a";
   mk_xml_event 16 "/urlset/url/loc" "http://x/other/zz"].

Definition sm_text : string :=
  "http://h/p/a" +:+ String "010" ("http://x/other/zz" +:+ String "010" "").

(** Comparing equal prefixes gives 0. *)
Lemma strncasecmp_take s1 s2 n :
  CStr.take n s1 = CStr.take n s2 → CStr.strncasecmp s1 s2 n = 0.
Proof.
  revert s1 s2. induction n as [|n IH]; intros s1 s2; [by intros _|].
  destruct s1 as [|c1 r1], s2 as [|c2 r2]; simpl; try done.
  intros [= -> Hr]. rewrite Z.eqb_refl. by apply IH.
Qed.

(** Every URL that starts with the location of the sitemap fails the test,
    whatever its length: it is skipped. *)
Lemma inside_location_skipped {S : Type} (add_url : string → Z → S → S)
    (b : IRI) (url : string) (st : sitemap_state) :
  base_length (Some b) ≠ 0%nat →
  CStr.take (base_length (Some b)) url = CStr.take (base_length (Some b)) (uri b) →
  page_url add_url (Some b) st url = st.
Proof.
  intros Hlen Hprefix. unfold page_url, not_matching_location.
  cbn [from_option]. rewrite (strncasecmp_take _ _ _ Hprefix).
  rewrite Z.eqb_refl, orb_true_r, andb_true_r.
  destruct (base_length (Some b)); [done|]. by simpl.
Qed.

(** C4, on an input where the code departs from the specification. For the
    sitemap at http://h/p/sm.xml the location is "http://h/p/" (11 bytes). Of
    the two URLs listed,
    [add_url] is called for http://x/other/zz, which is outside the location,
    and not for http://h/p/a, which is inside; the same for the XML and for
    the text form. *)
Theorem sitemap_location_inverted :
  base_length sm_base = 11%nat ∧
  (sitemap_parse_xml 16 sm_events record_add_url "" sm_base (∅, [])).2
    = [("http://x/other/zz"%string, 0)] ∧
  (sitemap_parse_text record_add_url sm_text sm_base (∅, [])).2
    = [("http://x/other/zz"%string, 0)].
Proof. by vm_compute. Qed.

End SitemapSpec.

(* ===================================================================== *)
(** * Properties of the HTTP transaction (mget.c) *)
(* ===================================================================== *)

Module HttpSpec.
Import Iri Http.

Local Open Scope Z_scope.

Definition is_digest (c : CHALLENGE) : Prop :=
  CStr.strcasecmp (auth_scheme c) "digest" = 0.

#[local] Instance is_digest_dec c : Decision (is_digest c).
Proof. unfold is_digest. apply _. Defined.

(** No scheme is "digest" and "basic" at once. *)
Lemma digest_not_basic s :
  CStr.strcasecmp s "digest" = 0 → (CStr.strcasecmp s "basic" =? 0) = false.
Proof.
  destruct s as [|c r]; [by vm_compute|].
  cbn [CStr.strcasecmp].
  change (CStr.uchar (CStr.tolower "d")) with 100.
  change (CStr.uchar (CStr.tolower "b")) with 98.
  destruct (CStr.uchar (CStr.tolower c) =? 100) eqn:E; [|lia].
  apply Z.eqb_eq in E. rewrite E. intros _. reflexivity.
Qed.

(** The loop returns the first challenge that is not Digest; a Digest
    challenge is selected only when there is no other. *)
Lemma select_challenge_loop_other cs selected :
  select_challenge_loop cs selected =
    match filter (λ c, ¬ (is_digest c)) cs with
    | c :: _ => Some c
    | [] => match selected with Some _ => selected | None => head cs end
    end.
Proof.
  revert selected. induction cs as [|c cs IH]; intros selected; simpl.
  - by destruct selected.
  - destruct (CStr.strcasecmp (auth_scheme c) "digest" =? 0) eqn:Hd; simpl.
    + apply Z.eqb_eq in Hd. rewrite filter_cons_False by (intros H; by apply H).
      rewrite (digest_not_basic _ Hd).
      simpl. rewrite IH. destruct (filter _ cs); [|done]. by destruct selected.
    + apply Z.eqb_neq in Hd. by rewrite filter_cons_True.
Qed.

Lemma select_challenge_other cs :
  select_challenge cs =
    match filter (λ c, ¬ (is_digest c)) cs with
    | c :: _ => Some c
    | [] => head cs
    end.
Proof. apply select_challenge_loop_other. Qed.

(** ** A server that asks for credentials *)

Definition digest_challenge : CHALLENGE := mk_challenge "Digest" "realm".
Definition basic_challenge : CHALLENGE := mk_challenge "Basic" "realm".

Definition page : IRI :=
  mk_iri "http://h/secret" IRI_SCHEME_HTTP (Some "h"%string) 80
    (Some "/secret"%string) 0.

Definition no_library : libmget :=
  mk_libmget (λ _, None) (λ _ _, None) (λ _ _, None) uri.

(** The server answers 401 with the challenges [cs] to a request without
    Authorization, and 200 to a request with it. *)
Definition protected (cs : list CHALLENGE) : network :=
  mk_network
    (λ i, Some (mk_connection (host i) (scheme i) (resolv_port i)))
    (λ _ req,
       Some (match authorization req with
             | Some _ => mk_response 200 None None false false true (Some 0)
             | None => mk_response 401 (Some cs) None false false true None
             end)).

(** The server answers 401 with the challenges [cs] to every request. *)
Definition locked (cs : list CHALLENGE) : network :=
  mk_network
    (λ i, Some (mk_connection (host i) (scheme i) (resolv_port i)))
    (λ _ req, Some (mk_response 401 (Some cs) None false false true None)).

Definition no_add_url (url : string) (flags : Z) (s : unit) : unit := s.

(** The Authorization of each request of a call, and the code returned. *)
Definition credentials (net : network) : option (list (option CHALLENGE) * option Z) :=
  (λ out, (authorization <$> requests out, code <$> response out)) <$>
    http_get no_library net no_add_url 10 page None None true tt.

(** C6, on an input where the code departs from the specification. After a
    401 the request is sent once more, with an Authorization header, and a
    second 401 is returned to the
    caller. But when the server offers both Digest and Basic, in either
    order, the credentials answer the Basic challenge: the loop stops at the
    first challenge whose scheme is not "digest". *)
Theorem authorization_prefers_basic :
  credentials (protected [digest_challenge; basic_challenge])
    = Some ([None; Some basic_challenge], Some 200) ∧
  credentials (protected [basic_challenge; digest_challenge])
    = Some ([None; Some basic_challenge], Some 200) ∧
  credentials (locked [digest_challenge; basic_challenge])
    = Some ([None; Some basic_challenge], Some 401).
Proof. by vm_compute. Qed.

End HttpSpec.

(* ===================================================================== *)
(** * Properties of the download of a part (mget.c) *)
(* ===================================================================== *)

Module MetalinkSpec.
Import Iri Http Metalink.

Local Open Scope Z_scope.

Section Parts.

Context (w : world) (mirrors : list MIRROR).

Abbreviation m := (Z.of_nat (List.length mirrors)).

(** The events of the mirror loop: attempts and writes. *)
Definition is_transfer (e : event) : Prop :=
  match e with EvTry _ | EvPwrite _ _ => True | _ => False end.

Lemma tried_app t1 t2 : tried (t1 ++ t2) = tried t1 ++ tried t2.
Proof. unfold tried. apply omap_app. Qed.

(** The index that follows [j] in the round. *)
Lemma next_index j : 0 ≤ j < m → 0 ≤ Z.rem (j + 1) m < m ∧ Z.rem (j + 1) m = (j + 1) mod m.
Proof.
  intros Hj. rewrite Z.rem_mod_nonneg by lia.
  split; [|done]. apply Z.mod_pos_bound. lia.
Qed.

(** Once the part is done the loop is over. *)
Lemma mirror_loop_done todo tries j pi st p :
  parts st !! pi = Some p → done p = true →
  mirror_loop w mirrors todo tries j pi st = Some st.
Proof. intros Hp Hd. destruct todo; simpl; [done|]. by rewrite Hp; simpl; rewrite Hd. Qed.

(** The indices of [t] attempts that start at [j]. *)
Definition round (j : Z) (t : nat) : list Z :=
  (λ k : nat, (j + Z.of_nat k) mod m) <$> seq 0 t.

Lemma round_S j t :
  0 ≤ j < m → round j (S t) = j :: round ((j + 1) mod m) t.
Proof.
  intros Hj. unfold round. simpl. f_equal.
  - rewrite Z.add_0_r. apply Z.mod_small. lia.
  - rewrite <- fmap_S_seq, <- list_fmap_compose. apply list_fmap_ext.
    intros _ k _. simpl. rewrite Zplus_mod_idemp_l. f_equal. lia.
Qed.

(** What the loop has done when it is left, for a part [p] that was not
    done when it was entered: [t] attempts on the mirrors of the round that
    starts at [j], none of which but possibly the last wrote the part. *)
Definition loop_post (tries : nat) (j : Z) (pi : nat) (p : PART) (todo : nat)
    (st st' : state) : Prop :=
  ∃ (t : nat) (p' : PART) (tr : list event),
    (t ≤ todo)%nat ∧
    parts st' !! pi = Some p' ∧
    (∀ i, i ≠ pi → parts st' !! i = parts st !! i) ∧
    queued st' = queued st ∧
    trace st' = trace st ++ tr ∧ Forall is_transfer tr ∧
    tried tr = round j t ∧
    (∀ k mirror, (k < t)%nat →
       mirrors !! Z.to_nat ((j + Z.of_nat k) mod m) = Some mirror →
       (attempt_writes w (tries + k) mirror p = true ↔ S k = t ∧ done p' = true)) ∧
    (done p' = false → t = todo ∧ p' = p) ∧
    (done p' = true → (0 < t)%nat ∧ p' = with_done true p).

Lemma mirror_loop_post todo tries j pi p st st' :
  0 ≤ j < m → parts st !! pi = Some p → done p = false →
  mirror_loop w mirrors todo tries j pi st = Some st' →
  loop_post tries j pi p todo st st'.
Proof.
  revert tries j st. induction todo as [|todo IH]; intros tries j st Hj Hp Hd.
  - simpl. intros [= <-]. exists 0%nat, p, [].
    rewrite app_nil_r. do 7 (split; [done|]).
    split; [intros k mirror Hk; lia|].
    split; [done|]. intros H. congruence.
  - simpl. rewrite Hp. simpl. rewrite Hd.
    destruct (j <? 0) eqn:Hneg; [lia|]. clear Hneg.
    destruct (mirrors !! Z.to_nat j) as [mirror|] eqn:Hm; [|done]. simpl.
    destruct (next_index j Hj) as [Hj' Hrem]. rewrite Hrem in *.
    destruct (attempt_writes w tries mirror p) eqn:Hw.
    + rewrite (mirror_loop_done _ _ _ _ _ (with_done true p)); cycle 1.
      { simpl. by rewrite list_lookup_alter_eq, Hp. }
      { done. }
      intros [= <-]. exists 1%nat, (with_done true p), [EvTry j; EvPwrite (position p) (length p)].
      split; [lia|]. split; [simpl; by rewrite list_lookup_alter_eq, Hp|].
      split; [intros i Hi; simpl; by rewrite list_lookup_alter_ne|].
      split; [done|]. split; [simpl; by rewrite <- app_assoc|].
      split; [by repeat constructor|].
      split; [unfold round; simpl; by rewrite Z.add_0_r, Z.mod_small by lia|].
      split.
      { intros k mirror' Hk. assert (k = 0%nat) as -> by lia.
        rewrite Z.add_0_r, Z.mod_small, Hm, Nat.add_0_r by lia.
        intros [= <-]. by rewrite Hw. }
      split; [done|]. intros _. split; [lia|done].
    + set (st1 := if attempt_open_fails w tries mirror p
                  then set_exit_status 3 (emit (EvTry j) st)
                  else emit (EvTry j) st).
      assert (parts st1 = parts st ∧ queued st1 = queued st ∧
              trace st1 = trace st ++ [EvTry j]) as (Hp1 & Hq1 & Ht1).
      { subst st1. by destruct (attempt_open_fails w tries mirror p). }
      intros Hloop. apply IH in Hloop; [|done|by rewrite Hp1|done].
      destruct Hloop as (t & p' & tr & Ht & Hp' & Hother & Hq & Htr & Hall & Htried
                         & Hatt & Hfalse & Htrue).
      exists (S t), p', (EvTry j :: tr).
      split; [lia|]. split; [done|].
      split; [intros i Hi; by rewrite Hother, Hp1|].
      split; [congruence|].
      split; [by rewrite Htr, Ht1, <- app_assoc|].
      split; [by constructor|].
      split; [by rewrite round_S, <- Htried|].
      split.
      { intros k mirror' Hk. destruct k as [|k].
        - rewrite Z.add_0_r, Z.mod_small, Hm, Nat.add_0_r by lia.
          intros [= <-]. rewrite Hw. split; [done|].
          intros [[= <-] Hdone]. apply Htrue in Hdone. lia.
        - replace ((j + Z.of_nat (S k)) mod m)
            with (((j + 1) mod m + Z.of_nat k) mod m)
            by (rewrite Zplus_mod_idemp_l; f_equal; lia).
          intros Hmirror. replace (tries + S k)%nat with (S tries + k)%nat by lia.
          rewrite (Hatt k mirror') by (done || lia).
          split; intros [? ?]; split; (lia || done). }
      split.
      { intros Hdone. destruct (Hfalse Hdone) as [-> ->]. done. }
      intros Hdone. destruct (Htrue Hdone) as [? ->]. split; [lia|done].
Qed.

(** The loop, whether or not the part was done when it was entered, only
    transfers: the job stays where it is. *)
Lemma mirror_loop_transfers todo tries j pi st st' :
  0 ≤ j < m →
  mirror_loop w mirrors todo tries j pi st = Some st' →
  queued st' = queued st ∧
  ∃ tr, trace st' = trace st ++ tr ∧ Forall is_transfer tr.
Proof.
  intros Hj Hloop.
  destruct (parts st !! pi) as [p|] eqn:Hp; cycle 1.
  { destruct todo; simpl in Hloop; [|by rewrite Hp in Hloop].
    injection Hloop as <-. split; [done|]. exists []. by rewrite app_nil_r. }
  destruct (done p) eqn:Hd.
  - rewrite (mirror_loop_done _ _ _ _ _ p) in Hloop by done.
    injection Hloop as <-. split; [done|]. exists []. by rewrite app_nil_r.
  - apply (mirror_loop_post _ _ _ _ p) in Hloop; [|done..].
    destruct Hloop as (t & p' & tr & _ & _ & _ & Hq & Htr & Hall & _).
    split; [done|]. by exists tr.
Qed.

Lemma first_index id : 0 ≤ id → 0 < m → 0 ≤ Z.rem id m < m ∧ Z.rem id m = id mod m.
Proof.
  intros Hid Hm. rewrite Z.rem_mod_nonneg by lia.
  split; [|done]. apply Z.mod_pos_bound. lia.
Qed.

Lemma round_mod id t : round (id mod m) t = round id t.
Proof.
  unfold round. apply list_fmap_ext. intros _ k _. simpl.
  by rewrite Zplus_mod_idemp_l.
Qed.

(** C7. The worker [id] downloads a part that is not done yet, over [m]
    mirrors. The mirrors tried are those at the indices [id mod m],
    [(id + 1) mod m], ..., [(id + t - 1) mod m], for some [t <= m]; no attempt
    before the last wrote the part; and either the last attempt wrote it and
    the part is done, or all [m] mirrors were tried, the part is not done and
    its [inuse] flag is reset. *)
Theorem download_part_round_robin (id : Z) (pi : nat) (p : PART) (st st' : state) :
  0 ≤ id → parts st !! pi = Some p → done p = false →
  download_part w mirrors id pi st = Some st' →
  ∃ (t : nat) (p' : PART),
    (t ≤ List.length mirrors)%nat ∧
    parts st' !! pi = Some p' ∧
    tried (trace st') =
      tried (trace st) ++ ((λ k : nat, (id + Z.of_nat k) mod m) <$> seq 0 t) ∧
    (∀ k mirror, (k < t)%nat →
       mirrors !! Z.to_nat ((id + Z.of_nat k) mod m) = Some mirror →
       (attempt_writes w k mirror p = true ↔ S k = t ∧ done p' = true)) ∧
    ((done p' = true ∧ (0 < t)%nat) ∨
     (done p' = false ∧ t = List.length mirrors ∧ inuse p' = false)).
Proof.
  intros Hid Hp Hd. unfold download_part.
  destruct (m =? 0) eqn:Hm; [done|]. apply Z.eqb_neq in Hm.
  destruct (first_index id Hid) as [Hj Hrem]; [lia|].
  intros H. apply bind_Some in H as (st1 & Hloop & H).
  apply (mirror_loop_post _ _ _ _ p) in Hloop; [|done..].
  destruct Hloop as (t & p' & tr & Ht & Hp' & Hother & Hq & Htr & Hall & Htried
                     & Hatt & Hfalse & Htrue).
  rewrite Hrem, round_mod in Htried.
  rewrite Hp' in H. simpl in H.
  assert (∀ k mirror, (k < t)%nat →
            mirrors !! Z.to_nat ((id + Z.of_nat k) mod m) = Some mirror →
            (attempt_writes w k mirror p = true ↔ S k = t ∧ done p' = true)) as Hatt'.
  { intros k mirror Hk Hmirror. apply (Hatt k mirror Hk).
    by rewrite Hrem, Zplus_mod_idemp_l. }
  destruct (done p') eqn:Hd'.
  - exists t, p'. split; [done|].
    assert (parts st' = parts st1 ∧ ∃ tr', trace st' = trace st1 ++ tr' ∧ tried tr' = [])
      as (Hparts & tr' & Htr' & Hnone).
    { cbv zeta in H.
      destruct (forallb done (parts st1)) eqn:Hall_done;
        [destruct (validates w)|]; injection H as <-; (split; [done|]); simpl.
      - exists [EvLock; EvCheckParts true; EvUnlock; EvValidate true;
                EvQueueDel; EvSignalMain].
        split; [by rewrite <- !app_assoc|done].
      - exists [EvLock; EvCheckParts true; EvUnlock; EvValidate false].
        split; [by rewrite <- !app_assoc|done].
      - exists [EvLock; EvCheckParts false; EvUnlock].
        split; [by rewrite <- !app_assoc|done]. }
    rewrite Hparts, Htr', Htr, !tried_app, Hnone, Htried, app_nil_r, Hd'.
    split; [done|]. split; [done|]. split; [done|].
    left. split; [done|]. by destruct (Htrue eq_refl).
  - injection H as <-. destruct (Hfalse eq_refl) as [-> ->].
    exists (List.length mirrors), (with_inuse false p).
    split; [done|]. simpl. rewrite list_lookup_alter_eq, Hp'. simpl.
    split; [done|]. rewrite Htr, tried_app, Htried. split; [done|].
    split; [|right; by rewrite Hd].
    intros k mirror Hk Hmirror. rewrite (Hatt' k mirror Hk Hmirror), Hd.
    simpl. split; intros [? ?]; done.
Qed.

(** The job is taken out of the queue by [download_part] only when the
    loop over [job->parts], run between the lock and the unlock of
    [downloader_mutex], found every part done, and [job_validate_file] then
    succeeded; when the validation fails the job stays in the queue. *)
Lemma download_part_completion (id : Z) (pi : nat) (st st' : state) :
  0 ≤ id → queued st = true →
  download_part w mirrors id pi st = Some st' →
  (queued st' = false →
     Forall (λ q, done q = true) (parts st') ∧ validates w = true ∧
     ∃ tr, Forall is_transfer tr ∧
           trace st' = trace st ++ tr ++
             [EvLock; EvCheckParts true; EvUnlock; EvValidate true;
              EvQueueDel; EvSignalMain]) ∧
  (validates w = false → queued st' = true).
Proof.
  intros Hid Hqueued. unfold download_part.
  destruct (m =? 0) eqn:Hm; [done|]. apply Z.eqb_neq in Hm.
  destruct (first_index id Hid) as [Hj Hrem]; [lia|].
  intros H. apply bind_Some in H as (st1 & Hloop & H).
  apply mirror_loop_transfers in Hloop as (Hq1 & tr & Htr & Hall); [|done].
  apply bind_Some in H as (p' & Hp' & H).
  cbv zeta in H.
  destruct (done p'); cycle 1.
  { injection H as <-. simpl. rewrite Hq1, Hqueued. split; [done|done]. }
  destruct (forallb done (parts (emit EvLock st1))) eqn:Hall_done; cycle 1.
  { injection H as <-. simpl. rewrite Hq1, Hqueued. split; [done|done]. }
  destruct (validates w) eqn:Hv; injection H as <-; simpl.
  - split; [|done]. intros _.
    split; [|split; [done|]].
    + apply Forall_forall. intros q Hq.
      rewrite forallb_forall in Hall_done. apply Hall_done.
      by apply list_elem_of_In.
    + exists tr. split; [done|]. by rewrite Htr, <- !app_assoc.
  - rewrite Hq1, Hqueued. split; [done|done].
Qed.

End Parts.

(** ** Worker 5, three mirrors, the second part of two *)

Definition mirror_of (h : string) : MIRROR :=
  mk_mirror (mk_iri ("http://" +:+ h +:+ "/f") IRI_SCHEME_HTTP (Some h) 80
               (Some "/f"%string) 0).

Definition three_mirrors : list MIRROR :=
  [mirror_of "m0"; mirror_of "m1"; mirror_of "m2"].

(** The first attempt is answered 503, the later ones 206 with the body. *)
Definition second_try_world : world :=
  mk_world
    (λ k _ part,
       Some (if (k =? 0)%nat
             then mk_response 503 None None false false true None
             else mk_response 206 None None false false true (Some (length part))))
    (λ _, true) (λ _, true) true.

Definition first_part : PART := mk_part 1 0 10 true false.
Definition second_part : PART := mk_part 2 10 10 false true.

Definition two_parts : state :=
  mk_state [first_part; second_part] true 0 [].

Lemma download_part_round_robin_witness :
  let st' := default two_parts
               (download_part second_try_world three_mirrors 5 1 two_parts) in
  download_part second_try_world three_mirrors 5 1 two_parts = Some st' ∧
  tried (trace st') = [2; 0] ∧
  ∃ (t : nat) (p' : PART),
    (t ≤ 3)%nat ∧
    parts st' !! 1%nat = Some p' ∧
    tried (trace st') =
      tried (trace two_parts) ++ ((λ k : nat, (5 + Z.of_nat k) mod 3) <$> seq 0 t) ∧
    (∀ k mirror, (k < t)%nat →
       three_mirrors !! Z.to_nat ((5 + Z.of_nat k) mod 3) = Some mirror →
       (attempt_writes second_try_world k mirror second_part = true
          ↔ S k = t ∧ done p' = true)) ∧
    ((done p' = true ∧ (0 < t)%nat) ∨
     (done p' = false ∧ t = 3%nat ∧ inuse p' = false)).
Proof.
  split; [by vm_compute|]. split; [by vm_compute|].
  apply (download_part_round_robin second_try_world three_mirrors 5 1 second_part
           two_parts).
  - lia.
  - reflexivity.
  - reflexivity.
  - by vm_compute.
Defined.

End MetalinkSpec.

(* ===================================================================== *)
(** * Properties of a turn of a worker: when a job leaves the queue *)
(* ===================================================================== *)

Module WorkerSpec.
Import Iri Options Worker.

Local Open Scope Z_scope.

Section Turn.

Context (cfg : config) (opt : worker_options).
Context (w : world) (mw : Metalink.world).
Context (id : Z) (job : Admission.JOB).

(** A description that can be downloaded: it gives a size and mirrors. *)
Definition usable (m : METALINK) : Prop := 0 < size m ∧ is_Some (mirrors m).

(** A step that leaves the job, its parts and the trace alone. *)
Definition quiet (st st' : state) : Prop :=
  Metalink.parts (dl st') = Metalink.parts (dl st) ∧
  Metalink.queued (dl st') = Metalink.queued (dl st) ∧
  Metalink.trace (dl st') = Metalink.trace (dl st).

(** A quiet step that keeps [job->metalink] too. *)
Definition calm (st st' : state) : Prop :=
  quiet st st' ∧ metalink st' = metalink st.

Lemma calm_refl st : calm st st.
Proof. done. Qed.

Lemma calm_emit c st st' : calm st st' → calm st (emit c st').
Proof. done. Qed.

Lemma calm_set_exit_status n st st' : calm st st' → calm st (set_exit_status n st').
Proof. done. Qed.

Lemma calm_set_etags e st st' : calm st st' → calm st (set_etags e st').
Proof. done. Qed.

Lemma calm_set_host_robots r st st' : calm st st' → calm st (set_host_robots r st').
Proof. done. Qed.

Lemma calm_add_sitemaps (l : list string) : ∀ st st',
  calm st st' →
  calm st (foldl (λ st sitemap, emit (CallAddUrl sitemap Admission.URL_FLG_SITEMAP) st)
             st' l).
Proof.
  induction l as [|a l IH]; intros st st' H; [done|].
  cbn [foldl]. apply IH. by apply calm_emit.
Qed.

Lemma get_loop_calm todo : ∀ k method_get st st',
  calm st st' → calm st (get_loop w todo k method_get st').2.
Proof.
  induction todo as [|todo IH]; intros k method_get st st' H; [done|].
  cbn [get_loop]. destruct (http_get w k method_get); [done|].
  apply IH. by apply calm_emit.
Qed.

Lemma regular_calm resp st st' :
  regular cfg opt w job resp st = Some st' → calm st st'.
Proof.
  unfold regular.
  destruct (code resp =? 200).
  { destruct (scans cfg opt job); [|by intros [= <-]].
    destruct (content_type resp) as [ct|]; [|by intros [= <-]].
    destruct (CStr.strcasecmp ct "text/html" =? 0); [by intros [= <-]|].
    destruct (CStr.strcasecmp ct "application/xhtml+xml" =? 0); [by intros [= <-]|].
    destruct (CStr.strcasecmp ct "text/css" =? 0); [by intros [= <-]|].
    destruct (Admission.sitemap job).
    { destruct (CStr.strcasecmp ct "application/xml" =? 0); [by intros [= <-]|].
      destruct (CStr.strcasecmp ct "application/x-gzip" =? 0); [by intros [= <-]|].
      destruct (CStr.strcasecmp ct "text/plain" =? 0); by intros [= <-]. }
    destruct (_ && _); [|by intros [= <-]].
    intros H. apply bind_Some in H as (k & _ & H).
    destruct (mget_robots_parse w (body resp)) as [r|]; injection H as <-; [|done].
    by apply calm_add_sitemaps. }
  destruct (_ && _); [by intros [= <-]|].
  destruct (_ && _).
  { destruct (scans cfg opt job); [|by intros [= <-]].
    intros H. apply bind_Some in H as (fname & _ & H).
    destruct (extension fname) as [ext|]; [|by injection H as <-].
    destruct (_ || _); [by injection H as <-|].
    destruct (_ =? 0); by injection H as <-. }
  destruct (code resp =? 404); [|by intros [= <-]].
  destruct (bool_decide _); by intros [= <-].
Qed.

(** The turn arrives at the label [ready] after quiet steps, with [job]
    set. A job that had no description before has none then, or one with a
    size of 0 or less, or one without mirrors. *)
Definition settled (st st' : state) : Prop :=
  quiet st st' ∧
  (metalink st = None → ∀ m, metalink st' = Some m → size m ≤ 0 ∨ mirrors m = None).

(** The turn arrives at the label [ready] behind [job_validate_file], run
    for a usable description, with [job] set when it succeeded, and reset to
    NULL, with the mirrors of the description sorted (unless the download is
    chunked) and the workers woken, when it failed. *)
Definition validated (b : bool) (st st' : state) : Prop :=
  b = Metalink.validates mw ∧
  Metalink.parts (dl st') = Metalink.parts (dl st) ∧
  Metalink.queued (dl st') = Metalink.queued (dl st) ∧
  Metalink.trace (dl st')
    = Metalink.trace (dl st) ++ [Metalink.EvValidate (Metalink.validates mw)] ∧
  (∃ m, usable m ∧
        (metalink st' = Some m ∨
         (b = false ∧ metalink st' = Some (mget_metalink_sort_mirrors w m)))) ∧
  (b = false → CallSignalWorker ∈ calls st').

Definition at_ready (b : bool) (st st' : state) : Prop :=
  (b = true ∧ settled st st') ∨ validated b st st'.

Lemma at_ready_calm st st' : calm st st' → at_ready true st st'.
Proof.
  intros [Hq Hm]. left. split; [done|]. split; [done|].
  intros Hnone m Hsome. congruence.
Qed.

Lemma validated_after b st0 st st' :
  quiet st0 st → validated b st st' → validated b st0 st'.
Proof.
  intros (Hp & Hq & Ht) (Hb & Hp' & Hq' & Ht' & H).
  split; [done|]. rewrite Hp', Hq', Ht', Hp, Hq, Ht. done.
Qed.

Lemma at_ready_after b st0 st st' :
  calm st0 st → at_ready b st st' → at_ready b st0 st'.
Proof.
  intros [Hquiet Hm] [(-> & (Hp' & Hq' & Ht') & Hnew)|Hv].
  - left. split; [done|]. destruct Hquiet as (Hp & Hq & Ht).
    split; [repeat split; congruence|]. rewrite <- Hm. exact Hnew.
  - right. by eapply validated_after.
Qed.

Lemma start_or_resume_validated sort st m b st' :
  metalink st = Some m → usable m →
  start_or_resume w mw sort st = (b, st') → validated b st st'.
Proof.
  intros Hm Hu. unfold validated, start_or_resume, Metalink.job_validate_file.
  destruct (Metalink.validates mw) eqn:Hv; cbn [negb].
  - intros [= <- <-]. cbn. rewrite Hm.
    do 4 (split; [done|]). split; [|done]. exists m. auto.
  - intros [= <- <-].
    destruct sort; cbn; rewrite ?Hm; cbn;
      (do 4 (split; [done|])); (split; [exists m; auto|]); intros _;
      apply elem_of_app; right; by left.
Qed.

Lemma check_first_ready st f :
  0 ≤ chunk_size opt →
  check_first cfg opt w mw job st = Some f →
  match f with
  | Ready b st' => at_ready b st st'
  | Go _ st' => calm st st'
  end.
Proof.
  intros chunk_size_range.
  unfold check_first. destruct (_ && _); [|by intros [= <-]].
  intros H. apply bind_Some in H as (i & _ & H).
  pose proof (get_loop_calm 3 0 false st st (calm_refl st)) as Hloop.
  destruct (get_loop w 3 0 false st) as [[resp k] st1]. cbn [snd] in Hloop.
  destruct resp as [resp|]; [|injection H as <-; by apply at_ready_calm].
  set (st2 := if code resp =? 404 then set_exit_status 8 st1 else st1) in H.
  assert (calm st st2) as Hst2.
  { subst st2. destruct (code resp =? 404); [|done].
    by apply calm_set_exit_status. }
  clearbody st2. destruct (spider cfg).
  - destruct (content_type resp) as [ct|];
      [|injection H as <-; by apply at_ready_calm].
    destruct (negb (code resp =? 200));
      [injection H as <-; by apply at_ready_calm|].
    match type of H with (if ?c then _ else _) = _ => destruct c end;
      [injection H as <-; by apply at_ready_calm|].
    destruct (etag resp) as [e|]; [|by injection H as <-].
    destruct (bool_decide (e ∈ etags st2)); injection H as <-;
      [apply at_ready_calm|]; by apply calm_set_etags.
  - destruct (_ && _) eqn:Hchunk; [|by injection H as <-].
    destruct (start_or_resume w mw false _) as [b st3] eqn:Hstart.
    injection H as <-.
    apply (start_or_resume_validated _ _ (chunked opt job resp i)) in Hstart;
      [|done|].
    + right. eapply validated_after; [|exact Hstart]. apply Hst2.
    + apply andb_true_iff in Hchunk as [_ Hlt]. split; [|by eexists].
      cbn [chunked size]. lia.
Qed.

Lemma fetch_ready k st b st' :
  fetch cfg opt w mw job k st = Some (b, st') → at_ready b st st'.
Proof.
  unfold fetch. intros H. apply bind_Some in H as (u & _ & H).
  pose proof (get_loop_calm 3 k true st st (calm_refl st)) as Hloop.
  destruct (get_loop w 3 k true st) as [[resp k'] st1]. cbn [snd] in Hloop.
  destruct resp as [resp|]; [|injection H as <- <-; by apply at_ready_calm].
  apply bind_Some in H as ([found top] & _ & H).
  destruct found as [link|];
    [injection H as <- <-; apply at_ready_calm; by apply calm_emit|].
  destruct top as [link|];
    [injection H as <- <-; apply at_ready_calm; by apply calm_emit|].
  destruct (content_type resp) as [ct|] eqn:Hct; cycle 1.
  { rewrite bool_decide_eq_true_2 in H by done.
    apply bind_Some in H as (st2 & Hreg & [= <- <-]).
    apply regular_calm in Hreg. apply at_ready_calm.
    destruct Hloop as [(? & ? & ?) ?], Hreg as [(? & ? & ?) ?].
    repeat split; congruence. }
  rewrite bool_decide_eq_false_2 in H by done.
  set (st2 := if CStr.strcasecmp ct "application/metalink4+xml" =? 0
              then set_metalink (metalink4_parse w (body resp)) st1
              else if CStr.strcasecmp ct "application/metalink+xml" =? 0
              then set_metalink (metalink3_parse w (body resp)) st1
              else st1) in H.
  assert (quiet st st2) as Hquiet.
  { subst st2. destruct Hloop as [Hq _].
    destruct (_ =? 0); [done|]. by destruct (_ =? 0). }
  destruct (metalink st2) as [m|] eqn:Hm.
  - destruct (size m <=? 0) eqn:Hsize.
    { injection H as <- <-. left. split; [done|]. split; [done|].
      intros _ m' Hm'. left. assert (m' = m) as -> by congruence. lia. }
    destruct (bool_decide (mirrors m = None)) eqn:Hmirrors.
    { injection H as <- <-. left. split; [done|]. split; [done|].
      intros _ m' Hm'. right. assert (m' = m) as -> by congruence.
      by apply bool_decide_eq_true_1 in Hmirrors. }
    right. apply (inj Some) in H.
    apply (start_or_resume_validated _ _ m) in H; [|done|].
    + by eapply validated_after.
    + split; [lia|]. apply bool_decide_eq_false_1 in Hmirrors.
      by destruct (mirrors m); [eexists|].
  - apply bind_Some in H as (st3 & Hreg & [= <- <-]).
    apply regular_calm in Hreg as [(Hp & Hq & Ht) Hm3].
    left. split; [done|]. destruct Hquiet as (Hp' & Hq' & Ht').
    split; [repeat split; congruence|].
    intros _ m. rewrite Hm3, Hm. done.
Qed.

(** ** The three ways a turn for a job ends *)

(** The job is taken out of the queue and nothing was validated. *)
Definition removed_plain (st st' : state) : Prop :=
  Metalink.queued (dl st') = false ∧
  Metalink.parts (dl st') = Metalink.parts (dl st) ∧
  Metalink.trace (dl st')
    = Metalink.trace (dl st) ++ [Metalink.EvQueueDel; Metalink.EvSignalMain].

(** The job has a usable description, [job_validate_file] succeeded, and
    the job is taken out of the queue: the parts were not looked at, under a
    lock or otherwise. *)
Definition removed_valid (st st' : state) : Prop :=
  Metalink.validates mw = true ∧
  (∃ m, usable m ∧ metalink st' = Some m) ∧
  Metalink.queued (dl st') = false ∧
  Metalink.parts (dl st') = Metalink.parts (dl st) ∧
  Metalink.trace (dl st')
    = Metalink.trace (dl st)
      ++ [Metalink.EvValidate true; Metalink.EvQueueDel; Metalink.EvSignalMain].

(** The job has a usable description, [job_validate_file] failed, and the
    job stays in the queue, with the workers woken (and the mirrors of the
    description sorted, unless the download is chunked). *)
Definition kept_invalid (st st' : state) : Prop :=
  Metalink.validates mw = false ∧
  (∃ m, usable m ∧
        (metalink st' = Some m ∨
         metalink st' = Some (mget_metalink_sort_mirrors w m))) ∧
  Metalink.queued (dl st') = Metalink.queued (dl st) ∧
  Metalink.parts (dl st') = Metalink.parts (dl st) ∧
  Metalink.trace (dl st')
    = Metalink.trace (dl st) ++ [Metalink.EvValidate false; Metalink.EvSignalMain] ∧
  CallSignalWorker ∈ calls st'.

Lemma job_turn st st' :
  0 ≤ chunk_size opt →
  downloader_thread cfg opt w mw id job None st = Some st' →
  (removed_plain st st' ∧
   (metalink st = None → ∀ m, metalink st' = Some m →
      size m ≤ 0 ∨ mirrors m = None))
  ∨ removed_valid st st' ∨ kept_invalid st st'.
Proof.
  intros Hchunk. unfold downloader_thread. intros H.
  apply bind_Some in H as (first & Hfirst & H).
  apply bind_Some in H as ([b st1] & Hflow & [= <-]).
  apply check_first_ready in Hfirst; [|done].
  assert (at_ready b st st1) as Hready.
  { destruct first as [b' st2|k st2]; [by injection Hflow as <- <-|].
    apply fetch_ready in Hflow. by eapply at_ready_after. }
  destruct Hready as [(-> & (Hp & Hq & Ht) & Hnew)|(Hb & Hp & Hq & Ht & Hm & Hsig)].
  - left. split; [|exact Hnew]. unfold removed_plain. cbn. rewrite Hp, Ht.
    split; [done|]. split; [done|]. by rewrite <- app_assoc.
  - right. unfold removed_valid, kept_invalid.
    destruct Hm as (m & Hu & Hm).
    destruct (Metalink.validates mw) eqn:Hv; subst b.
    + left. cbn. rewrite Hp, Ht. split; [done|].
      split; [exists m; split; [done|]; by destruct Hm as [?|[? _]]|].
      do 2 (split; [done|]). by rewrite <- !app_assoc.
    + right. cbn. rewrite Hp, Hq, Ht. split; [done|].
      split; [exists m; split; [done|]; destruct Hm as [?|[_ ?]]; auto|].
      do 2 (split; [done|]).
      split; [by rewrite <- !app_assoc|]. by apply Hsig.
Qed.


End Turn.

(** ** A job whose response is a metalink description *)

Definition no_options : worker_options := mk_worker_options 0 false 0 0 false None.

(** The server answers with a metalink description, which the parser reads
    as [m]. *)
Definition describing (m : METALINK) : world :=
  mk_world
    (λ _ _, Some (mk_response 200 (Some "application/metalink4+xml"%string) None None
                    0 None None ""))
    (λ _, Some m) (λ _, None) (λ _, None) (λ m, m).

Definition described_job : Admission.JOB :=
  let i := mk_iri "http://h/f.meta4" IRI_SCHEME_HTTP (Some "h"%string) 80
             (Some "/f.meta4"%string) 0 in
  Admission.mk_job i (Some i) 0 0 None (Some "f.meta4"%string) false None None.

(** The job is in the queue; it has no description and no parts yet. *)
Definition queued_job : state :=
  mk_state (Metalink.mk_state [] true 0 []) None ∅ None [].

(** A description of a file of 100 bytes on one mirror, and one that gives
    no size. *)
Definition manifest (size : Z) : METALINK :=
  mk_metalink size (Some "f"%string) [] (Some [MetalinkSpec.mirror_of "m0"]).

Definition turn (m : METALINK) : option state :=
  downloader_thread default_config no_options (describing m)
    MetalinkSpec.second_try_world 0 described_job None queued_job.


(** Worker 5 and the second part of a job of two parts, on three mirrors. *)
Definition job_of_parts : state :=
  mk_state MetalinkSpec.two_parts
    (Some (mk_metalink 20 (Some "f"%string) [] (Some MetalinkSpec.three_mirrors)))
    ∅ None [].

Definition part_turn : option state :=
  downloader_thread default_config no_options (describing (manifest 100))
    MetalinkSpec.second_try_world 5 described_job (Some 1%nat) job_of_parts.


End WorkerSpec.

(* ===================================================================== *)
(** * Facts about the string functions *)
(* ===================================================================== *)

Module CStrSpec.
Import CStr.

Local Open Scope Z_scope.

(** Does the byte occur in the string? *)
Fixpoint mentions (c : ascii) (s : string) : bool :=
  match s with
  | String a r => Ascii.eqb a c || mentions c r
  | EmptyString => false
  end.

Lemma append_cons a (s r : string) : String a s +:+ r = String a (s +:+ r).
Proof. reflexivity. Qed.

Lemma append_nil_l (r : string) : "" +:+ r = r.
Proof. reflexivity. Qed.

(** Unfold the appends at the head of a string. *)
Ltac unfold_append := rewrite ?append_cons, ?append_nil_l.

Lemma append_nil_r (s : string) : s +:+ "" = s.
Proof. induction s as [|a s IH]; unfold_append; [done|by rewrite IH]. Qed.

Lemma append_assoc (s1 s2 s3 : string) : (s1 +:+ s2) +:+ s3 = s1 +:+ (s2 +:+ s3).
Proof. induction s1 as [|a s1 IH]; unfold_append; [done|by rewrite IH]. Qed.

Lemma length_append (s1 s2 : string) :
  String.length (s1 +:+ s2) = (String.length s1 + String.length s2)%nat.
Proof. induction s1 as [|a s1 IH]; unfold_append; simpl; [done|by rewrite IH]. Qed.

Lemma strlen_append (s1 s2 : string) : strlen (s1 +:+ s2) = strlen s1 + strlen s2.
Proof. unfold strlen. rewrite length_append. lia. Qed.

Lemma strlen_nonneg' (s : string) : 0 ≤ strlen s.
Proof. unfold strlen. lia. Qed.

Lemma take_append (s r : string) : take (String.length s) (s +:+ r) = s.
Proof.
  induction s as [|a s IH]; unfold_append; simpl; [by destruct r|by rewrite IH].
Qed.

Lemma drop_append (s r : string) : drop (String.length s) (s +:+ r) = r.
Proof.
  induction s as [|a s IH]; unfold_append; simpl; [by destruct r|exact IH].
Qed.

Lemma drop_0 (s : string) : drop 0 s = s.
Proof. by destruct s. Qed.

Lemma drop_S (n : nat) (s : string) : drop (S n) s = drop 1 (drop n s).
Proof.
  revert s. induction n as [|n IH]; intros [|a s]; try done.
  change (drop (S (S n)) (String a s)) with (drop (S n) s).
  change (drop (S n) (String a s)) with (drop n s). apply IH.
Qed.

Lemma take_drop (n : nat) (s : string) : take n s +:+ drop n s = s.
Proof.
  revert s. induction n as [|n IH]; intros [|a s]; simpl; unfold_append; try done.
  by rewrite IH.
Qed.

Lemma take_all (n : nat) (s : string) : (String.length s ≤ n)%nat → take n s = s.
Proof.
  revert s. induction n as [|n IH]; intros [|a s]; simpl; try done; [lia|].
  intros Hn. rewrite IH; [done|lia].
Qed.

Lemma drop_all (n : nat) (s : string) : (String.length s ≤ n)%nat → drop n s = "".
Proof.
  revert s. induction n as [|n IH]; intros [|a s]; simpl; try done; [lia|].
  intros Hn. apply IH. lia.
Qed.

Lemma length_take (n : nat) (s : string) :
  String.length (take n s) = Nat.min n (String.length s).
Proof.
  revert s. induction n as [|n IH]; intros [|a s]; simpl; try done.
  by rewrite IH.
Qed.

Lemma length_drop (n : nat) (s : string) :
  String.length (drop n s) = (String.length s - n)%nat.
Proof. revert s. induction n as [|n IH]; intros [|a s]; simpl; try done. Qed.

Lemma mentions_append c s1 s2 :
  mentions c (s1 +:+ s2) = mentions c s1 || mentions c s2.
Proof.
  induction s1 as [|a s1 IH]; unfold_append; simpl; [done|].
  rewrite IH. by rewrite orb_assoc.
Qed.

Lemma strrchr_none c s : strrchr s c = None ↔ mentions c s = false.
Proof.
  induction s as [|a s IH]; simpl; [done|].
  destruct (strrchr s c) as [i|].
  - split; [done|]. intros H. apply orb_false_iff in H as [_ H].
    apply IH in H. done.
  - destruct (Ascii.eqb a c); simpl; [done|]. by rewrite <- IH.
Qed.

Lemma strrchr_append c s1 s2 :
  strrchr (s1 +:+ s2) c =
    match strrchr s2 c with
    | Some i => Some (String.length s1 + i)%nat
    | None => strrchr s1 c
    end.
Proof.
  induction s1 as [|a s1 IH]; unfold_append; simpl.
  - by destruct (strrchr s2 c).
  - rewrite IH. by destruct (strrchr s2 c), (strrchr s1 c).
Qed.

End CStrSpec.

(* ===================================================================== *)
(** * More on the resolver: the lock, the cache, and failures *)
(* ===================================================================== *)

Module NetMore.
Import Net NetSpec.

Local Open Scope Z_scope.

#[local] Arguments wget_dns_cache_get : simpl never.
#[local] Arguments wget_dns_cache_add : simpl never.
#[local] Arguments wget_thread_mutex_lock : simpl never.
#[local] Arguments wget_millisleep : simpl never.
#[local] Arguments _wget_tcp_resolve : simpl never.
#[local] Arguments emit : simpl never.

#[local] Existing Instance is_preferred_dec.
#[local] Existing Instance not_preferred_dec.

(** ** Sorting twice *)

Lemma filter_twice {A} (P : A → Prop) `{!∀ a, Decision (P a)} (l : list A) :
  filter P (filter P l) = filter P l.
Proof.
  induction l as [|a l IH]; [done|].
  rewrite (filter_cons P a l). case_decide as Ha; [|exact IH].
  rewrite filter_cons_True by done. by rewrite IH.
Qed.

Lemma filter_apart {A} (P Q : A → Prop) `{!∀ a, Decision (P a)}
    `{!∀ a, Decision (Q a)} (l : list A) :
  (∀ a, P a → Q a → False) → filter P (filter Q l) = [].
Proof.
  intros HPQ. induction l as [|a l IH]; [done|].
  rewrite (filter_cons Q a l). case_decide as Ha; [|exact IH].
  rewrite filter_cons_False by eauto. exact IH.
Qed.

Lemma filter_preferred_twice pf (l : list addrinfo) :
  filter (is_preferred pf)
    (filter (is_preferred pf) l ++ filter (λ a, ¬ is_preferred pf a) l)
  = filter (is_preferred pf) l.
Proof.
  rewrite filter_app, filter_twice, filter_apart by tauto. apply app_nil_r.
Qed.

Lemma filter_unpreferred_twice pf (l : list addrinfo) :
  filter (λ a, ¬ is_preferred pf a)
    (filter (is_preferred pf) l ++ filter (λ a, ¬ is_preferred pf a) l)
  = filter (λ a, ¬ is_preferred pf a) l.
Proof.
  rewrite filter_app, filter_twice, filter_apart by tauto. done.
Qed.

(** X1. Ordering by the preferred family is idempotent: a list that went
    through [_wget_sort_preferred] comes out of a second pass as it is, and a
    list without (or with only) addresses of that family is not changed at
    all. *)
Theorem sort_preferred_idempotent (l : list addrinfo) (pf : Z) :
  _wget_sort_preferred (_wget_sort_preferred l pf) pf = _wget_sort_preferred l pf ∧
  (Forall (λ a, ai_family a ≠ pf) l ∨ Forall (λ a, ai_family a = pf) l →
     _wget_sort_preferred l pf = l).
Proof.
  split.
  - rewrite !sort_preferred_filter.
    by rewrite filter_preferred_twice, filter_unpreferred_twice.
  - rewrite sort_preferred_filter. intros [H|H].
    + assert (filter (is_preferred pf) l = []) as ->.
      { induction H as [|a l Ha _ IH]; [done|]. by rewrite filter_cons_False. }
      simpl. induction H as [|a l Ha _ IH]; [done|].
      rewrite filter_cons_True by done. by rewrite IH.
    + assert (filter (λ a, ¬ is_preferred pf a) l = []) as ->.
      { induction H as [|a l Ha _ IH]; [done|].
        rewrite filter_cons_False; [done|]. unfold is_preferred. tauto. }
      rewrite app_nil_r. induction H as [|a l Ha _ IH]; [done|].
      rewrite filter_cons_True by done. by rewrite IH.
Qed.

(** ** The resolve lock *)

(** The discipline of [resolve_mutex] in a trace, [held] telling whether the
    lock is held before the first event: the lock is not taken twice, not
    released unless held, held around every getaddrinfo(3) call and every
    addition to the cache, free during a sleep, and free at the end. *)
Fixpoint lock_discipline (held : bool) (t : list event) : bool :=
  match t with
  | [] => negb held
  | EvLock :: t => negb held && lock_discipline true t
  | EvUnlock :: t => held && lock_discipline false t
  | EvResolve _ :: t => held && lock_discipline held t
  | EvCacheAdd :: t => held && lock_discipline held t
  | EvSleep _ :: t => negb held && lock_discipline held t
  | EvCacheGet _ :: t => lock_discipline held t
  end.

(** X2. With caching, every call of [wget_tcp_resolve] keeps the discipline
    of the resolve lock on all its paths (hit, hit at the recheck, resolved,
    failed, given up after three transient failures): the lock taken is
    released before the call sleeps and before it returns. *)
Theorem wget_tcp_resolve_lock_discipline w tcp host port cache :
  caching tcp = true →
  lock_discipline false
    (trace (wget_tcp_resolve w tcp host port (mk_state cache [])).2) = true.
Proof.
  intros Hc.
  destruct (wget_tcp_resolve _ _ _ _ _) as [r st'] eqn:Hrun. cbn [snd].
  revert Hrun. destruct tcp as [c f pf]. simpl in Hc. subst c.
  run_resolve.
  all: intros [= <- <-]; reflexivity.
Qed.

Lemma wget_tcp_resolve_lock_discipline_witness :
  caching (mk_tcp true AF_UNSPEC AF_INET) = true ∧
  lock_discipline false
    (trace (wget_tcp_resolve always_again (mk_tcp true AF_UNSPEC AF_INET) "h" 80
              (mk_state ∅ [])).2) = true.
Proof.
  split; [reflexivity|].
  apply (wget_tcp_resolve_lock_discipline always_again
           (mk_tcp true AF_UNSPEC AF_INET) "h" 80 ∅).
  reflexivity.
Defined.

(** ** Without caching *)

Definition resolve_or_sleep (e : event) : Prop :=
  match e with EvResolve _ | EvSleep 100 => True | _ => False end.

Lemma resolve_loop_uncached w tcp host port max todo rc0 ai0 st :
  caching tcp = false →
  let r := resolve_loop w tcp host port max todo rc0 ai0 st in
  (∀ hit, r.1 ≠ Returned hit) ∧
  ∃ t, trace r.2 = trace st ++ t ∧ Forall resolve_or_sleep t ∧
       ((∀ n, asleep_add w n = None) → dns_cache r.2 = dns_cache st).
Proof.
  intros Hc. revert rc0 ai0 st.
  induction todo as [|todo IH]; intros rc0 ai0 st.
  - simpl. split; [done|]. exists []. by rewrite app_nil_r.
  - rewrite resolve_loop_S. cbv zeta. rewrite Hc.
    unfold _wget_tcp_resolve. destruct (getaddrinfo w _) as [rc1 ai1]. cbn [fst].
    destruct (_ || _).
    + cbn [fst snd]. split; [done|]. exists [EvResolve rc1].
      rewrite trace_emit. split; [done|]. split; [by repeat constructor|done].
    + set (s := if bool_decide _ then _ else _).
      destruct (IH rc1 ai1 s) as (Hr & t & Ht & Hall & Hcache).
      split; [done|].
      subst s. case_bool_decide.
      * exists (EvResolve rc1 :: EvSleep 100 :: t).
        rewrite Ht, trace_sleep, trace_emit, <- !app_assoc.
        split; [done|]. split; [by repeat constructor|].
        intros Hw. rewrite Hcache by done.
        unfold wget_millisleep, interfere. rewrite Hw. done.
      * exists (EvResolve rc1 :: t).
        rewrite Ht, trace_emit, <- !app_assoc.
        split; [done|]. split; [by repeat constructor|].
        intros Hw. by rewrite Hcache.
Qed.

(** X3. Without caching, [wget_tcp_resolve] does not use the DNS cache at
    all: it neither looks a name up nor stores an answer, and it never takes
    the resolve lock. All it does is call getaddrinfo(3) and sleep 100 ms
    between the calls; the cache is changed by other threads only. *)
Theorem wget_tcp_resolve_uncached w tcp host port cache :
  caching tcp = false →
  let st' := (wget_tcp_resolve w tcp host port (mk_state cache [])).2 in
  Forall resolve_or_sleep (trace st') ∧
  ((∀ n, asleep_add w n = None) → dns_cache st' = cache).
Proof.
  intros Hc. cbv zeta. unfold wget_tcp_resolve.
  destruct (resolve_loop_uncached w tcp host port 3 3 0 [] (mk_state cache []) Hc)
    as (Hr & t & Ht & Hall & Hcache).
  destruct (resolve_loop _ _ _ _ _ _ _ _ _) as [[hit|rc ai] st1]; [by destruct (Hr hit)|].
  cbn [fst snd] in *. rewrite Hc.
  case_bool_decide; cbn [snd]; rewrite Ht; done.
Qed.

Lemma wget_tcp_resolve_uncached_witness :
  caching (mk_tcp false AF_UNSPEC AF_INET) = false ∧
  let st' := (wget_tcp_resolve always_again (mk_tcp false AF_UNSPEC AF_INET) "h" 80
                (mk_state ∅ [])).2 in
  Forall resolve_or_sleep (trace st') ∧
  ((∀ n, asleep_add always_again n = None) → dns_cache st' = ∅).
Proof.
  split; [reflexivity|].
  apply (wget_tcp_resolve_uncached always_again
           (mk_tcp false AF_UNSPEC AF_INET) "h" 80 ∅).
  reflexivity.
Defined.

(** ** What a call leaves in the cache *)

Lemma cache_get_lookup host port st r st' :
  wget_dns_cache_get host port st = (r, st') →
  r = dns_cache st !! (host, port) ∧ dns_cache st' = dns_cache st.
Proof. unfold wget_dns_cache_get. by intros [= <- <-]. Qed.

(** A [return] inside the loop returns the entry of the cache. *)
Lemma resolve_loop_returned_entry w tcp host port max todo rc0 ai0 st hit st' :
  resolve_loop w tcp host port max todo rc0 ai0 st = (Returned hit, st') →
  dns_cache st' !! (host, port) = Some hit.
Proof.
  revert rc0 ai0 st. induction todo as [|todo IH]; intros rc0 ai0 st; [intros [=]|].
  rewrite resolve_loop_S. cbv zeta.
  set (tries := (max - S todo)%nat).
  assert (Hattempt : ∀ s,
    (let '(rc1, ai1, s1) := _wget_tcp_resolve w tries s in
     if bool_decide (rc1 = 0) || negb (bool_decide (rc1 = EAI_AGAIN))
     then (Fallthrough rc1 ai1, s1)
     else resolve_loop w tcp host port max todo rc1 ai1
            (if bool_decide (tries < max - 1)%nat
             then wget_millisleep w host port tries 100
                    (if caching tcp then emit EvUnlock s1 else s1)
             else s1)) = (Returned hit, st') →
    dns_cache st' !! (host, port) = Some hit).
  { intros s. unfold _wget_tcp_resolve.
    destruct (getaddrinfo w tries) as [rc1 ai1]. cbn [fst].
    destruct (_ || _); [intros [=]|]. apply IH. }
  destruct (caching tcp); [|apply Hattempt].
  destruct (wget_dns_cache_get host port st) as [[h|] s1] eqn:Hget1.
  { intros [= <- <-]. apply cache_get_lookup in Hget1 as [-> ->]. done. }
  destruct (wget_dns_cache_get host port (wget_thread_mutex_lock _ _ _ _ _)) as [[h|] s2] eqn:Hget2; [|apply Hattempt].
  intros [= <- <-]. apply cache_get_lookup in Hget2 as [Hh Hs2].
  change (dns_cache (emit EvUnlock s2)) with (dns_cache s2). by rewrite Hs2.
Qed.

(** When the loop is left without a [return] after at least one turn, the
    cache has no entry for the name. *)
Lemma resolve_loop_fallthrough_absent w tcp host port max todo rc0 ai0 st rc ai st' :
  caching tcp = true →
  resolve_loop w tcp host port max todo rc0 ai0 st = (Fallthrough rc ai, st') →
  (todo = 0%nat ∧ st' = st) ∨ dns_cache st' !! (host, port) = None.
Proof.
  intros Hc. revert rc0 ai0 st. induction todo as [|todo IH]; intros rc0 ai0 st.
  - intros [= _ _ <-]. by left.
  - intros H. right. revert H. rewrite resolve_loop_S. cbv zeta. rewrite Hc.
    set (tries := (max - S todo)%nat).
    destruct (wget_dns_cache_get host port st) as [[h|] s1]; [intros [=]|].
    destruct (wget_dns_cache_get host port (wget_thread_mutex_lock _ _ _ _ _)) as [[h|] s2] eqn:Hget; [intros [=]|].
    apply cache_get_lookup in Hget as [Hmiss Hs2].
    unfold _wget_tcp_resolve. destruct (getaddrinfo w tries) as [rc1 ai1]. cbn [fst].
    destruct (_ || _).
    + intros [= _ _ <-]. change (dns_cache (emit _ s2)) with (dns_cache s2).
      by rewrite Hs2.
    + intros Hloop. apply IH in Hloop as [[-> ->]|Hloop]; [|done].
      assert (tries = (max - 1)%nat) as -> by (subst tries; lia).
      rewrite bool_decide_eq_false_2 by lia.
      change (dns_cache (emit _ s2)) with (dns_cache s2). by rewrite Hs2.
Qed.

(** X4. With caching, the list a call returns is the entry of the cache for
    the name when the call ends, and the next call for the same name, by any
    connection with caching and whatever the resolver would answer, returns
    that list from the cache without calling getaddrinfo(3) and without
    taking the lock. *)
Theorem wget_tcp_resolve_then_cached w tcp host port st r st1 w2 tcp2 :
  caching tcp = true → caching tcp2 = true →
  wget_tcp_resolve w tcp host port st = (Some r, st1) →
  dns_cache st1 !! (host, port) = Some r ∧
  wget_tcp_resolve w2 tcp2 host port st1
    = (Some r, mk_state (dns_cache st1) (trace st1 ++ [EvCacheGet true])).
Proof.
  intros Hc Hc2 Hrun.
  assert (dns_cache st1 !! (host, port) = Some r) as Hentry.
  { revert Hrun. unfold wget_tcp_resolve.
    destruct (resolve_loop _ _ _ _ _ _ _ _ _) as [[hit|rc ai] s] eqn:Hloop.
    - intros [= <- <-]. by apply resolve_loop_returned_entry in Hloop.
    - case_bool_decide; [intros [=]|]. rewrite Hc.
      apply resolve_loop_fallthrough_absent in Hloop as [[[=] _]|Habsent]; [|done].
      unfold wget_dns_cache_add. rewrite Habsent.
      intros [= <- <-]. unfold emit. cbn [dns_cache]. by rewrite lookup_insert_eq. }
  split; [done|].
  unfold wget_tcp_resolve. rewrite resolve_loop_S. cbv zeta. rewrite Hc2.
  unfold wget_dns_cache_get. rewrite Hentry.
  by rewrite bool_decide_eq_true_2 by done.
Qed.

Lemma wget_tcp_resolve_then_cached_witness :
  let st1 := mk_state {[ ("h"%string, 80) := mixed_sorted ]} mixed_trace in
  caching (mk_tcp true AF_UNSPEC AF_INET) = true ∧
  caching (mk_tcp true AF_INET6 AF_UNSPEC) = true ∧
  wget_tcp_resolve mixed_world (mk_tcp true AF_UNSPEC AF_INET) "h" 80 (mk_state ∅ [])
    = (Some mixed_sorted, st1) ∧
  dns_cache st1 !! ("h"%string, 80) = Some mixed_sorted ∧
  wget_tcp_resolve always_again (mk_tcp true AF_INET6 AF_UNSPEC) "h" 80 st1
    = (Some mixed_sorted, mk_state (dns_cache st1) (trace st1 ++ [EvCacheGet true])).
Proof.
  intros st1.
  refine (conj eq_refl (conj eq_refl (conj eq_refl
    (wget_tcp_resolve_then_cached mixed_world (mk_tcp true AF_UNSPEC AF_INET)
       "h" 80 (mk_state ∅ []) mixed_sorted st1
       always_again (mk_tcp true AF_INET6 AF_UNSPEC) eq_refl eq_refl eq_refl)))).
Defined.

(** X5. A call returns NULL only for an error answer of getaddrinfo(3), one
    of its first three: then nothing was stored, and with caching the cache
    has no entry for the name when the call ends. *)
Theorem wget_tcp_resolve_null w tcp host port st st' :
  wget_tcp_resolve w tcp host port st = (None, st') →
  (∃ n rc ai, (n < 3)%nat ∧ getaddrinfo w n = (rc, ai) ∧ rc ≠ 0 ∧
              EvResolve rc ∈ trace st') ∧
  (EvCacheAdd ∉ trace st → EvCacheAdd ∉ trace st') ∧
  (caching tcp = true → dns_cache st' !! (host, port) = None).
Proof.
  unfold wget_tcp_resolve.
  destruct (resolve_loop _ _ _ _ _ _ _ _ _) as [[hit|rc ai] s] eqn:Hloop; [intros [=]|].
  case_bool_decide as Hrc;
    [|destruct (caching tcp); [destruct (wget_dns_cache_add _ _ _ _)|]; intros [=]].
  intros [= <-].
  assert (∃ n, (n < 3)%nat ∧ getaddrinfo w n = (rc, ai) ∧ EvResolve rc ∈ trace s ∧
               (EvCacheAdd ∉ trace st → EvCacheAdd ∉ trace s)) as (n & Hn & Hg & He & Ha).
  { clear -Hloop Hrc.
    assert (∀ todo rc0 ai0 st,
      (todo ≤ 3)%nat →
      resolve_loop w tcp host port 3 todo rc0 ai0 st = (Fallthrough rc ai, s) →
      (todo = 0%nat ∧ rc = rc0 ∧ ai = ai0 ∧ s = st) ∨
      ∃ n, (n < 3)%nat ∧ getaddrinfo w n = (rc, ai) ∧ EvResolve rc ∈ trace s ∧
           (EvCacheAdd ∉ trace st → EvCacheAdd ∉ trace s)) as Hgen.
    { induction todo as [|todo IH]; intros rc0 ai0 st0 Hle.
      - intros [= -> -> ->]. by left.
      - intros H. right. revert H. rewrite resolve_loop_S. cbv zeta.
        set (tries := (3 - S todo)%nat).
        assert (Hattempt : ∀ s0, (EvCacheAdd ∉ trace st0 → EvCacheAdd ∉ trace s0) →
          (let '(rc1, ai1, s1) := _wget_tcp_resolve w tries s0 in
           if bool_decide (rc1 = 0) || negb (bool_decide (rc1 = EAI_AGAIN))
           then (Fallthrough rc1 ai1, s1)
           else resolve_loop w tcp host port 3 todo rc1 ai1
                  (if bool_decide (tries < 3 - 1)%nat
                   then wget_millisleep w host port tries 100
                          (if caching tcp then emit EvUnlock s1 else s1)
                   else s1)) = (Fallthrough rc ai, s) →
          ∃ n, (n < 3)%nat ∧ getaddrinfo w n = (rc, ai) ∧ EvResolve rc ∈ trace s ∧
               (EvCacheAdd ∉ trace st0 → EvCacheAdd ∉ trace s)).
        { intros s0 Hs0. unfold _wget_tcp_resolve.
          destruct (getaddrinfo w tries) as [rc1 ai1] eqn:Hg. cbn [fst].
          destruct (_ || _).
          - intros [= -> -> <-]. exists tries. split; [subst tries; lia|].
            split; [done|]. rewrite trace_emit. split.
            + apply elem_of_app. right. apply list_elem_of_singleton; reflexivity.
            + rewrite not_elem_of_snoc. intuition discriminate.
          - intros Hl. apply IH in Hl as [(-> & -> & -> & ->)|(n & Hn & Hgn & He & Ha)]; [| |lia].
            + exists tries. split; [subst tries; lia|]. split; [done|].
              assert (tries = 2%nat) as -> by (subst tries; lia).
              rewrite bool_decide_eq_false_2 by lia. rewrite trace_emit. split.
              * apply elem_of_app. right. apply list_elem_of_singleton; reflexivity.
              * rewrite not_elem_of_snoc. intuition discriminate.
            + exists n. do 3 (split; [done|]). intros H0. apply Ha.
              specialize (Hs0 H0).
              destruct (bool_decide _), (caching tcp);
                rewrite ?trace_sleep, ?trace_emit, ?not_elem_of_snoc;
                intuition discriminate. }
        destruct (caching tcp); [|by apply Hattempt].
        destruct (wget_dns_cache_get host port st0) as [[h|] s1] eqn:Hg1; [intros [=]|].
        destruct (wget_dns_cache_get host port (wget_thread_mutex_lock _ _ _ _ _)) as [[h|] s2] eqn:Hg2; [intros [=]|].
        apply Hattempt.
        unfold wget_dns_cache_get in Hg1, Hg2.
        injection Hg1 as _ <-. injection Hg2 as _ <-.
        rewrite !trace_emit, trace_lock, trace_emit, !not_elem_of_snoc.
        intuition discriminate. }
    apply Hgen in Hloop as [([=] & _)|Hloop]; [|lia]. done. }
  split; [|split].
  - exists n, rc, ai. do 3 (split; [done|]).
    destruct (caching tcp); [|done]. rewrite trace_emit.
    apply elem_of_app. by left.
  - intros H0. specialize (Ha H0).
    destruct (caching tcp); [|done]. rewrite trace_emit, not_elem_of_snoc.
    intuition discriminate.
  - intros Hc. rewrite Hc.
    apply resolve_loop_fallthrough_absent in Hloop as [[[=] _]|Habsent]; [|done].
    done.
Qed.

Lemma wget_tcp_resolve_null_witness :
  wget_tcp_resolve always_again (mk_tcp true AF_UNSPEC AF_INET) "h" 80 (mk_state ∅ [])
    = (None, (wget_tcp_resolve always_again (mk_tcp true AF_UNSPEC AF_INET) "h" 80
                (mk_state ∅ [])).2) ∧
  let st' := (wget_tcp_resolve always_again (mk_tcp true AF_UNSPEC AF_INET) "h" 80
                (mk_state ∅ [])).2 in
  (∃ n rc ai, (n < 3)%nat ∧ getaddrinfo always_again n = (rc, ai) ∧ rc ≠ 0 ∧
              EvResolve rc ∈ trace st') ∧
  (EvCacheAdd ∉ trace (mk_state ∅ []) → EvCacheAdd ∉ trace st') ∧
  (caching (mk_tcp true AF_UNSPEC AF_INET) = true → dns_cache st' !! ("h", 80) = None).
Proof.
  split; [reflexivity|].
  apply (wget_tcp_resolve_null always_again (mk_tcp true AF_UNSPEC AF_INET) "h" 80
           (mk_state ∅ [])).
  reflexivity.
Defined.

End NetMore.

(* ===================================================================== *)
(** * Properties of the connection settings, of binding and of writing *)
(* ===================================================================== *)

Module TcpSpec.
Import Tcp.

Local Open Scope Z_scope.

(** ** Reading back what was set *)

Lemma deref_assign tcp t st : deref tcp (assign tcp t st) = Some t.
Proof. destruct tcp as [p|]; simpl; [apply lookup_insert_eq|done]. Qed.

Lemma deref_assign_other tcp tcp' t st :
  tcp ≠ tcp' → deref tcp' (assign tcp t st) = deref tcp' st.
Proof.
  destruct tcp as [p|], tcp' as [p'|]; simpl; try done.
  intros Hp. apply lookup_insert_ne. congruence.
Qed.

Section Settings.

Context (ANY IPV4 IPV6 : Z).

(** The address family that comes back from the library for a value that
    went in. *)
Definition known_family (value : Z) : Z :=
  if bool_decide (value = IPV4 ∨ value = IPV6) then value else ANY.

Lemma family_there_and_back value :
  IPV4 ≠ IPV6 →
  _family_to_value ANY IPV4 IPV6 (_value_to_family IPV4 IPV6 value)
    = known_family value.
Proof.
  intros Hd. unfold _family_to_value, _value_to_family, known_family.
  destruct (Z.eqb_spec value IPV4) as [->|H4].
  { by rewrite bool_decide_eq_true_2 by auto. }
  destruct (Z.eqb_spec value IPV6) as [->|H6].
  { by rewrite bool_decide_eq_true_2 by auto. }
  by rewrite bool_decide_eq_false_2 by tauto.
Qed.

(** X6. The address family of a connection, read back: what
    [wget_tcp_get_family] and [wget_tcp_get_preferred_family] return after
    the matching setter is the value set when that is
    [WGET_NET_FAMILY_IPV4] or [WGET_NET_FAMILY_IPV6], and
    [WGET_NET_FAMILY_ANY] for every other value; this for a connection and
    for the global settings (NULL) alike. *)
Theorem family_set_get (tcp : wget_tcp_t) (value : Z) (st : state) :
  IPV4 ≠ IPV6 →
  (st' ← wget_tcp_set_family IPV4 IPV6 tcp value st;
   wget_tcp_get_family ANY IPV4 IPV6 tcp st')
    = (_ ← deref tcp st; Some (known_family value)) ∧
  (st' ← wget_tcp_set_preferred_family IPV4 IPV6 tcp value st;
   wget_tcp_get_preferred_family ANY IPV4 IPV6 tcp st')
    = (_ ← deref tcp st; Some (known_family value)).
Proof.
  intros Hd.
  unfold wget_tcp_set_family, wget_tcp_get_family, wget_tcp_set_preferred_family,
    wget_tcp_get_preferred_family, modify.
  destruct (deref tcp st) as [t|]; [|done]. cbn.
  rewrite !deref_assign. cbn. by rewrite !family_there_and_back.
Qed.

(** X7. The global settings are the defaults of the connections made after
    them, and of those only: after [wget_tcp_set_timeout(NULL, v)],
    [wget_tcp_init] gives a new connection whose timeout reads [v], and every
    connection that existed keeps the timeout it had; setting the timeout of
    that new connection changes neither the global one nor another
    connection's. *)
Theorem global_settings_are_defaults (v v' : Z) (st st1 : state) :
  wget_tcp_set_timeout None v st = Some st1 →
  let '(tcp, st2) := wget_tcp_init st1 in
  wget_tcp_get_timeout tcp st2 = Some v ∧
  wget_tcp_get_timeout None st2 = Some v ∧
  (∀ p, is_Some (connections st !! p) →
     tcp ≠ Some p ∧ wget_tcp_get_timeout (Some p) st2 = wget_tcp_get_timeout (Some p) st) ∧
  ∃ st3, wget_tcp_set_timeout tcp v' st2 = Some st3 ∧
    wget_tcp_get_timeout tcp st3 = Some v' ∧
    wget_tcp_get_timeout None st3 = Some v ∧
    ∀ p, is_Some (connections st !! p) →
      wget_tcp_get_timeout (Some p) st3 = wget_tcp_get_timeout (Some p) st.
Proof.
  intros [= <-]. unfold wget_tcp_init. cbn [assign connections _global_tcp resolver].
  set (p0 := fresh (dom (connections st))).
  assert (connections st !! p0 = None) as Hfresh.
  { apply not_elem_of_dom. apply is_fresh. }
  assert (∀ p, is_Some (connections st !! p) → p0 ≠ p) as Hne.
  { intros p [t Hp] ->. congruence. }
  unfold wget_tcp_get_timeout, wget_tcp_set_timeout, modify. cbn [deref _global_tcp connections].
  rewrite lookup_insert_eq. cbn.
  split; [done|]. split; [done|]. split.
  { intros p Hp. split; [intros [= Heq]; by apply (Hne p)|].
    by rewrite lookup_insert_ne by auto. }
  eexists. split; [done|]. cbn. rewrite lookup_insert_eq. cbn.
  split; [done|]. split; [done|].
  intros p Hp. by rewrite !lookup_insert_ne by auto.
Qed.

End Settings.

Definition no_connection : state :=
  mk_state (initial_global_tcp true) ∅ (Net.mk_state ∅ []).

Lemma family_set_get_witness :
  (1 ≠ 2) ∧
  (st' ← wget_tcp_set_family 1 2 None 7 no_connection;
   wget_tcp_get_family 0 1 2 None st')
    = (_ ← deref None no_connection; Some (known_family 0 1 2 7)) ∧
  (st' ← wget_tcp_set_preferred_family 1 2 None 7 no_connection;
   wget_tcp_get_preferred_family 0 1 2 None st')
    = (_ ← deref None no_connection; Some (known_family 0 1 2 7)).
Proof.
  split; [lia|].
  apply (family_set_get 0 1 2 None 7 no_connection). lia.
Defined.

Lemma global_settings_are_defaults_witness :
  wget_tcp_set_timeout None 500 no_connection
    = Some (assign None (with_timeout 500 (initial_global_tcp true)) no_connection) ∧
  let '(tcp, st2) :=
    wget_tcp_init (assign None (with_timeout 500 (initial_global_tcp true))
                     no_connection) in
  wget_tcp_get_timeout tcp st2 = Some 500 ∧
  wget_tcp_get_timeout None st2 = Some 500 ∧
  (∀ p, is_Some (connections no_connection !! p) →
     tcp ≠ Some p ∧
     wget_tcp_get_timeout (Some p) st2 = wget_tcp_get_timeout (Some p) no_connection) ∧
  ∃ st3, wget_tcp_set_timeout tcp 30 st2 = Some st3 ∧
    wget_tcp_get_timeout tcp st3 = Some 30 ∧
    wget_tcp_get_timeout None st3 = Some 500 ∧
    ∀ p, is_Some (connections no_connection !! p) →
      wget_tcp_get_timeout (Some p) st3 = wget_tcp_get_timeout (Some p) no_connection.
Proof.
  split; [reflexivity|].
  apply (global_settings_are_defaults 500 30 no_connection). reflexivity.
Defined.

(** ** The host and the port of a bind address *)

Import CStrSpec.

Lemma scan_colon_append h r :
  mentions ":" h = false → scan_colon (h +:+ ":" +:+ r) = String.length h.
Proof.
  induction h as [|a h IH]; intros H; [reflexivity|].
  rewrite append_cons. simpl in *. apply orb_false_iff in H as [Ha Hh].
  rewrite Ha. f_equal. by apply IH.
Qed.

Lemma scan_colon_all h : mentions ":" h = false → scan_colon h = String.length h.
Proof.
  induction h as [|a h IH]; simpl; [done|].
  intros H. apply orb_false_iff in H as [Ha Hh]. rewrite Ha. by rewrite IH.
Qed.

Lemma first_byte_append h r :
  first_byte (h +:+ r) = match h with String c _ => c | EmptyString => first_byte r end.
Proof. by destruct h. Qed.

(** X8. A bind address without brackets: [host] alone asks the resolver for
    the host with port 0; [host:port] asks for the host with the number the
    port starts with, reduced to 16 bits; and when what follows the colon
    does not start with a digit ([host:], [host:http]) nothing is resolved. *)
Theorem bind_address_host_port (h rest : string) :
  mentions ":" h = false → Ascii.eqb (first_byte h) "[" = false →
  bind_address_request h = Some (Some (h, 0)) ∧
  bind_address_request (h +:+ ":" +:+ rest) =
    if c_isdigit (first_byte rest)
    then port ← atoi rest; Some (Some (h, port mod 2 ^ 16))
    else Some None.
Proof.
  intros Hcolon Hbracket. unfold bind_address_request, bind_address_scan. split.
  - rewrite Hbracket, scan_colon_all by done.
    rewrite drop_all by lia. cbn. done.
  - assert (Ascii.eqb (first_byte (h +:+ ":" +:+ rest)) "[" = false) as ->.
    { rewrite first_byte_append. by destruct h. }
    rewrite scan_colon_append by done.
    rewrite drop_S, !drop_append, Nat.sub_0_r, drop_0, take_append.
    change (first_byte (":" +:+ rest)) with ":"%char. rewrite Ascii.eqb_refl.
    change (CStr.drop 1 (":" +:+ rest)) with rest. done.
Qed.

Lemma bind_address_host_port_witness :
  mentions ":" "localhost" = false ∧ Ascii.eqb (first_byte "localhost") "[" = false ∧
  bind_address_request "localhost" = Some (Some ("localhost"%string, 0)) ∧
  bind_address_request ("localhost" +:+ ":" +:+ "8080x") =
    if c_isdigit (first_byte "8080x")
    then port ← atoi "8080x"; Some (Some ("localhost"%string, port mod 2 ^ 16))
    else Some None.
Proof.
  split; [reflexivity|]. split; [reflexivity|].
  apply (bind_address_host_port "localhost" "8080x"); reflexivity.
Defined.

(** X9. A bind address in brackets keeps its closing bracket: for
    [[addr]:port] and for [[addr]] the host that goes to the resolver is
    [addr]] and not [addr], since the byte that ends the host is the one
    after the bracket; and without a closing bracket the host is all that
    follows the opening one, a colon and a port included. *)
Theorem bind_address_brackets (a rest : string) :
  mentions "]" rest = false →
  bind_address_request ("[" +:+ a +:+ "]" +:+ rest) =
    (if Ascii.eqb (first_byte rest) ":"
     then
       if c_isdigit (first_byte (CStr.drop 1 rest))
       then port ← atoi (CStr.drop 1 rest); Some (Some (a +:+ "]", port mod 2 ^ 16))
       else Some None
     else Some (Some (a +:+ "]" +:+ rest, 0))) ∧
  (mentions "]" a = false →
   bind_address_request ("[" +:+ a) = Some (Some (a, 0))).
Proof.
  intros Hrest. unfold bind_address_request, bind_address_scan. split.
  - change (first_byte ("[" +:+ a +:+ "]" +:+ rest)) with ("["%char).
    rewrite Ascii.eqb_refl.
    assert (CStr.strrchr ("]" +:+ rest) "]" = Some 0%nat) as Hlast.
    { apply strrchr_none in Hrest.
      change (CStr.strrchr ("]" +:+ rest) "]")
        with (match CStr.strrchr rest "]" with
              | Some i => Some (S i)
              | None => Some 0%nat
              end).
      by rewrite Hrest. }
    rewrite <- (append_assoc "[" a), strrchr_append, Hlast, Nat.add_0_r.
    rewrite (drop_S (S _)), (drop_S (String.length _)), !drop_append.
    change (CStr.drop 1 ("]" +:+ rest)) with rest.
    assert (CStr.take (S (String.length ("[" +:+ a)) - 1)
              (CStr.drop 1 (("[" +:+ a) +:+ "]" +:+ rest)) = a +:+ "]") as ->.
    { change (CStr.drop 1 (("[" +:+ a) +:+ "]" +:+ rest)) with (a +:+ "]" +:+ rest).
      replace (S (String.length ("[" +:+ a)) - 1)%nat with (String.length (a +:+ "]")).
      2:{ rewrite !length_append. simpl. lia. }
      by rewrite <- append_assoc, take_append. }
    change (CStr.drop 1 (("[" +:+ a) +:+ "]" +:+ rest)) with (a +:+ "]" +:+ rest).
    done.
  - intros Ha. change (first_byte ("[" +:+ a)) with ("["%char).
    rewrite Ascii.eqb_refl.
    assert (CStr.strrchr ("[" +:+ a) "]" = None) as ->.
    { apply strrchr_none. rewrite mentions_append, Ha. done. }
    rewrite drop_all by lia. done.
Qed.

Lemma bind_address_brackets_witness :
  mentions "]" ":8080" = false ∧
  bind_address_request ("[" +:+ "::1" +:+ "]" +:+ ":8080")
    = Some (Some ("::1]"%string, 8080)) ∧
  (mentions "]" "::1" = false →
   bind_address_request ("[" +:+ "::1") = Some (Some ("::1"%string, 0))).
Proof.
  split; [reflexivity|].
  apply (bind_address_brackets "::1" ":8080"). reflexivity.
Defined.

(** ** Writing *)

Section Write.

Context (FASTOPEN : bool) (x : wire).

(** send(2) and sendto(2) never take more bytes than they are given. *)
Definition honest (x : wire) : Prop :=
  ∀ k b, (send x k b).1 ≤ CStr.strlen b ∧ (sendto x k b).1 ≤ CStr.strlen b.

Lemma strlen_take n b :
  0 ≤ n ≤ CStr.strlen b → CStr.strlen (CStr.take (Z.to_nat n) b) = n.
Proof. unfold CStr.strlen. rewrite length_take. lia. Qed.

Lemma strlen_drop n b :
  0 ≤ n ≤ CStr.strlen b → CStr.strlen (CStr.drop (Z.to_nat n) b) = CStr.strlen b - n.
Proof. unfold CStr.strlen. rewrite length_drop. lia. Qed.

Lemma write_loop_complete turns k t b nw s r t' :
  honest x →
  write_loop FASTOPEN x turns k t b nw s = Some (r, t') →
  (0 < returned r → returned r = nw + CStr.strlen b ∧ sent r = s +:+ b) ∧
  ∃ rest, s +:+ b = sent r +:+ rest.
Proof.
  intros Hx. revert k t b nw s.
  induction turns as [|turns IH]; intros k t b nw s; [done|].
  cbn [write_loop].
  destruct (String.length b =? 0)%nat eqn:Hb.
  { intros [= <- <-]. cbn. split; [lia|]. by exists b. }
  assert (∀ n errno t0,
    (if 0 <=? n
     then
       if CStr.strlen b <=? n
       then Some (mk_written (nw + n) (s +:+ CStr.take (Z.to_nat n) b), t0)
       else write_loop FASTOPEN x turns (S k) t0 (CStr.drop (Z.to_nat n) b) (nw + n)
              (s +:+ CStr.take (Z.to_nat n) b)
     else
       if negb (transient errno) then Some (mk_written (-1) s, t0)
       else if negb (Tcp.timeout t0 =? 0) then
         if wget_ready_2_write x k <=? 0
         then Some (mk_written (wget_ready_2_write x k) s, t0)
         else write_loop FASTOPEN x turns (S k) t0 b nw s
       else write_loop FASTOPEN x turns (S k) t0 b nw s) = Some (r, t') →
    n ≤ CStr.strlen b →
    (0 < returned r → returned r = nw + CStr.strlen b ∧ sent r = s +:+ b) ∧
    ∃ rest, s +:+ b = sent r +:+ rest) as Hstep.
  { intros n errno t0 H Hn.
    destruct (Z.leb_spec 0 n) as [Hn0|Hn0].
    - destruct (Z.leb_spec (CStr.strlen b) n) as [Hall|Hpart].
      + injection H as <- <-. cbn.
        assert (n = CStr.strlen b) as -> by lia.
        unfold CStr.strlen. rewrite Nat2Z.id, take_all by lia.
        split; [done|]. by exists ""%string; rewrite append_nil_r.
      + apply IH in H as [Hr [rest Hrest]].
        rewrite append_assoc, take_drop in Hr, Hrest.
        rewrite strlen_drop in Hr by lia.
        split; [intros H0; destruct (Hr H0); split; [lia|done]|by exists rest].
    - destruct (negb (transient errno)).
      { injection H as <- <-. cbn. split; [lia|]. by exists b. }
      destruct (negb (Tcp.timeout t0 =? 0)).
      + destruct (Z.leb_spec (wget_ready_2_write x k) 0).
        * injection H as <- <-. cbn. split; [lia|]. by exists b.
        * by apply IH in H.
      + by apply IH in H. }
  destruct (FASTOPEN && Tcp.tcp_fastopen t && first_send t).
  - destruct (sendto x k b) as [n errno] eqn:Hs.
    pose proof (proj2 (Hx k b)) as Hn. rewrite Hs in Hn. cbn in Hn.
    destruct ((n <? 0) && (errno =? EOPNOTSUPP)).
    + destruct (reconnect x k) as [rc e2].
      destruct ((rc <? 0) && negb (transient e2)).
      * intros [= <- <-]. cbn. split; [lia|]. by exists b.
      * intros H. by apply Hstep in H.
    + intros H. by apply Hstep in H.
  - destruct (send x k b) as [n errno] eqn:Hs.
    pose proof (proj1 (Hx k b)) as Hn. rewrite Hs in Hn. cbn in Hn.
    intros H. by apply Hstep in H.
Qed.

(** X10. [wget_tcp_write] on a plain socket writes all or reports nothing:
    when send(2) never takes more than it is given, a positive return value
    is the whole [count], with all bytes of the buffer sent in order, and
    any other return (0 for a timeout or for [count] 0, -1 for an error)
    may follow a partial transmission: what was sent is a prefix of the
    buffer, and its length is not reported. *)
Theorem wget_tcp_write_all_or_nothing turns t buf r t' :
  honest x → ssl_session t = false →
  wget_tcp_write FASTOPEN x turns (Some t) (Some buf) = Some (r, t') →
  (0 < returned r → returned r = CStr.strlen buf ∧ sent r = buf) ∧
  (∃ rest, buf = sent r +:+ rest) ∧
  (buf = ""%string → returned r = 0).
Proof.
  intros Hx Hssl. unfold wget_tcp_write. rewrite Hssl.
  intros H. apply bind_Some in H as ([r0 t0] & H & [= <- <-]).
  split; [|split].
  - apply write_loop_complete in H as [H _]; [|done]. exact H.
  - apply write_loop_complete in H as [_ H]; [|done]. exact H.
  - intros ->. destruct turns; [done|]. by injection H as <- _.
Qed.

End Write.

(** A socket that takes three bytes at a time, after a first refusal. *)
Definition slow_wire : wire :=
  mk_wire (λ k b, if k is O then (-1, EAGAIN)
                  else (Z.min 3 (CStr.strlen b), 0))
          (λ _ _, (-1, EOPNOTSUPP)) (λ _, (0, 0)) (λ _, 1) (λ _, -1).

Lemma wget_tcp_write_all_or_nothing_witness :
  honest slow_wire ∧ ssl_session (initial_global_tcp false) = false ∧
  wget_tcp_write false slow_wire 10 (Some (initial_global_tcp false)) (Some "12345678")
    = Some (mk_written 8 "12345678", Some (initial_global_tcp false)) ∧
  (0 < 8 → 8 = CStr.strlen "12345678" ∧ "12345678"%string = "12345678"%string) ∧
  (∃ rest, "12345678"%string = "12345678" +:+ rest) ∧
  ("12345678"%string = ""%string → 8 = 0).
Proof.
  assert (honest slow_wire) as Hhonest.
  { intros k b. pose proof (strlen_nonneg' b). destruct k; cbn; lia. }
  split; [exact Hhonest|]. split; [reflexivity|]. split; [reflexivity|].
  apply (wget_tcp_write_all_or_nothing false slow_wire 10 (initial_global_tcp false)
           "12345678" (mk_written 8 "12345678") (Some (initial_global_tcp false))
           Hhonest); reflexivity.
Defined.

(** ** Connecting *)

Section Connect.

Context (E_UNKNOWN E_INVALID E_CONNECT E_CERTIFICATE : Z).
Context (net : network).

Abbreviation connect_loop := (connect_loop E_UNKNOWN E_CONNECT E_CERTIFICATE net).

(** The descriptors that socket(2) gave and close(2) has not closed yet. *)
Fixpoint close_one (fd : Z) (fds : list Z) : list Z :=
  match fds with
  | [] => []
  | f :: fds => if f =? fd then fds else f :: close_one fd fds
  end.

Definition track (fds : list Z) (e : sys_event) : list Z :=
  match e with
  | EvSocket fd => if fd =? -1 then fds else fds ++ [fd]
  | EvClose fd => close_one fd fds
  | EvFreeaddrinfo _ => fds
  end.

Definition still_open (tr : list sys_event) : list Z := foldl track [] tr.

(** Can the connection be made to the [k]-th address? It can when socket(2)
    gives a descriptor, connect(2) does not fail (it is not called with TCP
    Fast Open, and a connection in progress is no failure), and the TLS
    handshake, if any, succeeds. *)
Definition usable (fastopen tls : bool) (k : nat) : bool :=
  negb (socket net k =? -1)
  && (fastopen
      || negb (((connect net k).1 <? 0) && negb ((connect net k).2 =? EAGAIN)
               && negb ((connect net k).2 =? EINPROGRESS)))
  && (negb tls || (wget_ssl_open net k =? 0)).

Lemma still_open_snoc tr e : still_open (tr ++ [e]) = track (still_open tr) e.
Proof. unfold still_open. by rewrite foldl_app. Qed.

Lemma close_settings t :
  Tcp.tcp_fastopen (wget_tcp_close t).1 = Tcp.tcp_fastopen t ∧
  Tcp.ssl (wget_tcp_close t).1 = Tcp.ssl t ∧
  sockfd (wget_tcp_close t).1 = -1 ∧
  bind_addrinfo (wget_tcp_close t).1 = bind_addrinfo t.
Proof.
  unfold wget_tcp_close. cbn.
  destruct (Z.eqb_spec (sockfd t) (-1)) as [H|H]; cbn;
    destruct (addrinfo_allocated t); cbn; auto.
Qed.

Lemma close_still_open t tr fd :
  sockfd t = fd → fd ≠ -1 → still_open tr = [fd] →
  still_open (tr ++ (wget_tcp_close t).2) = [].
Proof.
  intros Hfd Hne Htr. unfold wget_tcp_close. cbn. rewrite Hfd.
  rewrite (proj2 (Z.eqb_neq fd (-1))) by done. cbn.
  assert (still_open (tr ++ [EvClose fd]) = []) as Hclosed.
  { rewrite still_open_snoc, Htr. cbn. by rewrite Z.eqb_refl. }
  destruct (addrinfo_allocated t); cbn; [|done].
  unfold still_open in *. rewrite foldl_app in *. cbn in *. by rewrite Hclosed.
Qed.

(** What a call that returns [r] leaves when it went through the addresses
    [ais], the first of which is the [k]-th of the list: for [r = 0] the
    connection is made to the first usable address, and the address list of
    the structure is still [a0]; otherwise the structure has no descriptor.
    In both cases no other descriptor is left open. *)
Definition connect_post (fastopen tls : bool) (k : nat) (ais : list Net.addrinfo)
    (a0 : option (list Net.addrinfo)) (r : Z) (t' : wget_tcp_st)
    (tr' : list sys_event) : Prop :=
  if decide (r = 0) then
    Tcp.addrinfo t' = a0 ∧
    ∃ i ai, ais !! i = Some ai ∧
      usable fastopen tls (k + i) = true ∧
      (∀ j, (j < i)%nat → usable fastopen tls (k + j) = false) ∧
      sockfd t' = socket net (k + i) ∧ sockfd t' ≠ -1 ∧
      ip t' = Some (default "???"%string (getnameinfo net ai)) ∧
      still_open tr' = [sockfd t']
  else sockfd t' = -1 ∧ still_open tr' = [].

Lemma connect_post_next fastopen tls k ai rest a0 r t' tr' :
  usable fastopen tls k = false →
  connect_post fastopen tls (S k) rest a0 r t' tr' →
  connect_post fastopen tls k (ai :: rest) a0 r t' tr'.
Proof.
  intros Hnot. unfold connect_post. destruct (decide (r = 0)); [|done].
  intros (Ha0 & i & a & Hi & Hus & Hbefore & Hrest). split; [done|].
  exists (S i), a. replace (k + S i)%nat with (S k + i)%nat by lia.
  split; [done|]. split; [done|]. split; [|done].
  intros [|j] Hj.
  - by rewrite Nat.add_0_r.
  - replace (k + S j)%nat with (S k + j)%nat by lia. apply Hbefore. lia.
Qed.

Lemma connect_post_here fastopen tls k ai rest a0 t' tr' :
  usable fastopen tls k = true →
  Tcp.addrinfo t' = a0 →
  sockfd t' = socket net k →
  ip t' = Some (default "???"%string (getnameinfo net ai)) →
  still_open tr' = [socket net k] →
  connect_post fastopen tls k (ai :: rest) a0 WGET_E_SUCCESS t' tr'.
Proof.
  intros Hus Ha0 Hfd Hip Hopen. unfold connect_post. rewrite decide_True by done.
  split; [done|].
  exists 0%nat, ai. rewrite Nat.add_0_r. split; [done|]. split; [done|].
  split; [lia|]. split; [done|]. split; [|by rewrite Hfd].
  rewrite Hfd. unfold usable in Hus.
  destruct (Z.eqb_spec (socket net k) (-1)); [done|done].
Qed.

Lemma connect_loop_post ais : ∀ k t ret tr r t' tr',
  E_UNKNOWN ≠ 0 → E_CONNECT ≠ 0 → ret ≠ 0 →
  sockfd t = -1 → still_open tr = [] →
  connect_loop k ais t ret tr = (Return r, t', tr') →
  connect_post (Tcp.tcp_fastopen t) (Tcp.ssl t) k ais (Tcp.addrinfo t) r t' tr'.
Proof.
  induction ais as [|ai rest IH]; intros k t ret tr r t' tr' Hu Hc Hret Hfd Htr.
  { intros [= <- <- <-]. unfold connect_post. by rewrite decide_False by done. }
  cbn [Tcp.connect_loop].
  destruct (Z.eqb_spec (socket net k) (-1)) as [Hs|Hs].
  { intros H. apply IH in H; try done.
    2:{ rewrite still_open_snoc, Htr. cbn. by rewrite Hs. }
    apply connect_post_next; [|done]. unfold usable. by rewrite Hs. }
  assert (still_open (tr ++ [EvSocket (socket net k)]) = [socket net k]) as Hopened.
  { rewrite still_open_snoc, Htr. cbn. by rewrite (proj2 (Z.eqb_neq _ _)) by done. }
  assert (still_open ((tr ++ [EvSocket (socket net k)]) ++ [EvClose (socket net k)]) = [])
    as Hclosed.
  { rewrite still_open_snoc, Hopened. cbn. by rewrite Z.eqb_refl. }
  destruct (fcntl_ok net k); [|intros [=]]. cbn [negb].
  destruct (nonnull (bind_addrinfo t) && negb (bind net k =? 0)).
  { intros [= <- <- <-]. unfold connect_post. by rewrite decide_False by done. }
  (* the TLS handshake, on a structure [t0] that has the descriptor *)
  assert (∀ t0,
    Tcp.tcp_fastopen t0 = Tcp.tcp_fastopen t → Tcp.ssl t0 = Tcp.ssl t →
    Tcp.addrinfo t0 = Tcp.addrinfo t → sockfd t0 = socket net k →
    (Tcp.tcp_fastopen t
     || negb (((connect net k).1 <? 0) && negb ((connect net k).2 =? EAGAIN)
              && negb ((connect net k).2 =? EINPROGRESS))) = true →
    (if Tcp.ssl t0 then
       if negb (wget_ssl_open net k =? 0) then
         if wget_ssl_open net k =? E_CERTIFICATE then
           let '(t1, ev) := wget_tcp_close t0 in
           (Return (wget_ssl_open net k), t1, (tr ++ [EvSocket (socket net k)]) ++ ev)
         else
           let '(t1, ev) := wget_tcp_close (with_addrinfo None t0) in
           connect_loop (S k) rest (with_addrinfo (Tcp.addrinfo t0) t1)
             (wget_ssl_open net k) ((tr ++ [EvSocket (socket net k)]) ++ ev)
       else
         (Return WGET_E_SUCCESS,
          with_ip (Some (default "???"%string (getnameinfo net ai)))
            (with_ssl_session true t0),
          tr ++ [EvSocket (socket net k)])
     else
       (Return WGET_E_SUCCESS,
        with_ip (Some (default "???"%string (getnameinfo net ai))) t0,
        tr ++ [EvSocket (socket net k)])) = (Return r, t', tr') →
    connect_post (Tcp.tcp_fastopen t) (Tcp.ssl t) k (ai :: rest) (Tcp.addrinfo t)
      r t' tr') as Htls.
  { intros t0 Hfo Hssl Hai Hfd0 Hok. rewrite Hssl.
    destruct (Tcp.ssl t) eqn:Etls.
    2:{ intros [= <- <- <-]. apply connect_post_here; try done.
        unfold usable. rewrite Hok. by rewrite (proj2 (Z.eqb_neq _ _)) by done. }
    destruct (Z.eqb_spec (wget_ssl_open net k) 0) as [Hopen|Hopen]; cbn [negb].
    { intros [= <- <- <-]. apply connect_post_here; try done.
      unfold usable. rewrite Hok, Hopen. by rewrite (proj2 (Z.eqb_neq _ _)) by done. }
    assert (usable (Tcp.tcp_fastopen t) true k = false) as Hnot.
    { unfold usable. rewrite (proj2 (Z.eqb_neq _ _) Hopen). by rewrite andb_false_r. }
    destruct (wget_ssl_open net k =? E_CERTIFICATE).
    - pose proof (close_settings t0) as (_ & _ & Hm & _).
      pose proof (close_still_open t0 _ _ Hfd0 Hs Hopened) as Hcl.
      destruct (wget_tcp_close t0) as [t1 ev]. cbn [fst snd] in *.
      intros [= <- <- <-]. unfold connect_post. by rewrite decide_False by done.
    - pose proof (close_settings (with_addrinfo None t0)) as (Hf1 & Hs1 & Hm & _).
      pose proof (close_still_open (with_addrinfo None t0) _ _ Hfd0 Hs Hopened) as Hcl.
      destruct (wget_tcp_close (with_addrinfo None t0)) as [t1 ev]. cbn [fst snd] in *.
      intros H. apply IH in H; try done.
      apply connect_post_next; [done|].
      cbn in H. rewrite Hf1, Hs1 in H. cbn in H. rewrite Hfo, Hssl, Hai in H. exact H. }
  destruct (Tcp.tcp_fastopen t) eqn:Efo.
  - intros H.
    apply (Htls (with_sockfd (socket net k)
                   (with_first_send true (with_connect_addrinfo (Some ai) t))));
      [done..|exact H].
  - destruct (connect net k) as [rc errno] eqn:Hconn. cbn [fst snd] in Htls.
    destruct ((rc <? 0) && negb (errno =? EAGAIN) && negb (errno =? EINPROGRESS)) eqn:Hfail.
    + intros H. apply IH in H; try done.
      apply connect_post_next; [|cbn in H; by rewrite Efo in H].
      unfold usable. rewrite Hconn. cbn [fst snd]. rewrite Hfail.
      by rewrite andb_false_r.
    + intros H.
      apply (Htls (with_sockfd (socket net k) (with_first_send false t)));
        [done..|exact H].
Qed.

(** X11. When [wget_tcp_connect] returns success, the connection is made to
    the first address of the resolved list that can be used, the addresses
    being tried in the order of the list: socket(2), connect(2) or the TLS
    handshake failed for every address before it. The descriptor of the
    connection is the only one the call leaves open, and a call that returns
    an error leaves none open and none in the structure. *)
Theorem wget_tcp_connect_first_usable w p host port st t r st' tr :
  E_UNKNOWN ≠ 0 → E_CONNECT ≠ 0 →
  connections st !! p = Some t → sockfd t = -1 →
  wget_tcp_connect E_UNKNOWN E_INVALID E_CONNECT E_CERTIFICATE w net (Some p) host port st
    = Some (Return r, st', tr) →
  ∃ t', connections st' !! p = Some t' ∧
    if decide (r = 0) then
      ∃ ais i ai, addrinfo t' = Some ais ∧ ais !! i = Some ai ∧
        usable (Tcp.tcp_fastopen t) (Tcp.ssl t) i = true ∧
        (∀ j, (j < i)%nat → usable (Tcp.tcp_fastopen t) (Tcp.ssl t) j = false) ∧
        sockfd t' = socket net i ∧ sockfd t' ≠ -1 ∧
        ip t' = Some (default "???"%string (getnameinfo net ai)) ∧
        still_open tr = [sockfd t']
    else sockfd t' = -1 ∧ still_open tr = [].
Proof.
  intros Hu Hc Ht Hfd. unfold wget_tcp_connect. rewrite Ht. cbn.
  unfold wget_tcp_resolve. cbn [deref]. rewrite Ht. cbn.
  destruct (Net.wget_tcp_resolve _ _ _ _ _) as [res ns]. cbn.
  destruct (Tcp.connect_loop _ _ _ _ _ _ _ _ _) as [[e t1] tr1] eqn:Hloop.
  intros [= -> <- <-]. exists t1. cbn. rewrite lookup_insert_eq. split; [done|].
  apply connect_loop_post in Hloop; try done.
  2:{ by destruct (addrinfo_allocated t). }
  unfold connect_post in Hloop. cbn in Hloop.
  destruct (decide (r = 0)); [|done].
  destruct Hloop as (Hai & i & ai & Hi & Hrest).
  destruct res as [ais|]; [|done]. cbn in Hi.
  exists ais, i, ai. done.
Qed.

End Connect.

(** A host with two addresses; the first refuses the connection. *)
Definition two_addresses : Net.world :=
  Net.mk_world
    (λ _, (0, [Net.mk_addrinfo Net.AF_INET6 "::1"; Net.mk_addrinfo Net.AF_INET "10.0.0.1"]))
    (λ _, None) (λ _, None).

Definition second_accepts : network :=
  mk_network (λ k, 5 + Z.of_nat k) (λ _, true) (λ _, 0)
    (λ k, if k is O then (-1, 111) else (0, 0)) (λ _, 0)
    (λ ai, Some (Net.ai_addr ai)).

Definition one_connection : state :=
  mk_state (initial_global_tcp false) {[ 0%nat := initial_global_tcp false ]}
    (Net.mk_state ∅ []).

Lemma wget_tcp_connect_first_usable_witness :
  (-1 ≠ 0) ∧ (-6 ≠ 0) ∧
  connections one_connection !! 0%nat = Some (initial_global_tcp false) ∧
  sockfd (initial_global_tcp false) = -1 ∧
  ∃ st' tr,
    wget_tcp_connect (-1) (-3) (-6) (-7) two_addresses second_accepts (Some 0%nat)
      "h" 80 one_connection = Some (Return 0, st', tr) ∧
    tr = [EvSocket 5; EvClose 5; EvSocket 6] ∧
    ∃ t', connections st' !! 0%nat = Some t' ∧
      ∃ ais i ai, addrinfo t' = Some ais ∧ ais !! i = Some ai ∧
        usable second_accepts false false i = true ∧
        (∀ j, (j < i)%nat → usable second_accepts false false j = false) ∧
        sockfd t' = socket second_accepts i ∧ sockfd t' ≠ -1 ∧
        ip t' = Some (default "???"%string (getnameinfo second_accepts ai)) ∧
        still_open tr = [sockfd t'].
Proof.
  split; [lia|]. split; [lia|]. split; [reflexivity|]. split; [reflexivity|].
  eexists _, _. split; [reflexivity|]. split; [reflexivity|].
  apply (wget_tcp_connect_first_usable (-1) (-3) (-6) (-7) second_accepts
           two_addresses 0%nat "h" 80 one_connection (initial_global_tcp false) 0);
    [lia|lia|reflexivity|reflexivity|reflexivity].
Defined.

End TcpSpec.

(* ===================================================================== *)
(** * Properties of the local file names and of the URL hash *)
(* ===================================================================== *)

Module FileNameSpec.
Import Iri Options FileName CStrSpec.

Local Open Scope Z_scope.

(** ** The hash of a URL *)

Lemma hash_url_loop_range url h : 0 ≤ h < 2 ^ 32 → 0 ≤ hash_url_loop url h < 2 ^ 32.
Proof.
  revert h. induction url as [|c r IH]; intros h Hh; simpl; [done|].
  apply IH. apply Z.mod_pos_bound. lia.
Qed.

Lemma hash_url_loop_append s1 s2 h :
  hash_url_loop (s1 +:+ s2) h = hash_url_loop s2 (hash_url_loop s1 h).
Proof.
  revert h. induction s1 as [|c r IH]; intros h; [done|].
  rewrite append_cons. simpl. apply IH.
Qed.

Lemma mod_mul_add a p x m :
  m ≠ 0 → (a mod m * p + x) mod m = (a * p + x) mod m.
Proof.
  intros Hm. by rewrite <- Z.add_mod_idemp_l, Z.mul_mod_idemp_l, Z.add_mod_idemp_l.
Qed.

(** The polynomial that [hash_url] reduces. *)
Fixpoint polynomial (s : string) : Z :=
  match s with
  | EmptyString => 0
  | String c r => CStr.uchar c * 101 ^ CStr.strlen r + polynomial r
  end.

Lemma hash_url_loop_linear s h :
  0 ≤ h < 2 ^ 32 →
  hash_url_loop s h = (h * 101 ^ CStr.strlen s + polynomial s) mod 2 ^ 32.
Proof.
  revert h. induction s as [|c r IH]; intros h Hh.
  - simpl. change (CStr.strlen "") with 0.
    rewrite Z.pow_0_r, Z.mul_1_r, Z.add_0_r, Z.mod_small; done.
  - cbn [hash_url_loop polynomial].
    assert (CStr.strlen (String c r) = 1 + CStr.strlen r) as ->.
    { unfold CStr.strlen. simpl String.length. lia. }
    pose proof (strlen_nonneg' r) as Hr.
    rewrite Z.pow_add_r, Z.pow_1_r by lia.
    rewrite IH by (apply Z.mod_pos_bound; lia).
    rewrite mod_mul_add by lia. f_equal. lia.
Qed.

(** X16. [hash_url] is a polynomial hash in base 101, reduced modulo 2^32:
    the hash of a concatenation is the hash of the first part, shifted by
    101 to the length of the second, plus the hash of the second; and every
    hash fits an [unsigned int]. *)
Theorem hash_url_append (s1 s2 : string) :
  hash_url (s1 +:+ s2)
    = (hash_url s1 * 101 ^ CStr.strlen s2 + hash_url s2) mod 2 ^ 32 ∧
  0 ≤ hash_url (s1 +:+ s2) < 2 ^ 32.
Proof.
  unfold hash_url. split; [|apply hash_url_loop_range; lia].
  rewrite hash_url_loop_append.
  rewrite (hash_url_loop_linear s2 (hash_url_loop s1 0))
    by (apply hash_url_loop_range; lia).
  rewrite (hash_url_loop_linear s2 0) by lia.
  rewrite Z.mul_0_l, Z.add_0_l, Z.add_mod_idemp_r by lia. done.
Qed.

(** ** [restrict_file_name] *)

(** A control character: a byte from 1 to 31. *)
Definition is_control (c : ascii) : bool :=
  (1 <=? CStr.uchar c) && (CStr.uchar c <=? 31).

Definition is_upper (c : ascii) : bool :=
  (65 <=? CStr.uchar c) && (CStr.uchar c <=? 90).

Definition is_lower (c : ascii) : bool :=
  (97 <=? CStr.uchar c) && (CStr.uchar c <=? 122).

(** Do all bytes of a string pass a test? *)
Fixpoint all_bytes (P : ascii → bool) (s : string) : bool :=
  match s with
  | EmptyString => true
  | String c r => P c && all_bytes P r
  end.

(** Every byte, one by one. *)
Ltac each_byte c :=
  destruct c as [[] [] [] [] [] [] [] []]; vm_compute; try reflexivity.

Section Restrict.

Context (W N A U L : Z) (signed : bool).

Abbreviation restrict := (restrict_file_name W N A U L signed).

(** The mode is none of the five that have a [case] of their own: it is
    [RESTRICT_NAMES_UNIX], or any other value. *)
Definition unix_mode (mode : Z) : Prop :=
  mode ≠ W ∧ mode ≠ N ∧ mode ≠ A ∧ mode ≠ U ∧ mode ≠ L.

Definition unix_test (c : ascii) : bool :=
  (1 <=? schar signed c) && (schar signed c <=? 31).

Lemma unix_test_control c : unix_test c = is_control c.
Proof. unfold unix_test. destruct signed; each_byte c. Qed.

Lemma escaped_bytes_safe c :
  is_control (hex_digit (Z.shiftr (CStr.uchar c) 4)) = false ∧
  is_control (hex_digit (Z.land (schar signed c) 15)) = false.
Proof. destruct signed; each_byte c; by split. Qed.

Lemma restrict_unix mode fname :
  unix_mode mode →
  restrict mode fname =
    let '(esc, escaped) := escape_loop signed unix_test fname false in
    if escaped then mk_restricted esc true fname
    else mk_restricted fname false fname.
Proof.
  intros (HW & HN & HA & HU & HL). unfold restrict_file_name.
  by rewrite !(proj2 (Z.eqb_neq _ _)) by done.
Qed.

Lemma escape_loop_flag test s e :
  (escape_loop signed test s e).2 = e || negb (all_bytes (λ c, negb (test c)) s).
Proof.
  revert e. induction s as [|c r IH]; intros e; simpl; [by rewrite orb_false_r|].
  destruct (test c) eqn:Hc; simpl.
  - specialize (IH true). destruct (escape_loop signed test r true) as [dst e'].
    simpl in *. rewrite IH. by rewrite orb_true_r.
  - specialize (IH e). destruct (escape_loop signed test r e) as [dst e'].
    simpl in *. by rewrite IH.
Qed.

Lemma escape_loop_text test s e :
  (escape_loop signed test s e).1 = (escape_loop signed test s false).1.
Proof.
  revert e. induction s as [|c r IH]; intros e; simpl; [done|].
  destruct (test c); simpl.
  - by destruct (escape_loop signed test r true).
  - specialize (IH e).
    destruct (escape_loop signed test r e), (escape_loop signed test r false).
    simpl in *. by rewrite IH.
Qed.

Lemma escape_loop_clean test s :
  all_bytes (λ c, negb (test c)) s = true →
  (escape_loop signed test s false).1 = s.
Proof.
  induction s as [|c r IH]; simpl; [done|].
  intros H. apply andb_true_iff in H as [Hc Hr]. apply negb_true_iff in Hc.
  rewrite Hc. specialize (IH Hr). destruct (escape_loop signed test r false).
  simpl in *. by rewrite IH.
Qed.

Lemma escape_loop_safe s e :
  all_bytes (λ c, negb (is_control c)) (escape_loop signed unix_test s e).1 = true ∧
  CStr.strlen (escape_loop signed unix_test s e).1 ≤ 3 * CStr.strlen s.
Proof.
  revert e. induction s as [|c r IH]; intros e; simpl; [done|].
  assert (CStr.strlen (String c r) = 1 + CStr.strlen r) as Hlen.
  { unfold CStr.strlen. simpl String.length. lia. }
  destruct (unix_test c) eqn:Hc.
  - specialize (IH true). destruct (escape_loop signed unix_test r true) as [dst e'].
    simpl in *. destruct IH as [IH1 IH2].
    destruct (escaped_bytes_safe c) as [-> ->]. simpl. split; [done|].
    unfold CStr.strlen in *. simpl String.length. lia.
  - specialize (IH e). destruct (escape_loop signed unix_test r e) as [dst e'].
    simpl in *. destruct IH as [IH1 IH2].
    rewrite unix_test_control in Hc. rewrite Hc. simpl. split; [done|].
    unfold CStr.strlen in *. simpl String.length. lia.
Qed.

(** X12. In the mode "unix" (the default), the name that
    [restrict_file_name] returns has no control character (no byte from 1 to
    31), and it is at most three times as long as the name given, which is
    the room the caller gives to [esc]. The name given is not changed, and
    it is itself returned when it has no control character. *)
Theorem restrict_file_name_unix (mode : Z) (fname : string) :
  unix_mode mode →
  let r := restrict mode fname in
  all_bytes (λ c, negb (is_control c)) (result r) = true ∧
  CStr.strlen (result r) ≤ 3 * CStr.strlen fname ∧
  fname_after r = fname ∧
  is_esc r = negb (all_bytes (λ c, negb (is_control c)) fname) ∧
  (is_esc r = false → result r = fname).
Proof.
  intros Hmode. cbv zeta. rewrite restrict_unix by done.
  pose proof (escape_loop_safe fname false) as [Hsafe Hlen].
  pose proof (escape_loop_flag unix_test fname false) as Hflag.
  assert (all_bytes (λ c, negb (unix_test c)) fname
          = all_bytes (λ c, negb (is_control c)) fname) as Hsame.
  { clear. induction fname as [|c r IH]; simpl; [done|].
    by rewrite IH, unix_test_control. }
  rewrite Hsame in Hflag.
  destruct (escape_loop signed unix_test fname false) as [esc escaped].
  simpl in *. subst escaped.
  destruct (all_bytes (λ c, negb (is_control c)) fname) eqn:Hclean; simpl.
  - split; [done|]. split; [pose proof (strlen_nonneg' fname); lia|]. done.
  - done.
Qed.

(** The escaped form of a name in the mode "unix". *)
Definition escaped_name (s : string) : string := (escape_loop signed unix_test s false).1.

Lemma escaped_name_cons c r :
  escaped_name (String c r) =
    if unix_test c
    then String "%" (String (hex_digit (Z.shiftr (CStr.uchar c) 4))
                       (String (hex_digit (Z.land (schar signed c) 15)) (escaped_name r)))
    else String c (escaped_name r).
Proof.
  unfold escaped_name. simpl. destruct (unix_test c).
  - rewrite <- (escape_loop_text unix_test r true).
    by destruct (escape_loop signed unix_test r true).
  - by destruct (escape_loop signed unix_test r false).
Qed.

Lemma restrict_unix_result mode fname :
  unix_mode mode → result (restrict mode fname) = escaped_name fname.
Proof.
  intros Hmode. rewrite restrict_unix by done. unfold escaped_name.
  pose proof (escape_loop_flag unix_test fname false) as Hflag.
  pose proof (escape_loop_clean unix_test fname) as Hclean.
  destruct (escape_loop signed unix_test fname false) as [esc escaped].
  simpl in *. subst escaped. destruct (all_bytes _ fname); simpl; [|done].
  symmetry. by apply Hclean.
Qed.

(** The value of a hexadecimal digit. *)
Definition unhex (c : ascii) : Z :=
  if CStr.uchar c <=? 57 then CStr.uchar c - 48 else CStr.uchar c - 55.

Lemma byte_of_digits c :
  to_char (16 * unhex (hex_digit (Z.shiftr (CStr.uchar c) 4))
           + unhex (hex_digit (Z.land (schar signed c) 15))) = c.
Proof. destruct signed; each_byte c. Qed.

Lemma escaped_name_inj s1 s2 :
  mentions "%" s1 = false → mentions "%" s2 = false →
  escaped_name s1 = escaped_name s2 → s1 = s2.
Proof.
  revert s2. induction s1 as [|c1 r1 IH]; intros [|c2 r2] H1 H2.
  - done.
  - rewrite escaped_name_cons. by destruct (unix_test c2).
  - rewrite escaped_name_cons. by destruct (unix_test c1).
  - simpl in H1, H2. apply orb_false_iff in H1 as [Hc1 Hr1].
    apply orb_false_iff in H2 as [Hc2 Hr2].
    rewrite !escaped_name_cons.
    destruct (unix_test c1) eqn:E1, (unix_test c2) eqn:E2.
    + intros [= Hhi Hlo Hrest].
      rewrite <- (byte_of_digits c1), <- (byte_of_digits c2), Hhi, Hlo.
      f_equal. by apply IH.
    + intros [= <- _]. by rewrite Ascii.eqb_refl in Hc2.
    + intros [= -> _]. by rewrite Ascii.eqb_refl in Hc1.
    + intros [= -> Hrest]. f_equal. by apply IH.
Qed.

(** X13. In the mode "unix", two names without a '%' that differ are
    different after the escaping too: no two such names are mapped to the
    same file name. (A '%' of the name is not escaped, so that a name with
    one can collide with the escaped form of another.) *)
Theorem restrict_file_name_unix_injective (mode : Z) (s1 s2 : string) :
  unix_mode mode →
  mentions "%" s1 = false → mentions "%" s2 = false →
  result (restrict mode s1) = result (restrict mode s2) →
  s1 = s2.
Proof.
  intros Hmode H1 H2. rewrite !restrict_unix_result by done.
  by apply escaped_name_inj.
Qed.

(** ** The case conversions *)

Definition lower_mode (mode : Z) : Prop :=
  mode ≠ W ∧ mode ≠ N ∧ mode ≠ A ∧ mode ≠ U ∧ mode = L.

Definition upper_mode (mode : Z) : Prop :=
  mode ≠ W ∧ mode ≠ N ∧ mode ≠ A ∧ mode = U.

Definition lower (c : ascii) : ascii :=
  if (65 <=? schar signed c) && (schar signed c <=? 90)
  then to_char (Z.lor (schar signed c) 32) else c.

Definition upper (c : ascii) : ascii :=
  if (97 <=? schar signed c) && (schar signed c <=? 122)
  then to_char (Z.land (schar signed c) (Z.lnot 32)) else c.

Lemma lower_facts c :
  is_upper (lower c) = false ∧ lower (lower c) = lower c ∧ lower (upper c) = lower c ∧
  (is_upper c = false → lower c = c) ∧
  (is_upper c = true → CStr.uchar (lower c) = CStr.uchar c + 32).
Proof. unfold lower, upper. destruct signed; each_byte c; by repeat split. Qed.

Lemma upper_facts c :
  is_lower (upper c) = false ∧ upper (upper c) = upper c ∧ upper (lower c) = upper c ∧
  (is_lower c = false → upper c = c) ∧
  (is_lower c = true → CStr.uchar (upper c) = CStr.uchar c - 32).
Proof. unfold lower, upper. destruct signed; each_byte c; by repeat split. Qed.

(** A function applied to every byte of a string. *)
Fixpoint map_bytes (f : ascii → ascii) (s : string) : string :=
  match s with
  | EmptyString => EmptyString
  | String c r => String (f c) (map_bytes f r)
  end.

Lemma lowercase_loop_map s : lowercase_loop signed s = map_bytes lower s.
Proof. induction s as [|c r IH]; simpl; [done|]. by rewrite IH. Qed.

Lemma uppercase_loop_map s : uppercase_loop signed s = map_bytes upper s.
Proof. induction s as [|c r IH]; simpl; [done|]. by rewrite IH. Qed.

Lemma restrict_lower mode fname :
  lower_mode mode →
  restrict mode fname = mk_restricted (map_bytes lower fname) false (map_bytes lower fname).
Proof.
  intros (HW & HN & HA & HU & ->). unfold restrict_file_name.
  rewrite !(proj2 (Z.eqb_neq _ _)) by done. rewrite Z.eqb_refl.
  by rewrite lowercase_loop_map.
Qed.

Lemma restrict_upper mode fname :
  upper_mode mode →
  restrict mode fname = mk_restricted (map_bytes upper fname) false (map_bytes upper fname).
Proof.
  intros (HW & HN & HA & ->). unfold restrict_file_name.
  rewrite !(proj2 (Z.eqb_neq _ _)) by done. rewrite Z.eqb_refl.
  by rewrite uppercase_loop_map.
Qed.

(** X14. The modes "lowercase" and "uppercase" work in place ([fname] itself
    is returned, changed), keep the length, and change ASCII letters only:
    the result of "lowercase" has no byte from 'A' to 'Z', a second pass
    changes nothing, a byte that is not an upper-case ASCII letter stays as
    it is, and lower-casing an upper-cased name is lower-casing the name.
    The same holds for "uppercase" with the cases exchanged. *)
Theorem restrict_file_name_case (lo up : Z) (fname : string) :
  lower_mode lo → upper_mode up →
  let l := restrict lo fname in
  let u := restrict up fname in
  (is_esc l = false ∧ fname_after l = result l ∧
   String.length (result l) = String.length fname ∧
   all_bytes (λ c, negb (is_upper c)) (result l) = true ∧
   result (restrict lo (result l)) = result l ∧
   result (restrict lo (result u)) = result l ∧
   (all_bytes (λ c, negb (is_upper c)) fname = true → result l = fname)) ∧
  (is_esc u = false ∧ fname_after u = result u ∧
   String.length (result u) = String.length fname ∧
   all_bytes (λ c, negb (is_lower c)) (result u) = true ∧
   result (restrict up (result u)) = result u ∧
   result (restrict up (result l)) = result u ∧
   (all_bytes (λ c, negb (is_lower c)) fname = true → result u = fname)).
Proof.
  intros Hlo Hup. cbv zeta.
  rewrite !(restrict_lower lo), !(restrict_upper up) by done.
  cbn [is_esc fname_after result].
  split.
  - do 2 (split; [done|]).
    split; [induction fname as [|c r IH]; simpl; [done|by rewrite IH]|].
    split; [|split; [|split]].
    + induction fname as [|c r IH]; simpl; [done|].
      rewrite IH. by rewrite (proj1 (lower_facts c)).
    + induction fname as [|c r IH]; simpl; [done|].
      rewrite IH. by rewrite (proj1 (proj2 (lower_facts c))).
    + induction fname as [|c r IH]; simpl; [done|].
      rewrite IH. by rewrite (proj1 (proj2 (proj2 (lower_facts c)))).
    + induction fname as [|c r IH]; simpl; [done|].
      intros H. apply andb_true_iff in H as [Hc Hr]. apply negb_true_iff in Hc.
      rewrite IH by done. by rewrite (proj1 (proj2 (proj2 (proj2 (lower_facts c))))).
  - do 2 (split; [done|]).
    split; [induction fname as [|c r IH]; simpl; [done|by rewrite IH]|].
    split; [|split; [|split]].
    + induction fname as [|c r IH]; simpl; [done|].
      rewrite IH. by rewrite (proj1 (upper_facts c)).
    + induction fname as [|c r IH]; simpl; [done|].
      rewrite IH. by rewrite (proj1 (proj2 (upper_facts c))).
    + induction fname as [|c r IH]; simpl; [done|].
      rewrite IH. by rewrite (proj1 (proj2 (proj2 (upper_facts c)))).
    + induction fname as [|c r IH]; simpl; [done|].
      intros H. apply andb_true_iff in H as [Hc Hr]. apply negb_true_iff in Hc.
      rewrite IH by done. by rewrite (proj1 (proj2 (proj2 (proj2 (upper_facts c))))).
Qed.

End Restrict.

(** ** The directories of a local file name *)

(** A path part that starts with "..". *)
Definition starts_dotdot (part : string) : bool :=
  Ascii.eqb (byte_at part 0) "." && Ascii.eqb (byte_at part 1) ".".

(** Parts joined by '/', and parts each followed by '/'. *)
Fixpoint join (parts : list string) : string :=
  match parts with
  | [] => EmptyString
  | [part] => part
  | part :: parts => part +:+ "/" +:+ join parts
  end.

Fixpoint each_closed (parts : list string) : string :=
  match parts with
  | [] => EmptyString
  | part :: parts => part +:+ "/" +:+ each_closed parts
  end.

(** A part of a path that does not lead upwards, and a path made of such
    parts. *)
Definition plain_part (part : string) : Prop :=
  mentions "/" part = false ∧ starts_dotdot part = false.

Definition descends (path : string) : Prop :=
  ∃ parts, path = join parts ∧ Forall plain_part parts.

Lemma join_snoc parts part : join (parts ++ [part]) = each_closed parts +:+ part.
Proof.
  induction parts as [|p parts IH]; [done|].
  change (each_closed (p :: parts)) with (p +:+ "/" +:+ each_closed parts).
  rewrite !append_assoc, <- IH. simpl. by destruct (parts ++ [part]) eqn:E;
    [destruct parts; discriminate|].
Qed.

Lemma each_closed_snoc parts part :
  each_closed (parts ++ [part]) = each_closed parts +:+ part +:+ "/".
Proof.
  induction parts as [|p parts IH]; simpl; [by rewrite append_nil_r|].
  by rewrite IH, !append_assoc.
Qed.

Lemma made_mkdir path fs : made (mkdir path fs).2 = made fs ++ [path].
Proof. unfold mkdir. destruct (decide _); [done|]. by destruct (mkdir_error fs path). Qed.

Lemma create_path_descends rest : ∀ fname parts part fs,
  Forall plain_part parts → mentions "/" part = false →
  ∃ new,
    made (create_path fname (each_closed parts) part rest fs).2 = made fs ++ new ∧
    Forall descends new.
Proof.
  induction rest as [|c r IH]; intros fname parts part fs Hparts Hpart.
  { exists []. by rewrite app_nil_r. }
  cbn [create_path]. destruct (Ascii.eqb c "/") eqn:Hc.
  - fold (starts_dotdot part). destruct (starts_dotdot part) eqn:Hdots.
    { exists []. by rewrite app_nil_r. }
    pose proof (made_mkdir (each_closed parts +:+ part) fs) as Hmade.
    destruct (mkdir (each_closed parts +:+ part) fs) as [[rc errno] fs1].
    cbn [snd] in Hmade.
    assert (descends (each_closed parts +:+ part)) as Hdir.
    { exists (parts ++ [part]). split; [by rewrite join_snoc|].
      apply Forall_app. split; [done|]. by repeat constructor. }
    destruct (negb (rc =? 0) && negb (errno =? EEXIST)).
    { exists [each_closed parts +:+ part]. cbn [snd]. split; [done|]. by constructor. }
    rewrite <- each_closed_snoc.
    destruct (IH fname (parts ++ [part]) EmptyString fs1) as (new & Hnew & Hall).
    { apply Forall_app. split; [done|]. by repeat constructor. }
    { done. }
    exists ((each_closed parts +:+ part) :: new). rewrite Hnew, Hmade.
    rewrite <- app_assoc. split; [done|]. by constructor.
  - apply IH; [done|]. rewrite mentions_append, Hpart. simpl. by rewrite Hc.
Qed.

Lemma create_path_not_null rest : ∀ fname before part fs fs',
  create_path fname before part rest fs ≠ (Some (Named None), fs').
Proof.
  induction rest as [|c r IH]; intros fname before part fs fs'; [done|].
  cbn [create_path]. destruct (Ascii.eqb c "/"); [|apply IH].
  destruct (_ && _); [by intros [=]|].
  destruct (mkdir _ fs) as [[rc errno] fs1].
  destruct (_ && _); [by intros [=]|apply IH].
Qed.

Section Directories.

Context (W N A U L : Z) (signed : bool) (cfg : config) (opt : name_options).
Context (scheme_name : iri_scheme → string).
Context (get_path get_query_as_filename get_filename : IRI → string → string).

Abbreviation local_filename :=
  (get_local_filename W N A U L signed cfg opt scheme_name get_path
     get_query_as_filename get_filename).

(** X15. [get_local_filename] never makes a directory that leads upwards:
    every path it calls mkdir(2) for is made of parts of the file name that
    have no '/' and do not start with "..", and the process is ended before
    a directory with such a part is made. In spider mode and with an output
    document it makes no directory and returns NULL; otherwise it returns
    NULL only when the file is to be deleted after the download, and then
    the directories have been made all the same. *)
Theorem get_local_filename_descends (i : IRI) (fs : directories_state) :
  let '(ending, fs') := local_filename i fs in
  (∃ new, made fs' = made fs ++ new ∧ Forall descends new) ∧
  (spider cfg = true ∨ is_Some (output_document cfg) →
   ending = Named None ∧ fs' = fs) ∧
  (ending = Named None →
   spider cfg = true ∨ is_Some (output_document cfg) ∨ delete_after cfg = true).
Proof.
  unfold get_local_filename.
  destruct (spider cfg || bool_decide (is_Some (output_document cfg))) eqn:Hoff.
  { split; [exists []; by rewrite app_nil_r|]. split; [done|]. intros _.
    apply orb_true_iff in Hoff as [Hs|Ho]; [by left|].
    right. left. by apply bool_decide_eq_true_1 in Ho. }
  apply orb_false_iff in Hoff as [Hs Ho]. apply bool_decide_eq_false_1 in Ho.
  match goal with
  | |- context [create_path ?f EmptyString EmptyString ?f fs] => set (fname := f)
  end.
  destruct (create_path_descends fname fname [] EmptyString fs) as (new & Hnew & Hall);
    [done|done|].
  change (each_closed []) with EmptyString in Hnew.
  destruct (create_path fname EmptyString EmptyString fname fs) as [[ending|] fs'] eqn:Hwalk.
  - split; [by exists new|]. split; [intros [H|H]; [congruence|done]|].
    intros ->. by apply create_path_not_null in Hwalk.
  - cbn [snd] in Hnew. destruct (delete_after cfg) eqn:Hdel.
    + split; [by exists new|]. split; [intros [H|H]; [congruence|done]|]. auto.
    + split; [by exists new|]. split; [intros [H|H]; [congruence|done]|]. done.
Qed.

End Directories.

Lemma restrict_file_name_unix_witness :
  unix_mode 2 3 4 5 6 1 ∧
  let fname := String "a" (String "010" (String "b" EmptyString)) in
  let r := restrict_file_name 2 3 4 5 6 true 1 fname in
  result r = "a%0Ab"%string ∧
  all_bytes (λ c, negb (is_control c)) (result r) = true ∧
  CStr.strlen (result r) ≤ 3 * CStr.strlen fname ∧
  fname_after r = fname ∧
  is_esc r = negb (all_bytes (λ c, negb (is_control c)) fname) ∧
  (is_esc r = false → result r = fname).
Proof.
  assert (unix_mode 2 3 4 5 6 1) as Hmode by (unfold unix_mode; lia).
  split; [exact Hmode|]. intros fname r. split; [reflexivity|].
  exact (restrict_file_name_unix 2 3 4 5 6 true 1 fname Hmode).
Defined.

Lemma restrict_file_name_unix_injective_witness :
  unix_mode 2 3 4 5 6 1 ∧
  mentions "%" (String "a" (String "010" EmptyString)) = false ∧
  mentions "%" (String "a" (String "010" EmptyString)) = false ∧
  result (restrict_file_name 2 3 4 5 6 true 1 (String "a" (String "010" EmptyString)))
    = "a%0A"%string ∧
  String "a" (String "010" EmptyString) = String "a" (String "010" EmptyString).
Proof.
  assert (unix_mode 2 3 4 5 6 1) as Hmode by (unfold unix_mode; lia).
  split; [exact Hmode|]. split; [reflexivity|]. split; [reflexivity|].
  split; [reflexivity|].
  exact (restrict_file_name_unix_injective 2 3 4 5 6 true 1
           (String "a" (String "010" EmptyString))
           (String "a" (String "010" EmptyString)) Hmode eq_refl eq_refl eq_refl).
Defined.

Lemma restrict_file_name_case_witness :
  lower_mode 2 3 4 5 6 6 ∧ upper_mode 2 3 4 5 5 ∧
  result (restrict_file_name 2 3 4 5 6 true 6 "Index.HTML") = "index.html"%string ∧
  result (restrict_file_name 2 3 4 5 6 true 5 "Index.HTML") = "INDEX.HTML"%string ∧
  let l := restrict_file_name 2 3 4 5 6 true 6 "Index.HTML" in
  let u := restrict_file_name 2 3 4 5 6 true 5 "Index.HTML" in
  (is_esc l = false ∧ fname_after l = result l ∧
   String.length (result l) = String.length "Index.HTML" ∧
   all_bytes (λ c, negb (is_upper c)) (result l) = true ∧
   result (restrict_file_name 2 3 4 5 6 true 6 (result l)) = result l ∧
   result (restrict_file_name 2 3 4 5 6 true 6 (result u)) = result l ∧
   (all_bytes (λ c, negb (is_upper c)) "Index.HTML" = true →
    result l = "Index.HTML"%string)) ∧
  (is_esc u = false ∧ fname_after u = result u ∧
   String.length (result u) = String.length "Index.HTML" ∧
   all_bytes (λ c, negb (is_lower c)) (result u) = true ∧
   result (restrict_file_name 2 3 4 5 6 true 5 (result u)) = result u ∧
   result (restrict_file_name 2 3 4 5 6 true 5 (result l)) = result u ∧
   (all_bytes (λ c, negb (is_lower c)) "Index.HTML" = true →
    result u = "Index.HTML"%string)).
Proof.
  assert (lower_mode 2 3 4 5 6 6) as Hlo by (unfold lower_mode; lia).
  assert (upper_mode 2 3 4 5 5) as Hup by (unfold upper_mode; lia).
  split; [exact Hlo|]. split; [exact Hup|]. split; [reflexivity|]. split; [reflexivity|].
  exact (restrict_file_name_case 2 3 4 5 6 true 6 5 "Index.HTML" Hlo Hup).
Defined.

End FileNameSpec.

(* ===================================================================== *)
(** * More on persistence: the exit status and the files of a run (mget.c) *)
(* ===================================================================== *)

Module PersistMore.
Import Options Persist CStrSpec.

Local Open Scope Z_scope.

(** ** The exit status *)

(** The statuses reported in a run, one call of [set_exit_status] each. *)
Definition report (statuses : list Z) (st : state) : state :=
  foldl (λ st status, set_exit_status status st) st statuses.

(** The least of a list of numbers that starts with [s]. *)
Definition least (s : Z) (statuses : list Z) : Z := foldl Z.min s statuses.

Lemma report_least statuses : ∀ st,
  0 < exit_status st → Forall (λ s, 0 < s) statuses →
  exit_status (report statuses st) = least (exit_status st) statuses.
Proof.
  induction statuses as [|s ss IH]; intros st Hst Hall; [done|].
  apply Forall_cons in Hall as [Hs Hss]. cbn [report least foldl].
  assert (exit_status (set_exit_status s st) = Z.min (exit_status st) s) as Hstep.
  { unfold set_exit_status. cbn [exit_status].
    destruct (exit_status st =? 0) eqn:E; [lia|]. cbn [negb].
    destruct (s <? exit_status st) eqn:E'; lia. }
  fold (report ss (set_exit_status s st)). rewrite IH; [|lia|done].
  by rewrite Hstep.
Qed.

(** X17. Starting from exit status 0, after any number of calls of
    [set_exit_status] with positive statuses the exit status is the least of
    the statuses reported, in whatever order they came; the other fields of
    the state are not touched. *)
Theorem set_exit_status_least (s : Z) (statuses : list Z) (st : state) :
  exit_status st = 0 → Forall (λ s, 0 < s) (s :: statuses) →
  exit_status (report (s :: statuses) st) = least s statuses ∧
  (∀ t, t ∈ s :: statuses → exit_status (report (s :: statuses) st) ≤ t) ∧
  exit_status (report (s :: statuses) st) ∈ s :: statuses ∧
  quota_used (report (s :: statuses) st) = quota_used st ∧
  fsys (report (s :: statuses) st) = fsys st ∧
  bytes_written (report (s :: statuses) st) = bytes_written st.
Proof.
  intros Hst Hall. apply Forall_cons in Hall as [Hs Hss].
  assert (exit_status (report (s :: statuses) st) = least s statuses) as ->.
  { cbn [report foldl]. fold (report statuses (set_exit_status s st)).
    assert (exit_status (set_exit_status s st) = s) as Hfirst.
    { unfold set_exit_status. cbn [exit_status]. by rewrite Hst. }
    rewrite report_least, Hfirst; [done|lia|done]. }
  split; [done|].
  assert (∀ ss a, (∀ t, t ∈ a :: ss → least a ss ≤ t) ∧ least a ss ∈ a :: ss) as Hleast.
  { clear. induction ss as [|b ss IH]; intros a.
    - split; [|by left]. intros t ->%list_elem_of_singleton. done.
    - cbn [least foldl]. fold (least (Z.min a b) ss).
      destruct (IH (Z.min a b)) as [Hle Hin]. split.
      + intros t Ht. assert (least (Z.min a b) ss ≤ Z.min a b) as Hm by (apply Hle; left).
        apply elem_of_cons in Ht as [->|Ht]; [lia|].
        apply elem_of_cons in Ht as [->|Ht]; [lia|].
        apply Hle. by right.
      + apply elem_of_cons in Hin as [Hin|Hin].
        * rewrite Hin. destruct (Z.min_spec a b) as [[_ ->]|[_ ->]];
            [left|right; left].
        * right. by right. }
  destruct (Hleast statuses s) as [Hle Hin].
  split; [done|]. split; [done|].
  assert (∀ ss st0, quota_used (report ss st0) = quota_used st0 ∧
                   fsys (report ss st0) = fsys st0 ∧
                   bytes_written (report ss st0) = bytes_written st0) as Hframe.
  { clear. induction ss as [|b ss IH]; intros st0; [done|].
    cbn [report foldl]. fold (report ss (set_exit_status b st0)).
    destruct (IH (set_exit_status b st0)) as (-> & -> & ->). done. }
  apply Hframe.
Qed.

(** ** Files are not overwritten *)

Section Multiple.

Context (cfg : config).

(** The names tried for a file: the name itself, then name.1, name.2, ... *)
Definition candidate (name : string) (k : Z) : string :=
  if k =? 0 then name else name +:+ "." +:+ pretty k.

(** What a response leaves in a new file. *)
Definition saved (resp : HTTP_RESPONSE) : file :=
  mk_file
    ((if save_headers cfg then default EmptyString (header resp) else EmptyString)
       +:+ body resp)
    (if last_modified resp =? 0 then None else Some (last_modified resp)).

(** The response is saved under the first of the names [name], [name.1], ...
    that is free; when that name is [name.999], the file is made and left
    empty. *)
Definition saved_as (resp : HTTP_RESPONSE) (name : string)
    (before after : gmap string file) : Prop :=
  ∃ k, 0 ≤ k ≤ 999 ∧
       (∀ j, 0 ≤ j < k → is_Some (before !! candidate name j)) ∧
       before !! candidate name k = None ∧
       after = <[candidate name k :=
                   if k =? 999 then mk_file EmptyString None else saved resp]> before.

(** The flags of open(2) in this mode: [O_WRONLY | O_EXCL | O_CREAT]. *)
Definition exclusive : Z := Z.lor (Z.lor O_WRONLY O_EXCL) O_CREAT.

Lemma write_at_end n s st content mt f0 :
  files (fsys st) = <[n := mk_file content mt]> f0 →
  let '(d', st') := write (mk_fd n exclusive (String.length content)) s st in
  d' = mk_fd n exclusive (String.length (content +:+ s)) ∧
  files (fsys st') = <[n := mk_file (content +:+ s) mt]> f0 ∧
  stdout (fsys st') = stdout (fsys st).
Proof.
  intros Hfiles. unfold write. cbn [fd_name fd_flags fd_offset].
  rewrite Hfiles, lookup_insert_eq. cbn [from_option id data mtime].
  change (negb (Z.land exclusive O_APPEND =? 0)) with false. cbn iota.
  rewrite length_append. split; [done|]. cbn [fsys files stdout].
  split; [|done]. rewrite insert_insert_eq. do 2 f_equal.
  rewrite take_all, drop_all, append_nil_r by lia. done.
Qed.

Lemma write_response_fresh resp n st f0 d' st' :
  files (fsys st) = <[n := mk_file EmptyString None]> f0 →
  write_response cfg (mk_fd n exclusive 0) resp st = Some (d', st') →
  fd_name d' = n ∧
  files (fsys st') = <[n := mk_file (data (saved resp)) None]> f0 ∧
  stdout (fsys st') = stdout (fsys st).
Proof.
  intros Hfiles H. unfold write_response in H.
  apply bind_Some in H as ([d1 st1] & H1 & H2). apply (inj Some) in H2.
  unfold saved. cbn [data]. destruct (save_headers cfg).
  - apply bind_Some in H1 as (h & -> & H1). apply (inj Some) in H1.
    cbn [from_option id].
    pose proof (write_at_end n h st EmptyString None f0 Hfiles) as Hw.
    change (String.length "") with 0%nat in Hw. rewrite H1 in Hw.
    destruct Hw as (-> & Hf1 & Hs1). rewrite append_nil_l in Hf1, H2.
    pose proof (write_at_end n (body resp) st1 h None f0 Hf1) as Hw.
    rewrite H2 in Hw. destruct Hw as (-> & Hf2 & Hs2).
    split; [done|]. split; [done|congruence].
  - injection H1 as <- <-. rewrite append_nil_l.
    pose proof (write_at_end n (body resp) st EmptyString None f0 Hfiles) as Hw.
    change (String.length "") with 0%nat in Hw. rewrite H2 in Hw.
    destruct Hw as (-> & Hf1 & Hs1). by rewrite append_nil_l in Hf1.
Qed.

Lemma open_exclusive n f :
  let '(fd, f') := open n exclusive f in
  stdout f' = stdout f ∧
  match fd with
  | inl d => d = mk_fd n exclusive 0 ∧ files f !! n = None ∧
             files f' = <[n := mk_file EmptyString None]> (files f)
  | inr errno => files f' = files f ∧ (errno = EEXIST → is_Some (files f !! n))
  end.
Proof.
  unfold open. destruct (decide _); [done|].
  destruct (files f !! n) as [old|] eqn:Hold; [|done].
  change (negb (Z.land exclusive O_EXCL =? 0)) with true. cbn iota. done.
Qed.

Lemma save_loop_multiple resp target f0 out : ∀ todo fnum fd st fd' fnum' st',
  0 ≤ fnum → fnum + Z.of_nat todo = 999 →
  stdout (fsys st) = out →
  (∀ j, 0 ≤ j < fnum → is_Some (f0 !! candidate target j)) →
  match fd with
  | inl d => d = mk_fd (candidate target fnum) exclusive 0 ∧
             f0 !! candidate target fnum = None ∧
             files (fsys st) = <[candidate target fnum := mk_file EmptyString None]> f0
  | inr errno => files (fsys st) = f0 ∧
                 (errno = EEXIST → is_Some (f0 !! candidate target fnum))
  end →
  save_loop cfg todo fnum target O_EXCL true resp fd st = Some (fd', fnum', st') →
  stdout (fsys st') = out ∧
  (files (fsys st') = f0 ∨ saved_as resp target f0 (files (fsys st'))).
Proof.
  induction todo as [|todo IH]; intros fnum fd st fd' fnum' st' H0 Hsum Hout Hbelow Hfd.
  - cbn [save_loop]. intros [= <- <- <-]. split; [done|].
    destruct fd as [d|errno]; [|left; apply Hfd]. right.
    destruct Hfd as (_ & Hfree & Hfiles). exists fnum.
    assert (fnum = 999) as -> by lia. done.
  - cbn [save_loop]. destruct fd as [d|errno].
    + destruct Hfd as (-> & Hfree & Hfiles).
      destruct (write_response cfg _ resp st) as [[d1 st1]|] eqn:Hw; [|done].
      apply (write_response_fresh _ _ _ f0) in Hw as (Hname & Hf1 & Hs1); [|done].
      cbn. intros [= <- <- <-].
      change (negb (Z.land O_EXCL (Z.lor O_TRUNC O_EXCL) =? 0)) with true.
      cbn [andb]. 
      assert ((fnum =? 999) = false) as Hnot by lia.
      destruct (last_modified resp =? 0) eqn:Hlm; cbn [negb].
      * split; [congruence|]. right. exists fnum. rewrite Hnot.
        split; [lia|]. split; [done|]. split; [done|].
        rewrite Hf1. unfold saved. by rewrite Hlm.
      * unfold set_file_mtime, set_fsys. cbn [fsys files stdout].
        split; [congruence|]. right. exists fnum. rewrite Hnot.
        split; [lia|]. split; [done|]. split; [done|].
        rewrite Hname, Hf1, lookup_insert_eq, insert_insert_eq.
        cbn [from_option id data]. unfold saved. by rewrite Hlm.
    + destruct Hfd as (Hfiles & Hexists). cbn [andb].
      destruct (errno =? EEXIST) eqn:Herrno.
      2:{ intros [= <- <- <-]. split; [done|by left]. }
      apply Z.eqb_eq in Herrno. specialize (Hexists Herrno).
      assert (target +:+ "." +:+ pretty (fnum + 1) = candidate target (fnum + 1))
        as Hname.
      { unfold candidate. by replace (fnum + 1 =? 0) with false by lia. }
      rewrite Hname.
      pose proof (open_exclusive (candidate target (fnum + 1)) (fsys st)) as Hopen.
      change (Z.lor (Z.lor O_WRONLY O_EXCL) O_CREAT) with exclusive.
      destruct (open _ exclusive (fsys st)) as [fd1 f1].
      destruct Hopen as (Hs1 & Hfd1). rewrite Hfiles in Hfd1.
      apply IH; [lia|lia|cbn; congruence| |].
      * intros j Hj. destruct (decide (j = fnum)) as [->|]; [done|].
        apply Hbelow. lia.
      * destruct fd1 as [d1|e1]; cbn [set_fsys fsys]; done.
Qed.

#[local] Opaque save_loop.


#[local] Transparent save_loop.

End Multiple.

(** All statuses of a run at once: 8, then 3, then 4. *)
Lemma set_exit_status_least_witness :
  exit_status (report [8; 3; 4] (mk_state 0 (mk_fs ∅ "" ∅) 0 0)) = 3.
Proof.
  destruct (set_exit_status_least 8 [3; 4] (mk_state 0 (mk_fs ∅ "" ∅) 0 0))
    as [H _]; [reflexivity|repeat constructor|].
  exact H.
Defined.

(** "index.html" exists: the response goes to "index.html.1". *)
Definition one_file : state :=
  mk_state 0 (mk_fs {[ "index.html"%string := mk_file "old" None ]} "" ∅) 0 0.


End PersistMore.

(* ===================================================================== *)
(** * More on the HTTP transaction: what [http_get] returns and sends *)
(* ===================================================================== *)

Module HttpMore.
Import Iri Http HttpSpec.

Local Open Scope Z_scope.

Section Transaction.

Context (L : libmget) (net : network).
Context {S : Type} (add_url : string → Z → S → S).

(** A response that ends the transaction: a 302 with Metalink information,
    a 2xx, a 304, or a code from 400 on. *)
Definition final (resp : RESPONSE) : Prop :=
  (code resp = 302 ∧ links resp = true ∧ digests resp = true)
  ∨ code resp / 100 = 2 ∨ 4 ≤ code resp / 100 ∨ code resp = 304.

(** What holds of a call that started with the state [s] of [add_url]. *)
Definition returned (part : option PART) (s : S) (o : outcome S) : Prop :=
  match response o with
  | None => admission o = s
  | Some resp =>
      (keep_alive resp = false → connection o = None) ∧
      ∃ req,
        last (requests o) = Some req ∧
        exchange net (pred (List.length (requests o))) req = Some resp ∧
        ((final resp ∧ admission o = s) ∨
         (¬ final resp ∧ part = None ∧
          ∃ loc, location resp = Some loc ∧
                 admission o =
                   add_url
                     (default EmptyString
                        (mget_iri_relative_to_abs L (Some (req_iri req)) loc))
                     Admission.URL_FLG_REDIRECTION s))
  end.

Lemma http_get_loop_returned turns : ∀ n iri challenges part method_get conn reqs s o,
  n = List.length reqs →
  http_get_loop L net add_url turns n iri challenges part method_get conn reqs s
    = Some o →
  returned part s o.
Proof.
  induction turns as [|turns IH];
    intros n iri challenges part method_get conn reqs s o Hn; [done|].
  cbn [http_get_loop]. destruct iri as [i|]; [|by intros [= <-]].
  destruct (if reusable conn i then conn else http_open net i) as [c|];
    [|by intros [= <-]].
  set (req := http_create_request i method_get challenges part).
  destruct (exchange net n req) as [resp|] eqn:Hresp; [|by intros [= <-]].
  assert (∀ conn', final resp →
            returned part s
              (mk_outcome (Some resp) (if keep_alive resp then conn' else None)
                 (reqs ++ [req]) s)) as Hfinal.
  { intros conn' Hf. unfold returned. cbn [response connection requests admission].
    split; [by intros ->|]. exists req. rewrite last_snoc, length_app.
    cbn [List.length]. replace (pred (List.length reqs + 1)) with n by lia.
    split; [done|]. split; [done|]. by left. }
  destruct ((code resp =? 302) && links resp && digests resp) eqn:Hmeta.
  { intros [= <-]. apply Hfinal. left.
    apply andb_true_iff in Hmeta as [[H302 Hl]%andb_true_iff Hd].
    split; [lia|done]. }
  destruct ((code resp =? 401) && bool_decide (challenges = None)) eqn:H401.
  { apply andb_true_iff in H401 as [H401 _].
    destruct (Http.challenges resp) as [cs|].
    - apply IH. rewrite length_app. cbn [List.length]. lia.
    - intros [= <-]. apply Hfinal. right. right. left.
      apply Z.eqb_eq in H401. rewrite H401. by vm_compute. }
  destruct ((code resp / 100 =? 2) || (4 <=? code resp / 100) || (code resp =? 304))
    eqn:Hcode.
  { intros [= <-]. apply Hfinal. right.
    apply orb_true_iff in Hcode as [[H2|H4]%orb_true_iff|H304]; lia. }
  assert (¬ final resp) as Hnot.
  { apply orb_false_iff in Hcode as [[H2 H4]%orb_false_iff H304].
    intros [(E302 & El & Ed)|[E|[E|E]]]; [|lia|lia|lia].
    rewrite El, Ed in Hmeta. apply Z.eqb_eq in E302. by rewrite E302 in Hmeta. }
  destruct (location resp) as [loc|] eqn:Hloc.
  - destruct part as [p|].
    + apply IH. rewrite length_app. cbn [List.length]. lia.
    + intros [= <-]. unfold returned.
      cbn [response connection requests admission].
      split; [by intros ->|]. exists req. rewrite last_snoc, length_app.
      cbn [List.length]. replace (pred (List.length reqs + 1)) with n by lia.
      split; [done|]. split; [done|]. right. split; [done|]. split; [done|].
      by exists loc.
  - apply IH. rewrite length_app. cbn [List.length]. lia.
Qed.

(** X19. What [http_get] hands back. When it returns a response, that is the
    answer to the last request sent; the connection is closed unless the
    response allows keep-alive; and either the response is final (a 302 with
    Metalink information, a 2xx, a 304, or a code from 400 on) and [add_url]
    was not called, or the call was not for a part, the response is a
    redirection with a Location, and [add_url] was called once, for the
    absolute form of the Location, flagged as a redirection. When it returns
    NULL, [add_url] was not called. *)
Theorem http_get_returned (turns : nat) (iri : IRI) (part : option PART)
    (conn : option CONNECTION) (method_get : bool) (s : S) (o : outcome S) :
  http_get L net add_url turns iri part conn method_get s = Some o →
  returned part s o.
Proof. unfold http_get. by apply http_get_loop_returned. Qed.

(** Every request that carries credentials answers a challenge of a 401
    response to an earlier request of the same call. *)
Definition solicited (reqs : list REQUEST) : Prop :=
  ∀ k req c,
    reqs !! k = Some req → authorization req = Some c →
    ∃ j asked resp cs,
      (j < k)%nat ∧ reqs !! j = Some asked ∧
      exchange net j asked = Some resp ∧
      code resp = 401 ∧ challenges resp = Some cs ∧ c ∈ cs.

Lemma select_challenge_in cs c : select_challenge cs = Some c → c ∈ cs.
Proof.
  rewrite select_challenge_other.
  destruct (filter _ cs) as [|c' rest] eqn:Hfilter.
  - apply head_Some_elem_of.
  - intros [= ->].
    assert (c ∈ c :: rest) as Hin by left. rewrite <- Hfilter in Hin.
    by apply list_elem_of_filter in Hin as [_ Hin].
Qed.

(** The challenges the loop holds came with a 401 to an earlier request. *)
Definition challenged (n : nat) (reqs : list REQUEST)
    (challenges : option (list CHALLENGE)) : Prop :=
  ∀ cs, challenges = Some cs →
    ∃ j asked resp,
      (j < n)%nat ∧ reqs !! j = Some asked ∧
      exchange net j asked = Some resp ∧
      code resp = 401 ∧ Http.challenges resp = Some cs.

Lemma solicited_snoc reqs i method_get challenges part :
  solicited reqs → challenged (List.length reqs) reqs challenges →
  solicited (reqs ++ [http_create_request i method_get challenges part]).
Proof.
  intros Hsol Hch k req c Hk Hauth.
  apply lookup_snoc_Some in Hk as [[Hlt Hk]|[-> <-]].
  - destruct (Hsol k req c Hk Hauth) as (j & asked & resp & cs & Hj & Hasked & H).
    exists j, asked, resp, cs. split; [done|]. split; [|done].
    rewrite lookup_app_l; [done|lia].
  - cbn [http_create_request authorization] in Hauth.
    destruct challenges as [cs|]; [|done].
    destruct (Hch cs eq_refl) as (j & asked & resp & Hj & Hasked & Hresp & H401 & Hcs).
    exists j, asked, resp, cs. split; [done|].
    split; [by rewrite lookup_app_l|]. split; [done|]. split; [done|].
    split; [done|]. by apply select_challenge_in.
Qed.

Lemma challenged_snoc reqs req challenges :
  challenged (List.length reqs) reqs challenges →
  challenged (Datatypes.S (List.length reqs)) (reqs ++ [req]) challenges.
Proof.
  intros Hch cs Hcs. destruct (Hch cs Hcs) as (j & asked & resp & Hj & Hasked & H).
  exists j, asked, resp. split; [lia|]. split; [by rewrite lookup_app_l|done].
Qed.

Lemma http_get_loop_solicited turns :
  ∀ n iri challenges part method_get conn reqs s o,
  n = List.length reqs → solicited reqs → challenged n reqs challenges →
  http_get_loop L net add_url turns n iri challenges part method_get conn reqs s
    = Some o →
  solicited (requests o).
Proof.
  induction turns as [|turns IH];
    intros n iri challenges part method_get conn reqs s o -> Hsol Hch; [done|].
  cbn [http_get_loop]. destruct iri as [i|]; [|by intros [= <-]].
  destruct (if reusable conn i then conn else http_open net i) as [c|];
    [|by intros [= <-]].
  pose proof (solicited_snoc reqs i method_get challenges part Hsol Hch) as Hsol'.
  pose proof (challenged_snoc reqs (http_create_request i method_get challenges part)
                challenges Hch) as Hch'.
  set (req := http_create_request i method_get challenges part) in *.
  assert (Datatypes.S (List.length reqs) = List.length (reqs ++ [req])) as Hlen.
  { rewrite length_app. cbn [List.length]. lia. }
  destruct (exchange net (List.length reqs) req) as [resp|] eqn:Hresp; [|by intros [= <-]].
  destruct ((code resp =? 302) && links resp && digests resp); [by intros [= <-]|].
  destruct ((code resp =? 401) && bool_decide (challenges = None)) eqn:H401.
  { apply andb_true_iff in H401 as [H401 _]. apply Z.eqb_eq in H401.
    destruct (Http.challenges resp) as [cs|] eqn:Hcs; [|by intros [= <-]].
    apply IH; [done|done|]. intros cs' [= <-].
    exists (List.length reqs), req, resp. split; [lia|].
    split; [by apply list_lookup_middle|done]. }
  destruct (_ || _); [by intros [= <-]|].
  destruct (location resp) as [loc|].
  - destruct part as [p|]; [|by intros [= <-]]. by apply IH.
  - by apply IH.
Qed.

(** X20. [http_get] never sends credentials unasked: the first request of a
    call has no Authorization, and every request that has one answers a
    challenge that came with a 401 response to an earlier request of the
    same call. *)
Theorem http_get_credentials_solicited (turns : nat) (iri : IRI)
    (part : option PART) (conn : option CONNECTION) (method_get : bool) (s : S)
    (o : outcome S) :
  http_get L net add_url turns iri part conn method_get s = Some o →
  solicited (requests o) ∧
  (∀ req, head (requests o) = Some req → authorization req = None).
Proof.
  intros Hget.
  assert (solicited (requests o)) as Hsol.
  { unfold http_get in Hget.
    eapply (http_get_loop_solicited turns 0%nat (Some iri) None part method_get conn []);
      [done| | |exact Hget].
    - intros k req c Hk. by rewrite lookup_nil in Hk.
    - by intros cs. }
  split; [done|]. intros req Hhead.
  destruct (authorization req) as [c|] eqn:Hauth; [|done].
  destruct (Hsol 0%nat req c) as (j & _ & _ & _ & Hj & _); [|done|lia].
  by rewrite <- head_lookup.
Qed.

End Transaction.

(** A server that redirects to another place. *)
Definition moved : network :=
  mk_network
    (λ i, Some (mk_connection (host i) (scheme i) (resolv_port i)))
    (λ _ req, Some (mk_response 301 None (Some "/there"%string) false false false None)).

Definition absolute : libmget :=
  mk_libmget (λ _, None) (λ _ _, None)
    (λ _ loc, Some ("http://h" +:+ loc)) uri.

Lemma http_get_returned_witness :
  let o := mk_outcome
             (Some (mk_response 301 None (Some "/there"%string) false false false None))
             None [mk_request "GET" page None None]
             [("http://h/there"%string, Admission.URL_FLG_REDIRECTION)] in
  http_get absolute moved SitemapSpec.record_add_url 10 page None None true [] = Some o ∧
  returned absolute moved SitemapSpec.record_add_url None [] o.
Proof.
  intros o. split; [reflexivity|].
  exact (http_get_returned absolute moved SitemapSpec.record_add_url 10 page None None
           true [] o eq_refl).
Defined.

Lemma http_get_credentials_solicited_witness :
  let net := protected [digest_challenge; basic_challenge] in
  let o := mk_outcome
             (Some (mk_response 200 None None false false true (Some 0)))
             (Some (mk_connection (Some "h"%string) IRI_SCHEME_HTTP 80))
             [mk_request "GET" page None None;
              mk_request "GET" page (Some basic_challenge) None] tt in
  http_get no_library net no_add_url 10 page None None true tt = Some o ∧
  solicited net (requests o) ∧
  (∀ req, head (requests o) = Some req → authorization req = None).
Proof.
  intros net o. split; [reflexivity|].
  exact (http_get_credentials_solicited no_library net no_add_url 10 page None None
           true tt o eq_refl).
Defined.

End HttpMore.

(* ===================================================================== *)
(** * More on the download of a part: what a worker touches (mget.c) *)
(* ===================================================================== *)

Module MetalinkMore.
Import Iri Http Metalink MetalinkSpec.

Local Open Scope Z_scope.

(** The byte ranges written, in order. *)
Definition writes (t : list event) : list (Z * Z) :=
  omap (λ e, match e with EvPwrite pos len => Some (pos, len) | _ => None end) t.

Lemma writes_app t1 t2 : writes (t1 ++ t2) = writes t1 ++ writes t2.
Proof. unfold writes. apply omap_app. Qed.

Section Own.

Context (w : world) (mirrors : list MIRROR).

(** The range of [p] when the call has turned it from not done to done. *)
Definition written (p p' : PART) : list (Z * Z) :=
  if negb (done p) && done p' then [(position p, length p)] else [].

(** The loop changes nothing but the [done] flag of the part at [pi], and
    writes the range of that part when it sets the flag. *)
Definition own (pi : nat) (p : PART) (st st' : state) : Prop :=
  List.length (parts st') = List.length (parts st) ∧
  (∀ i, i ≠ pi → parts st' !! i = parts st !! i) ∧
  queued st' = queued st ∧
  ∃ p', parts st' !! pi = Some p' ∧
        (p' = p ∨ (done p = false ∧ p' = with_done true p)) ∧
        writes (trace st') = writes (trace st) ++ written p p'.

Lemma own_refl pi p st : parts st !! pi = Some p → own pi p st st.
Proof.
  intros Hp. split; [done|]. split; [done|]. split; [done|].
  exists p. split; [done|]. split; [by left|].
  unfold written. destruct (done p); by rewrite app_nil_r.
Qed.

Lemma mirror_loop_own pi p todo : ∀ tries j st st',
  parts st !! pi = Some p →
  mirror_loop w mirrors todo tries j pi st = Some st' →
  own pi p st st'.
Proof.
  induction todo as [|todo IH]; intros tries j st st' Hp.
  - cbn [mirror_loop]. intros [= <-]. by apply own_refl.
  - cbn [mirror_loop]. rewrite Hp. cbn [mbind option_bind].
    destruct (done p) eqn:Hd; [intros [= <-]; by apply own_refl|].
    destruct (if j <? 0 then None else mirrors !! Z.to_nat j) as [mirror|];
      [|done].
    cbn [mbind option_bind].
    destruct (attempt_writes w tries mirror p) eqn:Hw.
    + rewrite (mirror_loop_done w mirrors _ _ _ _ _ (with_done true p)); cycle 1.
      { cbn. by rewrite list_lookup_alter_eq, Hp. }
      { done. }
      intros [= <-]. split; [cbn; by rewrite length_alter|].
      split; [intros i Hi; cbn; by rewrite list_lookup_alter_ne|].
      split; [done|]. exists (with_done true p).
      split; [cbn; by rewrite list_lookup_alter_eq, Hp|].
      split; [by right|]. cbn. rewrite !writes_app. unfold written.
      rewrite Hd. cbn. by rewrite app_nil_r.
    + set (st1 := if attempt_open_fails w tries mirror p
                  then set_exit_status 3 (emit (EvTry j) st)
                  else emit (EvTry j) st).
      assert (parts st1 = parts st ∧ queued st1 = queued st ∧
              trace st1 = trace st ++ [EvTry j]) as (Hp1 & Hq1 & Ht1).
      { subst st1. by destruct (attempt_open_fails w tries mirror p). }
      intros Hloop. apply IH in Hloop; [|by rewrite Hp1].
      destruct Hloop as (Hlen & Hother & Hq & p' & Hp' & Hcase & Hwrites).
      split; [congruence|]. split; [intros i Hi; by rewrite Hother, Hp1|].
      split; [congruence|]. exists p'. split; [done|]. split; [done|].
      rewrite Hwrites, Ht1, writes_app. cbn. by rewrite app_nil_r.
Qed.


End Own.


End MetalinkMore.

(* ===================================================================== *)
(** * More on admission: what [add_url] lets through (mget.c) *)
(* ===================================================================== *)

Module AdmissionMore.
Import Iri Options Admission AdmissionSpec.

Local Open Scope Z_scope.

Section Gate.

Context (L : libmget) (cfg : config) (get_local_filename : IRI → option string).

(** The checks that [add_url] makes before it touches the state, for the URL
    [i] found by the job [job]. *)
Definition in_scope (job : option nat) (flags : Z) (i : IRI) (st : state) : Prop :=
  (* the redirection limit *)
  (has_flag flags URL_FLG_REDIRECTION = true →
   ∀ j pj, job = Some j → queue st !! j = Some pj →
     max_redirect cfg = 0 ∨ redirection_level pj < max_redirect cfg) ∧
  (* HTTPS only *)
  (https_only cfg = true → scheme i = IRI_SCHEME_HTTPS) ∧
  (* below one of the parents *)
  (recursive cfg = true → parent cfg = false →
   parent_matches (parents st) i = Some true) ∧
  (* on an accepted host *)
  (recursive cfg = true → span_hosts cfg = false →
   ∃ h, host i = Some h ∧ h ∈ domains st ∧ h ∉ exclude_domains cfg) ∧
  (* not disallowed by a robots.txt that was loaded *)
  (recursive cfg = true → robots cfg = true →
   ∀ h paths p,
     hosts st !! key_of i = Some h → robot_job h = None →
     host_robots h = Some paths → path i = Some p →
     robots_disallowed paths p = false).

(** X22. [add_url] changes the state only for a URL that passes all its
    checks: one that can be parsed, is within the redirection limit when it
    comes from a redirection, is an HTTPS URL when only HTTPS is allowed, lies
    below a parent when parents are required, is on an accepted and not
    excluded host unless hosts are spanned, and is not disallowed by the
    robots.txt of its host when that was loaded. For every other URL the
    state stays as it is: nothing is blacklisted, enqueued or deferred. *)
Theorem add_url_in_scope (job : option nat) (url : string) (flags : Z)
    (st st' : state) :
  add_url L cfg get_local_filename job url flags st = Some st' →
  st' ≠ st →
  ∃ i, mget_iri_parse L url = Some i ∧ in_scope job flags i st.
Proof.
  unfold add_url. intros H Hchanged.
  apply bind_Some in H as (stop & Hstop & H).
  destruct stop; [by injection H as <-|].
  destruct (mget_iri_parse L url) as [i|]; [|by injection H as <-].
  exists i. split; [done|].
  destruct (https_only cfg && negb (bool_decide (scheme i = IRI_SCHEME_HTTPS)))
    eqn:Hhttps; [by injection H as <-|].
  apply bind_Some in H as (ok & Hok & H).
  destruct ok; cbn [negb] in H; [|by injection H as <-].
  match type of H with
  | (if ?c then _ else _) = _ => destruct c eqn:Hdomain
  end; [by injection H as <-|].
  apply bind_Some in H as (flow & Hflow & H).
  split; [|split; [|split; [|split]]].
  - intros Hflag j pj -> Hpj. rewrite Hflag, Hpj in Hstop. cbn in Hstop.
    injection Hstop as Hstop. apply andb_false_iff in Hstop as [Hz|Hlt].
    + left. apply negb_false_iff in Hz. lia.
    + right. lia.
  - intros Honly. rewrite Honly in Hhttps. cbn in Hhttps.
    apply negb_false_iff in Hhttps. by apply bool_decide_eq_true_1 in Hhttps.
  - intros Hrec Hpar. by rewrite Hrec, Hpar in Hok.
  - intros Hrec Hspan. rewrite Hrec, Hspan in Hdomain. cbn in Hdomain.
    destruct (host i) as [h|]; [|done]. exists h. split; [done|].
    destruct (decide (h ∈ domains st)) as [Hin|]; [|done]. split; [done|].
    by apply bool_decide_eq_false_1 in Hdomain.
  - intros Hrec Hrob h paths p Hh Hjob Hpaths Hp.
    rewrite Hrec, Hrob in Hflow. cbn [andb] in Hflow.
    unfold hosts_add, hosts_get in Hflow. rewrite Hh in Hflow.
    cbv beta iota in Hflow. rewrite Hh, Hjob, Hpaths, Hp in Hflow.
    destruct (robots_disallowed paths p); [|done].
    injection Hflow as <-. by injection H as <-.
Qed.

End Gate.

(** Only HTTPS is allowed, and a link to an HTTP URL and one to an HTTPS URL
    are found. *)
Definition https_config : config :=
  {| recursive := false; span_hosts := false; robots := false; parent := true;
     https_only := true; trust_server_names := false; max_redirect := 20;
     exclude_domains := ∅; output_document := None; spider := false;
     delete_after := false; save_headers := false; adjust_extension := false;
     timestamping := false; clobber := true; directories := true;
     quota := 0 |}.

Definition scheme_parse (url : string) : option IRI :=
  Some (mk_iri url
          (if String.prefix "https:" url then IRI_SCHEME_HTTPS else IRI_SCHEME_HTTP)
          (Some "h"%string) 443 (Some "/"%string) 0).

Definition scheme_libmget : libmget :=
  mk_libmget scheme_parse (λ _ url, scheme_parse url) (λ _ url, Some url) uri.

Lemma add_url_in_scope_witness :
  let st' := default initial_state
               (add_url scheme_libmget https_config toy_filename None "https://h/" 0
                  initial_state) in
  add_url scheme_libmget https_config toy_filename None "http://h/" 0 initial_state
    = Some initial_state ∧
  add_url scheme_libmget https_config toy_filename None "https://h/" 0 initial_state
    = Some st' ∧
  length (queue st') = 1%nat ∧
  ∃ i, mget_iri_parse scheme_libmget "https://h/" = Some i ∧
       in_scope https_config None 0 i initial_state.
Proof.
  intros st'. split; [by vm_compute|].
  assert (add_url scheme_libmget https_config toy_filename None "https://h/" 0
            initial_state = Some st') as Hadd by (by vm_compute).
  split; [exact Hadd|]. split; [by vm_compute|].
  apply (add_url_in_scope scheme_libmget https_config toy_filename None "https://h/" 0
           initial_state st' Hadd).
  intros H. apply (f_equal (λ s, length (queue s))) in H. by vm_compute in H.
Defined.

End AdmissionMore.

(* ===================================================================== *)
(** * More on sitemaps: trimmed URLs, and URLs that are known (mget.c) *)
(* ===================================================================== *)

Module SitemapMore.
Import Iri Sitemap SitemapSpec CStrSpec.

Local Open Scope Z_scope.

(** ** The URLs of a sitemap are trimmed *)

Fixpoint all_space (s : string) : bool :=
  match s with
  | EmptyString => true
  | String c r => CStr.isspace c && all_space r
  end.

Definition first_char (s : string) : option ascii :=
  match s with
  | EmptyString => None
  | String c _ => Some c
  end.

(** [u] is the text [s] without the white space at its two ends. *)
Definition trimmed_of (s u : string) : Prop :=
  (∃ l t, s = l +:+ u +:+ t ∧ all_space l = true ∧ all_space t = true) ∧
  (∀ c, first_char u = Some c → CStr.isspace c = false) ∧
  (∀ c, CStr.last_char u = Some c → CStr.isspace c = false).

Lemma skip_leading_split s :
  (∃ l, s = l +:+ skip_leading s ∧ all_space l = true) ∧
  (∀ c, first_char (skip_leading s) = Some c → CStr.isspace c = false).
Proof.
  induction s as [|a s [(l & Hl & Hsp) Hfirst]].
  - split; [by exists EmptyString|done].
  - cbn [skip_leading]. destruct (CStr.isspace a) eqn:Ha.
    + split; [|done]. exists (String a l). unfold_append. rewrite <- Hl.
      split; [done|]. cbn. by rewrite Ha.
    + split; [by exists EmptyString|]. by intros c [= <-].
Qed.

Lemma skip_trailing_split s :
  (∃ t, s = skip_trailing s +:+ t ∧ all_space t = true) ∧
  (∀ c, CStr.last_char (skip_trailing s) = Some c → CStr.isspace c = false) ∧
  (∀ c, first_char (skip_trailing s) = Some c → first_char s = Some c).
Proof.
  induction s as [|a s [(t & Ht & Htsp) [Hlast _]]].
  - split; [by exists EmptyString|done].
  - cbn [skip_trailing]. destruct (skip_trailing s) as [|b r] eqn:Hs.
    + destruct (CStr.isspace a) eqn:Ha.
      * split; [|done]. rewrite append_nil_l in Ht. subst s.
        exists (String a t). rewrite append_nil_l.
        split; [done|]. cbn. by rewrite Ha, Htsp.
      * split; [|split; [by intros c [= <-]|done]].
        rewrite append_nil_l in Ht. subst s. exists t. by unfold_append.
    + split; [|split; [|done]].
      * exists t. rewrite (append_cons a). split; [by rewrite <- Ht|done].
      * intros c Hc. apply Hlast. exact Hc.
Qed.

Lemma trim_trimmed s : trimmed_of s (trim s).
Proof.
  unfold trim.
  destruct (skip_leading_split s) as [(l & Hl & Hlsp) Hfirst].
  destruct (skip_trailing_split (skip_leading s)) as [(t & Ht & Htsp) [Hlast Hkeep]].
  split; [|split; [|done]].
  - exists l, t. rewrite <- Ht. done.
  - intros c Hc. apply Hfirst. by apply Hkeep.
Qed.

(** X23. What [_sitemap_get_url] stores is trimmed: one callback adds at most
    one URL, to the URLs of pages or to those of sitemap indexes, and the URL
    added is the text of the element without the white space at its two
    ends: it neither starts nor ends with white space, and only white space
    was cut off. *)
Theorem sitemap_get_url_trimmed (XML_FLG_CONTENT : Z) (ctx : sitemap_context)
    (e : xml_event) :
  ∃ pages indexes,
    urls (_sitemap_get_url XML_FLG_CONTENT ctx e) = urls ctx ++ pages ∧
    sitemap_urls (_sitemap_get_url XML_FLG_CONTENT ctx e)
      = sitemap_urls ctx ++ indexes ∧
    (length pages + length indexes ≤ 1)%nat ∧
    ∀ u, u ∈ pages ++ indexes → trimmed_of (xml_val e) u.
Proof.
  assert (∃ pages indexes : list string,
            urls ctx = urls ctx ++ pages ∧
            sitemap_urls ctx = sitemap_urls ctx ++ indexes ∧
            (length pages + length indexes ≤ 1)%nat ∧
            ∀ u, u ∈ pages ++ indexes → trimmed_of (xml_val e) u) as Hnone.
  { exists [], []. rewrite !app_nil_r. split; [done|]. split; [done|].
    split; [cbn; lia|]. intros u Hu. by apply elem_of_nil in Hu. }
  unfold _sitemap_get_url.
  destruct (_ && _); [|exact Hnone].
  destruct (CStr.strcasecmp (xml_dir e) "/sitemapindex/sitemap/loc" =? 0).
  { exists [], [trim (xml_val e)]. cbn. rewrite app_nil_r.
    split; [done|]. split; [done|]. split; [lia|].
    intros u ->%list_elem_of_singleton. apply trim_trimmed. }
  destruct (CStr.strcasecmp (xml_dir e) "/urlset/url/loc" =? 0); [|exact Hnone].
  exists [trim (xml_val e)], []. cbn. rewrite app_nil_r.
  split; [done|]. split; [done|]. split; [lia|].
  intros u ->%list_elem_of_singleton. apply trim_trimmed.
Qed.

(** ** URLs that are known are not added again *)

(** The URLs that a scan has added, in order, for the known URLs [known0]
    it started with. *)
Definition added (known0 : gset string) (calls0 : list (string * Z))
    (st : gset string * list (string * Z)) : Prop :=
  ∃ new,
    st.2 = calls0 ++ new ∧
    NoDup new.*1 ∧
    (∀ u, u ∈ new.*1 → u ∉ known0) ∧
    st.1 = known0 ∪ list_to_set new.*1 ∧
    (∀ u f, (u, f) ∈ new → f = 0 ∨ f = Admission.URL_FLG_SITEMAP).

Lemma added_refl known0 calls0 : added known0 calls0 (known0, calls0).
Proof.
  exists []. cbn. rewrite app_nil_r. split; [done|]. split; [constructor|].
  split; [intros u Hu; by apply elem_of_nil in Hu|].
  split; [by rewrite (right_id_L ∅ (∪))|].
  intros u f Hu. by apply elem_of_nil in Hu.
Qed.

Lemma added_put known0 calls0 st url flags :
  flags = 0 ∨ flags = Admission.URL_FLG_SITEMAP →
  added known0 calls0 st →
  added known0 calls0
    (match known_put url st with
     | (true, st) => st
     | (false, st) => (st.1, record_add_url url flags st.2)
     end).
Proof.
  intros Hflags (new & Hcalls & Hnd & Hfresh & Hknown & Hf).
  unfold known_put. destruct (decide (url ∈ st.1)) as [Hin|Hnotin].
  { by exists new. }
  cbn [fst snd]. unfold record_add_url. exists (new ++ [(url, flags)]).
  rewrite fmap_app. cbn [fmap list_fmap fst].
  assert ((url ∉ new.*1) ∧ (url ∉ known0)) as [Hnew H0].
  { rewrite Hknown in Hnotin. split; intros Hu; apply Hnotin; apply elem_of_union;
      [right; by apply elem_of_list_to_set|by left]. }
  split; [by rewrite Hcalls, app_assoc|].
  split.
  { apply NoDup_app. split; [done|]. split; [|apply NoDup_singleton].
    intros u Hu Hu'. apply list_elem_of_singleton in Hu'. by subst u. }
  split.
  { intros u Hu. apply elem_of_app in Hu as [Hu|Hu]; [by apply Hfresh|].
    apply list_elem_of_singleton in Hu. by subst u. }
  split.
  { rewrite Hknown, list_to_set_app_L. cbn [list_to_set foldr].
    apply set_eq. intros x.
    rewrite !elem_of_union, !elem_of_singleton, elem_of_empty. tauto. }
  intros u f Hu. apply elem_of_app in Hu as [Hu|Hu]; [by eapply Hf|].
  apply list_elem_of_singleton in Hu. by injection Hu as -> ->.
Qed.

Lemma added_pages base known0 calls0 (l : list string) : ∀ st,
  added known0 calls0 st →
  added known0 calls0 (foldl (page_url record_add_url base) st l).
Proof.
  induction l as [|u l IH]; intros st Hst; [done|].
  cbn [foldl]. apply IH. unfold page_url.
  destruct (not_matching_location base u); [done|].
  apply added_put; [by left|done].
Qed.

Lemma added_indexes known0 calls0 (l : list string) : ∀ st,
  added known0 calls0 st →
  added known0 calls0 (foldl (index_url record_add_url) st l).
Proof.
  induction l as [|u l IH]; intros st Hst; [done|].
  cbn [foldl]. apply IH. unfold index_url.
  apply added_put; [by right|done].
Qed.

Section Scan.

Context (XML_FLG_CONTENT : Z) (mget_xml_parse_buffer : string → list xml_event).

(** X24. [sitemap_parse_xml] hands no URL to [add_url] twice, and none that
    was known: the URLs of its calls of [add_url] are pairwise distinct, none
    of them was among the known URLs before, and the known URLs afterwards
    are those before and those added. Every call has the flags 0 (a page) or
    [URL_FLG_SITEMAP] (a sitemap of an index). *)
Theorem sitemap_parse_xml_adds_once (data : string) (base : option IRI)
    (known : gset string) (calls : list (string * Z)) :
  added known calls
    (sitemap_parse_xml XML_FLG_CONTENT mget_xml_parse_buffer record_add_url data base
       (known, calls)).
Proof.
  unfold sitemap_parse_xml. apply added_indexes, added_pages, added_refl.
Qed.

End Scan.

End SitemapMore.

(* ===================================================================== *)
(** * More on a turn of a worker: robots.txt jobs (mget.c) *)
(* ===================================================================== *)

Module WorkerMore.
Import Iri Options Worker.

Local Open Scope Z_scope.

Section Robots.

Context (cfg : config) (opt : worker_options).
Context (w : world) (mw : Metalink.world).
Context (id : Z) (job : Admission.JOB).

(** A step that keeps the exit status and makes no HEAD request. *)
Definition gentle (st st' : state) : Prop :=
  Metalink.exit_status (dl st') = Metalink.exit_status (dl st) ∧
  ∃ new, calls st' = calls st ++ new ∧ Forall (λ c, c ≠ CallHttpGet false) new.

Lemma gentle_refl st : gentle st st.
Proof. split; [done|]. exists []. by rewrite app_nil_r. Qed.

Lemma gentle_emit c st st' :
  c ≠ CallHttpGet false → gentle st st' → gentle st (emit c st').
Proof.
  intros Hc (He & new & Hnew & Hall). split; [done|].
  exists (new ++ [c]). cbn. rewrite Hnew, app_assoc. split; [done|].
  apply Forall_app. split; [done|]. by constructor.
Qed.

Lemma gentle_set_metalink m st st' : gentle st st' → gentle st (set_metalink m st').
Proof. done. Qed.

Lemma gentle_set_host_robots r st st' :
  gentle st st' → gentle st (set_host_robots r st').
Proof. done. Qed.

Lemma gentle_add_sitemaps (l : list string) : ∀ st st',
  gentle st st' →
  gentle st (foldl (λ st sitemap, emit (CallAddUrl sitemap Admission.URL_FLG_SITEMAP) st)
               st' l).
Proof.
  induction l as [|a l IH]; intros st st' H; [done|].
  cbn [foldl]. apply IH. by apply gentle_emit.
Qed.

Lemma get_loop_gentle todo : ∀ k st st',
  gentle st st' → gentle st (get_loop w todo k true st').2.
Proof.
  induction todo as [|todo IH]; intros k st st' H; [done|].
  cbn [get_loop]. destruct (http_get w k true).
  - cbn [snd]. by apply gentle_emit.
  - apply IH. by apply gentle_emit.
Qed.

Lemma start_or_resume_gentle sort st st0 :
  gentle st0 st → gentle st0 (start_or_resume w mw sort st).2.
Proof.
  intros H. unfold start_or_resume, Metalink.job_validate_file.
  destruct (Metalink.validates mw); cbn [negb snd]; [done|].
  apply gentle_emit; [done|]. by destruct sort.
Qed.

Lemma regular_gentle resp st0 st st' :
  Admission.deferred job ≠ None →
  gentle st0 st →
  regular cfg opt w job resp st = Some st' → gentle st0 st'.
Proof.
  intros Hrobots Hst. unfold regular.
  destruct (code resp =? 200).
  { assert (gentle st0 (emit (CallSaveFile (target cfg opt job resp)) st)) as Hsaved
      by (by apply gentle_emit).
    destruct (scans cfg opt job); [|by intros [= <-]].
    destruct (content_type resp) as [ct|]; [|by intros [= <-]].
    destruct (CStr.strcasecmp ct "text/html" =? 0);
      [intros [= <-]; by apply gentle_emit|].
    destruct (CStr.strcasecmp ct "application/xhtml+xml" =? 0); [by intros [= <-]|].
    destruct (CStr.strcasecmp ct "text/css" =? 0);
      [intros [= <-]; by apply gentle_emit|].
    destruct (Admission.sitemap job).
    { destruct (CStr.strcasecmp ct "application/xml" =? 0);
        [intros [= <-]; by apply gentle_emit|].
      destruct (CStr.strcasecmp ct "application/x-gzip" =? 0);
        [intros [= <-]; by apply gentle_emit|].
      destruct (CStr.strcasecmp ct "text/plain" =? 0);
        [intros [= <-]; by apply gentle_emit|by intros [= <-]]. }
    destruct (_ && _); [|by intros [= <-]].
    intros H. apply bind_Some in H as (k & _ & H).
    destruct (mget_robots_parse w (body resp)) as [r|]; injection H as <-; [|done].
    by apply gentle_add_sitemaps. }
  destruct (_ && _); [intros [= <-]; by apply gentle_emit|].
  destruct (_ && _).
  { destruct (scans cfg opt job); [|by intros [= <-]].
    intros H. apply bind_Some in H as (fname & _ & H).
    destruct (extension fname) as [ext|]; [|by injection H as <-].
    destruct (_ || _); [injection H as <-; by apply gentle_emit|].
    destruct (_ =? 0); injection H as <-; [by apply gentle_emit|done]. }
  destruct (code resp =? 404); [|by intros [= <-]].
  rewrite bool_decide_eq_false_2 by done. by intros [= <-].
Qed.

Lemma fetch_gentle k st b st' :
  Admission.deferred job ≠ None →
  fetch cfg opt w mw job k st = Some (b, st') → gentle st st'.
Proof.
  intros Hrobots. unfold fetch. intros H. apply bind_Some in H as (u & _ & H).
  pose proof (get_loop_gentle 3 k st st (gentle_refl st)) as Hloop.
  destruct (get_loop w 3 k true st) as [[resp k'] st1]. cbn [snd] in Hloop.
  destruct resp as [resp|]; [|by injection H as <- <-].
  apply bind_Some in H as ([found top] & _ & H).
  destruct found as [link|]; [injection H as <- <-; by apply gentle_emit|].
  destruct top as [link|]; [injection H as <- <-; by apply gentle_emit|].
  set (st2 := match content_type resp with
              | Some ct =>
                  if CStr.strcasecmp ct "application/metalink4+xml" =? 0
                  then set_metalink (metalink4_parse w (body resp)) st1
                  else if CStr.strcasecmp ct "application/metalink+xml" =? 0
                  then set_metalink (metalink3_parse w (body resp)) st1
                  else st1
              | None => st1
              end) in H.
  assert (gentle st st2) as Hst2.
  { subst st2. destruct (content_type resp) as [ct|]; [|done].
    destruct (_ =? 0); [done|]. by destruct (_ =? 0). }
  clearbody st2.
  destruct (if bool_decide (content_type resp = None) then None else metalink st2)
    as [m|].
  - destruct (size m <=? 0); [by injection H as <- <-|].
    destruct (bool_decide (mirrors m = None)); [by injection H as <- <-|].
    apply (inj Some) in H.
    pose proof (start_or_resume_gentle true st2 st Hst2) as Hstart.
    rewrite H in Hstart. exact Hstart.
  - apply bind_Some in H as (st3 & Hreg & [= <- <-]).
    by eapply regular_gentle.
Qed.


End Robots.

(** The robots.txt job of the host "h", and a server that has no robots.txt. *)
Definition robots_job : Admission.JOB :=
  let i := mk_iri "http://h/robots.txt" IRI_SCHEME_HTTP (Some "h"%string) 80
             (Some "/robots.txt"%string) 0 in
  Admission.mk_job i (Some i) 0 0 None (Some "robots.txt"%string) false (Some [])
    (Some (IRI_SCHEME_HTTP, Some "h"%string, 80)).

Definition not_found : world :=
  mk_world (λ _ _, Some (mk_response 404 None None None 0 None None ""))
    (λ _, None) (λ _, None) (λ _, None) (λ m, m).

Definition spider_config : config :=
  {| recursive := true; span_hosts := false; robots := true; parent := true;
     https_only := false; trust_server_names := false; max_redirect := 20;
     exclude_domains := ∅; output_document := None; spider := true;
     delete_after := false; save_headers := false; adjust_extension := false;
     timestamping := false; clobber := true; directories := true;
     quota := 0 |}.


End WorkerMore.
